(** * DigiFox CW decoder core: a shallow embedding and its verified properties

    The development follows the C sources under [DigiFox/Codec/CW]:
    [morse_table.c], [iir_filter.c], [multipass_avg.c], [envelope.c],
    [kalman.c], [timing.c], [output_filter.c] and [cw_decoder.c], and the
    character FIFO of [DigiFox/HamlibStubs/hamlib_missing.c].

    Conventions.
    - A C [int] is a [Z] and no wrap-around is modelled: a statement
      that lets a counter of the decoder run for any number of samples
      carries the hypothesis that it stays within [INT_MAX].
    - A C [char] is an [ascii]; a NUL-terminated string is a [string].
    - A function that stores into a caller's buffer [out] returns, next to
      its C return value, the list of stores [(index, byte)] it performed,
      in program order, with [index] relative to the [out] pointer it got.
    - Struct fields keep their C names behind a short struct prefix
      ([k_x] for [kalman_t.x], [t_on_dur] for [timing_t.on_dur], ...). *)

From Stdlib Require Import ZArith List Bool Ascii String Lia.
From Stdlib Require Import SpecFloat Reals Lra.
Import ListNotations.

Local Open Scope Z_scope.

(* ================================================================== *)
(** * Part I: the program                                              *)
(* ================================================================== *)

(** ** Stores into an output buffer *)

Definition store : Type := (Z * ascii)%type.

(** [out + k]: the callee's index [i] is the caller's index [k + i]. *)
Definition shift_stores (k : Z) (ss : list store) : list store :=
  map (fun s => (k + fst s, snd s)) ss.

(** [memcpy(out, src, n)] for a source given as the list of its first bytes. *)
Fixpoint memcpy_stores (base : Z) (src : list ascii) : list store :=
  match src with
  | [] => []
  | c :: tl => (base, c) :: memcpy_stores (base + 1) tl
  end.

(** Every store lands inside [out[0 .. out_len)]. *)
Definition stores_within (out_len : Z) (ss : list store) : Prop :=
  Forall (fun s => 0 <= fst s < out_len) ss.

(** The bytes stored, in program order. *)
Definition stored_bytes (ss : list store) : list ascii := map snd ss.

(** The buffer after the stores: the last store to an index wins. *)
Fixpoint buffer_at (ss : list store) (i : Z) : option ascii :=
  match ss with
  | [] => None
  | (j, c) :: tl =>
      match buffer_at tl i with
      | Some c' => Some c'
      | None => if j =? i then Some c else None
      end
  end.

(** A call wrote [n] bytes into a buffer of [out_len]: its stores filled
    [out[0]], [out[1]], ... in that order, [n] of them, and [n] does not
    exceed [out_len]. *)
Definition wrote (out_len n : Z) (ss : list store) : Prop :=
  exists bytes,
    ss = memcpy_stores 0 bytes
    /\ n = Z.of_nat (List.length bytes)
    /\ n <= out_len.

(** ** morse_table.c *)

Record morse_entry_t := mk_entry {
  pattern : string;
  ch : ascii;
  weight : Z
}.

Definition MORSE_TABLE : list morse_entry_t :=
  [ mk_entry "." "E" 321;
    mk_entry "-" "T" 236;
    mk_entry ".." "I" 115;
    mk_entry ".-" "A" 127;
    mk_entry "-." "N" 103;
    mk_entry "--" "M" 48;
    mk_entry "..." "S" 101;
    mk_entry "..-" "U" 48;
    mk_entry ".-." "R" 84;
    mk_entry ".--" "W" 38;
    mk_entry "-.." "D" 68;
    mk_entry "-.-" "K" 17;
    mk_entry "--." "G" 31;
    mk_entry "---" "O" 127;
    mk_entry "...." "H" 103;
    mk_entry "...-" "V" 16;
    mk_entry "..-." "F" 37;
    mk_entry ".-.." "L" 66;
    mk_entry ".--." "P" 31;
    mk_entry ".---" "J" 3;
    mk_entry "-..." "B" 25;
    mk_entry "-..-" "X" 3;
    mk_entry "-.-." "C" 44;
    mk_entry "-.--" "Y" 32;
    mk_entry "--.." "Z" 2;
    mk_entry "--.-" "Q" 2;
    mk_entry ".----" "1" 10;
    mk_entry "..---" "2" 10;
    mk_entry "...--" "3" 10;
    mk_entry "....-" "4" 10;
    mk_entry "....." "5" 10;
    mk_entry "-...." "6" 10;
    mk_entry "--..." "7" 10;
    mk_entry "---.." "8" 10;
    mk_entry "----." "9" 10;
    mk_entry "-----" "0" 10;
    mk_entry ".-.-.-" "." 5;
    mk_entry "--..--" "," 5;
    mk_entry "..--.." "?" 5;
    mk_entry ".----." "'" 3;
    mk_entry "-.-.--" "!" 3;
    mk_entry "-..-." "/" 5;
    mk_entry "-.--." "(" 3;
    mk_entry "-.--.-" ")" 3;
    mk_entry ".-..." "&" 3;
    mk_entry "---..." ":" 3;
    mk_entry "-.-.-." ";" 3;
    mk_entry "-...-" "=" 5;
    mk_entry ".-.-." "+" 3;
    mk_entry "-....-" "-" 3;
    mk_entry "..--.-" "_" 3;
    mk_entry ".-..-." (ascii_of_nat 34) 3;
    mk_entry "...-..-" "$" 3;
    mk_entry ".--.-." "@" 3 ].

(** The [for] loop of [morse_lookup]: first entry whose pattern compares
    equal, ['?'] when the scan ends. *)
Fixpoint lookup_scan (tbl : list morse_entry_t) (p : string) : ascii :=
  match tbl with
  | [] => "?"%char
  | e :: tl => if String.eqb (pattern e) p then ch e else lookup_scan tl p
  end.

Definition morse_lookup (p : string) : ascii :=
  match p with
  | EmptyString => "?"%char
  | _ => lookup_scan MORSE_TABLE p
  end.

Fixpoint weight_scan (tbl : list morse_entry_t) (c : ascii) : Z :=
  match tbl with
  | [] => 1
  | e :: tl => if Ascii.eqb (ch e) c then weight e else weight_scan tl c
  end.

Definition morse_char_weight (c : ascii) : Z := weight_scan MORSE_TABLE c.

(** The running best of the split loop: [best_weight], [best_left],
    [best_right]. *)
Definition best_t : Type := (Z * ascii * ascii)%type.

Definition best_init : best_t := (-1, zero, zero).

(** One iteration of the split loop at position [pos]. *)
Definition split_step (p : string) (best : best_t) (pos : nat) : best_t :=
  let len := String.length p in
  let left_buf := substring 0 pos p in
  let right_buf := substring pos (len - pos) p in
  let lch := morse_lookup left_buf in
  let rch := morse_lookup right_buf in
  if negb (Ascii.eqb lch "?") && negb (Ascii.eqb rch "?") then
    let w := morse_char_weight lch + morse_char_weight rch in
    let '(best_weight, _, _) := best in
    if best_weight <? w then (w, lch, rch) else best
  else best.

(** [for (pos = 1; pos < len && pos < 15; pos++)]. *)
Definition split_positions (len : nat) : list nat :=
  seq 1 (Nat.min len 15 - 1).

Definition split_loop (p : string) : best_t :=
  fold_left (split_step p) (split_positions (String.length p)) best_init.

(** [morse_lookup_merged(pattern, out, out_len)]: the return value and the
    stores into [out].  [left_buf] and [right_buf] hold 16 bytes in C, so
    the model is the C function for patterns of at most 16 elements. *)
Definition morse_lookup_merged (p : string) (out_len : Z)
  : Z * list store :=
  match p with
  | EmptyString => (0, [])
  | _ =>
    if out_len <? 1 then (0, []) else
    let direct := morse_lookup p in
    if negb (Ascii.eqb direct "?") then (1, [(0, direct)]) else
    if (Z.of_nat (String.length p) <=? 1) then (1, [(0, "?"%char)]) else
    let '(best_weight, best_left, best_right) := split_loop p in
    if (0 <=? best_weight) && (2 <=? out_len)
    then (2, [(0, best_left); (1, best_right)])
    else (1, [(0, "?"%char)])
  end.

(** *** The merged lookup as the specification words it *)

(** The table entry of a pattern, if it has one. *)
Definition table_entry (p : string) : option morse_entry_t :=
  find (fun e => String.eqb (pattern e) p) MORSE_TABLE.

(** A split position at which both halves are table entries: the sum of
    their weights and their two characters. *)
Definition valid_split (p : string) (pos : nat) : option best_t :=
  match table_entry (substring 0 pos p),
        table_entry (substring pos (String.length p - pos) p) with
  | Some l, Some r => Some (weight l + weight r, ch l, ch r)
  | _, _ => None
  end.

(** [pos] is the split the specification chooses: valid, of the largest
    weight among the valid splits in [1, len - 1], and the earliest of
    those. *)
Definition chosen_split (p : string) (pos : nat) (b : best_t) : Prop :=
  (1 <= pos < String.length p)%nat
  /\ valid_split p pos = Some b
  /\ (forall pos' b',
        (1 <= pos' < String.length p)%nat ->
        valid_split p pos' = Some b' -> fst (fst b') <= fst (fst b))
  /\ (forall pos' b',
        (1 <= pos' < pos)%nat ->
        valid_split p pos' = Some b' -> fst (fst b') < fst (fst b)).

(** The pattern of the question mark. *)
Definition question_mark : string := "..--..".

(** The question mark plays no part in looking [p] up: neither [p] nor a
    half of any split of it is its pattern. *)
Definition question_mark_free (p : string) : Prop :=
  p <> question_mark
  /\ forall pos,
      substring 0 pos p <> question_mark
      /\ substring pos (String.length p - pos) p <> question_mark.

(** What the running best stands for once the positions in [1, s) have
    been tried. *)
Definition best_upto (p : string) (s : nat) (best : best_t) : Prop :=
  (best = best_init
   /\ forall pos, (1 <= pos < s)%nat -> valid_split p pos = None)
  \/ (exists pos,
        (1 <= pos < s)%nat
        /\ valid_split p pos = Some best
        /\ (forall pos' b', (1 <= pos' < s)%nat ->
                            valid_split p pos' = Some b' ->
                            fst (fst b') <= fst (fst best))
        /\ (forall pos' b', (1 <= pos' < pos)%nat ->
                            valid_split p pos' = Some b' ->
                            fst (fst b') < fst (fst best))).

(** ** multipass_avg.c: initialisation *)

Definition MULTIPASS_MAX_PASSES : Z := 8.
Definition MULTIPASS_MAX_WINDOW : Z := 256.

(** The two clamped arguments of [multipass_init], as it stores them in
    [mp->n_passes] and [mp->window_size]. *)
Definition multipass_init_passes (n_passes : Z) : Z :=
  let n_passes := if n_passes <? 1 then 1 else n_passes in
  if MULTIPASS_MAX_PASSES <? n_passes then MULTIPASS_MAX_PASSES else n_passes.

Definition multipass_init_window (window_size : Z) : Z :=
  let window_size := if window_size <? 3 then 3 else window_size in
  let window_size :=
    if MULTIPASS_MAX_WINDOW <? window_size then MULTIPASS_MAX_WINDOW
    else window_size in
  if Z.rem window_size 2 =? 0 then window_size + 1 else window_size.

(** [envelope_init], multipass branch, after [int window = (int)window_f]:
    the window handed to [multipass_init]. *)
Definition envelope_window (window : Z) : Z :=
  let window := if window <? 5 then 5 else window in
  if Z.rem window 2 =? 0 then window + 1 else window.

(** The effective window size of an envelope detector in multipass mode. *)
Definition envelope_init_window (window : Z) : Z :=
  multipass_init_window (envelope_window window).

(** ** Single-precision arithmetic

    The DSP and timing code computes in C [float].  The program is written
    once over an interface of the operations it uses, so that each result
    below says for which arithmetic it holds: every arithmetic (the
    control-flow and buffer properties), every arithmetic with a stated
    property that IEEE 754 binary32 has (the Kalman bounds, silence), or
    binary32 itself (concrete runs).  The real numbers serve as a second
    instance, for inputs that need [logf]. *)

Class FloatOps : Type := {
  float : Type;
  (** the literal [n/d], e.g. [flit 12 10] for [1.2f] *)
  flit : Z -> Z -> float;
  (** [(float)i] and [(int)x] *)
  f_of_int : Z -> float;
  f_to_int : float -> Z;
  fadd : float -> float -> float;
  fsub : float -> float -> float;
  fmul : float -> float -> float;
  fdiv : float -> float -> float;
  fabsf : float -> float;
  sqrtf : float -> float;
  logf : float -> float;
  expf : float -> float;
  (** [x < y] and [x <= y]; [x > y] is [flt y x], [x >= y] is [fle y x] *)
  flt : float -> float -> bool;
  fle : float -> float -> bool;
  (** [(float)M_PI] and [(float)M_LN2]: the [double] constants of math.h
      converted to [float].  kalman.c's own [M_LN2] is under [#ifndef] and
      is not used where math.h supplies one. *)
  M_PI : float;
  M_LN2 : float;
  (** [x - M_LN2] and [x + M_LN2] for a [float x], stored into a [float]:
      [M_LN2] being a [double], C converts [x], computes in double
      precision and rounds the result to [float] *)
  fsub_M_LN2 : float -> float;
  fadd_M_LN2 : float -> float
}.

Declare Scope float_scope.
Delimit Scope float_scope with fl.
Notation "x + y" := (fadd x y) : float_scope.
Notation "x - y" := (fsub x y) : float_scope.
Notation "x * y" := (fmul x y) : float_scope.
Notation "x / y" := (fdiv x y) : float_scope.
Notation "x <? y" := (flt x y) : float_scope.
Notation "x <=? y" := (fle x y) : float_scope.
Notation "x >? y" := (flt y x) : float_scope.
Notation "x >=? y" := (fle y x) : float_scope.

(** ** Arrays and loops *)

(** [for (i = 0; i < n; i++)]: the indices visited. *)
Definition zrange (n : Z) : list Z := map Z.of_nat (seq 0 (Z.to_nat n)).

(** [a[i]] on an array given as a list; [d] stands for a slot the list does
    not have (the code below guards every index). *)
Definition aget {A} (d : A) (a : list A) (i : Z) : A :=
  if i <? 0 then d else nth (Z.to_nat i) a d.

(** [a[i] = v]. *)
Fixpoint nset {A} (a : list A) (i : nat) (v : A) : list A :=
  match a, i with
  | [], _ => []
  | _ :: tl, O => v :: tl
  | h :: tl, S i' => h :: nset tl i' v
  end.

Definition aset {A} (a : list A) (i : Z) (v : A) : list A :=
  if i <? 0 then a else nset a (Z.to_nat i) v.

(** The blocks of at most [k] elements a [while (processed < n)] loop takes
    from an array, in order. *)
Fixpoint blocks_fuel {A} (fuel k : nat) (l : list A) : list (list A) :=
  match fuel with
  | O => []
  | S fuel' =>
      match l with
      | [] => []
      | _ => firstn k l :: blocks_fuel fuel' k (skipn k l)
      end
  end.

Definition blocks {A} (k : nat) (l : list A) : list (list A) :=
  blocks_fuel (List.length l) k l.

Section Program.
Context {FO : FloatOps}.

Definition fzero : float := flit 0 1.

Definition fget := aget fzero.

(** ** iir_filter.c: processing *)

Record iir_section_t := mk_section {
  sec_b0 : float; sec_b1 : float; sec_b2 : float;
  sec_a1 : float; sec_a2 : float;
  sec_z0 : float; sec_z1 : float
}.

(** The first [n_sections] sections of the cascade. *)
Definition iir_filter_t : Type := list iir_section_t.

(** The inner loop of [iir_filter_process] over one section: the section's
    state [(z0, z1)] and the samples written so far. *)
Definition biquad_step (sec : iir_section_t)
  (st : float * float * list float) (x : float) : float * float * list float :=
  let '(z0, z1, written) := st in
  let y := (sec_b0 sec * x + z0)%fl in
  let z0' := (sec_b1 sec * x - sec_a1 sec * y + z1)%fl in
  let z1' := (sec_b2 sec * x - sec_a2 sec * y)%fl in
  (z0', z1', written ++ [y]).

Definition section_process (sec : iir_section_t) (data : list float)
  : iir_section_t * list float :=
  let '(z0, z1, data') :=
    fold_left (biquad_step sec) data (sec_z0 sec, sec_z1 sec, []) in
  (mk_section (sec_b0 sec) (sec_b1 sec) (sec_b2 sec)
              (sec_a1 sec) (sec_a2 sec) z0 z1, data').

Fixpoint iir_filter_process (f : iir_filter_t) (data : list float)
  : iir_filter_t * list float :=
  match f with
  | [] => ([], data)
  | sec :: rest =>
      let '(sec', data1) := section_process sec data in
      let '(rest', data2) := iir_filter_process rest data1 in
      (sec' :: rest', data2)
  end.

(** ** multipass_avg.c: processing *)

Record multipass_avg_t := mk_multipass {
  mp_n_passes : Z;
  mp_window_size : Z;
  mp_buffers : list (list float);
  mp_buf_len : list Z;
  mp_running_sum : list float
}.

Definition multipass_init (n_passes window_size : Z) : multipass_avg_t :=
  mk_multipass (multipass_init_passes n_passes)
               (multipass_init_window window_size)
               (repeat (repeat fzero (Z.to_nat MULTIPASS_MAX_WINDOW))
                       (Z.to_nat MULTIPASS_MAX_PASSES))
               (repeat 0 (Z.to_nat MULTIPASS_MAX_PASSES))
               (repeat fzero (Z.to_nat MULTIPASS_MAX_PASSES)).

(** One iteration of the sample loop of a pass: [data] is updated in place,
    so [data[oldest_idx]] and [data[0]] read what earlier iterations stored. *)
Definition pass_sample (w : Z) (inv_w : float) (buf : list float) (buf_n : Z)
  (st : list float * float) (i : Z) : list float * float :=
  let '(data, sum) := st in
  let sum := (sum + fget data i)%fl in
  let oldest_idx := i - w in
  let sum :=
    if 0 <=? oldest_idx then (sum - fget data oldest_idx)%fl
    else
      let buf_idx := buf_n + oldest_idx in
      if (0 <=? buf_idx) && (buf_idx <? buf_n)
      then (sum - fget buf buf_idx)%fl
      else (sum - fget data 0)%fl in
  (aset data i (sum * inv_w)%fl, sum).

(** The buffer of a pass after the chunk: what [buf] and [buf_len[pass]]
    hold when the pass ends. *)
Definition pass_save (w : Z) (buf : list float) (buf_n : Z)
  (data : list float) (n : Z) : list float * Z :=
  let save_n := w - 1 in
  let save_n := if n <? save_n then n else save_n in
  let save_n :=
    if MULTIPASS_MAX_WINDOW <? save_n then MULTIPASS_MAX_WINDOW else save_n in
  if w - 1 <=? n then
    (fold_left (fun b j => aset b j (fget data (n - save_n + j)))
               (zrange save_n) buf,
     save_n)
  else
    let keep := buf_n - n in
    let keep := if keep <? 0 then 0 else keep in
    let buf1 :=
      if 0 <? keep
      then fold_left (fun b j => aset b j (fget b (buf_n - keep + j)))
                     (zrange keep) buf
      else buf in
    let buf2 :=
      fold_left (fun b j =>
                   if keep + j <? MULTIPASS_MAX_WINDOW
                   then aset b (keep + j) (fget data j) else b)
                (zrange n) buf1 in
    let len := keep + n in
    (buf2, if save_n <? len then save_n else len).

(** The body of the [pass] loop. *)
Definition multipass_pass (w : Z) (inv_w : float)
  (st : multipass_avg_t * list float) (pass : Z)
  : multipass_avg_t * list float :=
  let '(mp, data) := st in
  let n := Z.of_nat (List.length data) in
  let buf := aget [] (mp_buffers mp) pass in
  let buf_n := aget 0 (mp_buf_len mp) pass in
  let sum := fget (mp_running_sum mp) pass in
  let sum :=
    if (buf_n =? 0) && (0 <? n)
    then (fget data 0 * f_of_int (w - 1))%fl else sum in
  let '(data', sum') :=
    fold_left (pass_sample w inv_w buf buf_n) (zrange n) (data, sum) in
  let '(buf', len') := pass_save w buf buf_n data' n in
  (mk_multipass (mp_n_passes mp) (mp_window_size mp)
                (aset (mp_buffers mp) pass buf')
                (aset (mp_buf_len mp) pass len')
                (aset (mp_running_sum mp) pass sum'),
   data').

Definition multipass_process (mp : multipass_avg_t) (data : list float)
  : multipass_avg_t * list float :=
  let w := mp_window_size mp in
  let inv_w := (flit 1 1 / f_of_int w)%fl in
  fold_left (multipass_pass w inv_w) (zrange (mp_n_passes mp)) (mp, data).

(** ** envelope.c *)

Inductive envelope_mode_t := ENV_MODE_IIR | ENV_MODE_MULTIPASS.

Record envelope_t := mk_envelope {
  env_lpf : iir_filter_t;
  env_mpf : multipass_avg_t;
  env_mode : envelope_mode_t;
  env_peak_level : float;
  env_threshold_on : float;
  env_threshold_off : float;
  env_prev_state : Z
}.

(** The Butterworth designer of [iir_filter.c] ([iir_design_lowpass],
    [iir_design_bandpass]) only fixes the coefficients of a cascade; its
    result enters the decoder as a given cascade. *)
Record iir_designer := mk_designer {
  iir_design_lowpass : Z -> float -> float -> iir_filter_t;
  iir_design_bandpass : Z -> float -> float -> float -> iir_filter_t
}.

(** The all-zero [multipass_avg_t] that [memset] leaves. *)
Definition multipass_zero : multipass_avg_t :=
  mk_multipass 0 0
    (repeat (repeat fzero (Z.to_nat MULTIPASS_MAX_WINDOW))
            (Z.to_nat MULTIPASS_MAX_PASSES))
    (repeat 0 (Z.to_nat MULTIPASS_MAX_PASSES))
    (repeat fzero (Z.to_nat MULTIPASS_MAX_PASSES)).

Definition envelope_init (des : iir_designer) (sample_rate : Z)
  (window_s thresh_on thresh_off : float) (mode : envelope_mode_t)
  (mp_passes : Z) : envelope_t :=
  match mode with
  | ENV_MODE_MULTIPASS =>
      let cutoff := (flit 1 1 / (flit 2 1 * window_s))%fl in
      let window_f :=
        (f_of_int sample_rate / (cutoff * M_PI * sqrtf (f_of_int mp_passes)))%fl in
      let window := envelope_window (f_to_int window_f) in
      mk_envelope [] (multipass_init mp_passes window) mode
                  fzero thresh_on thresh_off 0
  | ENV_MODE_IIR =>
      let cutoff_hz := (flit 1 1 / (flit 2 1 * window_s))%fl in
      mk_envelope (iir_design_lowpass des 2 cutoff_hz (f_of_int sample_rate))
                  multipass_zero mode fzero thresh_on thresh_off 0
  end.

(** Step 3 of [envelope_process]: the maximum of the smoothed chunk. *)
Definition chunk_peak_of (tmp : list float) : float :=
  fold_left (fun peak v => if (v >? peak)%fl then v else peak) tmp fzero.

(** Step 4: one sample of the hysteresis loop; the state and the decisions
    stored in [on_off] so far. *)
Definition hysteresis_step (on_thr off_thr : float)
  (st : Z * list Z) (v : float) : Z * list Z :=
  let '(state, on_off) := st in
  let state' :=
    if state =? 0
    then (if (v >=? on_thr)%fl then 1 else 0)
    else (if (v >=? off_thr)%fl then 1 else 0) in
  (state', on_off ++ [state']).

(** The body of the [while] loop of [envelope_process] on one sub-chunk. *)
Definition envelope_chunk (st : envelope_t * list Z) (audio : list float)
  : envelope_t * list Z :=
  let '(env, on_off) := st in
  let tmp := map fabsf audio in
  let '(lpf', mpf', tmp) :=
    match env_mode env with
    | ENV_MODE_MULTIPASS =>
        let '(mpf', tmp') := multipass_process (env_mpf env) tmp in
        (env_lpf env, mpf', tmp')
    | ENV_MODE_IIR =>
        let '(lpf', tmp') := iir_filter_process (env_lpf env) tmp in
        (lpf', env_mpf env, tmp')
    end in
  let chunk_peak := chunk_peak_of tmp in
  let peak_level :=
    if (chunk_peak >? env_peak_level env)%fl then chunk_peak
    else (flit 995 1000 * env_peak_level env + flit 5 1000 * chunk_peak)%fl in
  let on_thr := (peak_level * env_threshold_on env)%fl in
  let off_thr := (peak_level * env_threshold_off env)%fl in
  let on_thr := if (on_thr <? flit 1 10000000000)%fl
                then flit 1 10000000000 else on_thr in
  let off_thr := if (off_thr <? flit 1 10000000000)%fl
                 then flit 1 10000000000 else off_thr in
  let '(state, on_off') :=
    fold_left (hysteresis_step on_thr off_thr) tmp
              (env_prev_state env, on_off) in
  (mk_envelope lpf' mpf' (env_mode env) peak_level
               (env_threshold_on env) (env_threshold_off env) state,
   on_off').

Definition envelope_process (env : envelope_t) (audio : list float)
  : envelope_t * list Z :=
  fold_left envelope_chunk (blocks 4096 audio) (env, []).

(** ** kalman.c *)

Definition KALMAN_STATES : Z := 5.
Definition K_DIT : Z := 0.
Definition K_DAH : Z := 1.
Definition K_ELEM_SPACE : Z := 2.
Definition K_CHAR_SPACE : Z := 3.
Definition K_WORD_SPACE : Z := 4.

Record kalman_t := mk_kalman {
  k_x : list float;
  k_P : list (list float);
  k_Q : list float;
  k_R : float;
  k_innovation_gate : float;
  k_sample_rate : Z;
  k_min_wpm : float;
  k_max_wpm : float
}.

(** [P[i][j]]. *)
Definition mget (P : list (list float)) (i j : Z) : float :=
  fget (aget [] P i) j.

(** The indices of a [for (i = 0; i < KALMAN_STATES; i++)] loop. *)
Definition states : list Z := zrange KALMAN_STATES.

Definition set_x (k : kalman_t) (x : list float) : kalman_t :=
  mk_kalman x (k_P k) (k_Q k) (k_R k) (k_innovation_gate k)
            (k_sample_rate k) (k_min_wpm k) (k_max_wpm k).

Definition set_P (k : kalman_t) (P : list (list float)) : kalman_t :=
  mk_kalman (k_x k) P (k_Q k) (k_R k) (k_innovation_gate k)
            (k_sample_rate k) (k_min_wpm k) (k_max_wpm k).

(** The all-zero [kalman_t] that [memset] leaves. *)
Definition kalman_zero : kalman_t :=
  mk_kalman (map (fun _ => fzero) states)
            (map (fun _ => map (fun _ => fzero) states) states)
            (map (fun _ => fzero) states)
            fzero fzero 0 fzero fzero.

Definition kalman_reset (k : kalman_t) (initial_wpm : float) : kalman_t :=
  let dit_s := (flit 12 10 / initial_wpm)%fl in
  let dit_samples := (dit_s * f_of_int (k_sample_rate k))%fl in
  let x := [ logf dit_samples;
             logf (dit_samples * flit 3 1)%fl;
             logf dit_samples;
             logf (dit_samples * flit 3 1)%fl;
             logf (dit_samples * flit 7 1)%fl ] in
  let P := map (fun i => map (fun j => if i =? j then flit 1 10 else fzero)
                             states) states in
  set_P (set_x k x) P.

Definition kalman_init (sample_rate : Z) (initial_wpm min_wpm max_wpm : float)
  : kalman_t :=
  let k := mk_kalman (k_x kalman_zero) (k_P kalman_zero)
                     (map (fun _ => flit 1 100) states)
                     (flit 1 10) M_LN2 sample_rate min_wpm max_wpm in
  kalman_reset k initial_wpm.

(** [if (x < lo) x = lo; if (x > hi) x = hi;] *)
Definition clamp (lo hi x : float) : float :=
  let x := if (x <? lo)%fl then lo else x in
  if (x >? hi)%fl then hi else x.

Definition apply_bounds (k : kalman_t) : kalman_t :=
  let min_dit := (flit 12 10 / k_max_wpm k * f_of_int (k_sample_rate k))%fl in
  let max_dit := (flit 12 10 / k_min_wpm k * f_of_int (k_sample_rate k))%fl in
  let log_min := logf min_dit in
  let log_max := logf max_dit in
  let x := k_x k in
  let x := aset x K_DIT (clamp log_min log_max (fget x K_DIT)) in
  let ld := fget x K_DIT in
  let dah_lo := (ld + logf (flit 2 1))%fl in
  let dah_hi := (ld + logf (flit 4 1))%fl in
  let x := aset x K_DAH (clamp dah_lo dah_hi (fget x K_DAH)) in
  let es_lo := fsub_M_LN2 ld in
  let es_hi := fadd_M_LN2 ld in
  let x := aset x K_ELEM_SPACE (clamp es_lo es_hi (fget x K_ELEM_SPACE)) in
  let cs_lo := (ld + logf (flit 2 1))%fl in
  let cs_hi := (ld + logf (flit 4 1))%fl in
  let x := aset x K_CHAR_SPACE (clamp cs_lo cs_hi (fget x K_CHAR_SPACE)) in
  let ws_lo := (ld + logf (flit 5 1))%fl in
  let ws_hi := (ld + logf (flit 9 1))%fl in
  let x := aset x K_WORD_SPACE (clamp ws_lo ws_hi (fget x K_WORD_SPACE)) in
  set_x k x.

(** The Kalman gain vector [K[i] = P[i][idx] / S]. *)
Definition kalman_gain (P : list (list float)) (idx : Z) (S : float)
  : list float :=
  map (fun i => (mget P i idx / S)%fl) states.

(** The Joseph-form entry [P_new[i][j]]. *)
Definition joseph_entry (P : list (list float)) (K : list float) (R : float)
  (idx i j : Z) : float :=
  let ikh_P := (mget P i j - fget K i * mget P idx j)%fl in
  let p := (ikh_P - mget P i idx * fget K j
            + fget K i * mget P idx idx * fget K j)%fl in
  (p + fget K i * R * fget K j)%fl.

(** [S = P[idx][idx] + R], floored at [1e-10f]. *)
Definition innovation_variance (k : kalman_t) (idx : Z) : float :=
  let S := (mget (k_P k) idx idx + k_R k)%fl in
  if (S <? flit 1 10000000000)%fl then flit 1 10000000000 else S.

(** The state-update loop: [x[i] += K[i] * innovation]. *)
Definition updated_x (k : kalman_t) (K : list float) (innovation : float)
  : list float :=
  map (fun i => (fget (k_x k) i + fget K i * innovation)%fl) states.

(** The covariance loops: [P_new] in Joseph form, copied back into [P]
    with the process noise [Q[i]] added on the diagonal. *)
Definition updated_P (k : kalman_t) (K : list float) (idx : Z)
  : list (list float) :=
  let P_new :=
    map (fun i => map (fun j => joseph_entry (k_P k) K (k_R k) idx i j)
                      states) states in
  map (fun i => map (fun j => if i =? j
                              then (mget P_new i j + fget (k_Q k) i)%fl
                              else mget P_new i j) states) states.

(** [kalman_update]: the return value (1 accepted, 0 rejected) and the
    filter afterwards. *)
Definition kalman_update (k : kalman_t) (state_idx : Z)
  (duration_samples : float) : Z * kalman_t :=
  if (state_idx <? 0) || (KALMAN_STATES <=? state_idx) then (0, k) else
  if (duration_samples <=? fzero)%fl then (0, k) else
  let z := logf duration_samples in
  let innovation := (z - fget (k_x k) state_idx)%fl in
  if (fabsf innovation >? k_innovation_gate k)%fl then (0, k) else
  let idx := state_idx in
  let S := innovation_variance k idx in
  let K := kalman_gain (k_P k) idx S in
  let x := updated_x k K innovation in
  let P := updated_P k K idx in
  (1, apply_bounds (set_P (set_x k x) P)).

Definition kalman_get_duration (k : kalman_t) (state_idx : Z) : float :=
  if (state_idx <? 0) || (KALMAN_STATES <=? state_idx) then fzero
  else expf (fget (k_x k) state_idx).

Definition kalman_get_threshold (k : kalman_t) (state_a state_b : Z) : float :=
  expf ((fget (k_x k) state_a + fget (k_x k) state_b) / flit 2 1)%fl.

Definition kalman_get_wpm (k : kalman_t) : float :=
  let dit_samples := expf (fget (k_x k) K_DIT) in
  let dit_s := (dit_samples / f_of_int (k_sample_rate k))%fl in
  if (dit_s <=? fzero)%fl then flit 20 1 else (flit 12 10 / dit_s)%fl.

(** ** timing.c *)

Definition TIMING_KALMAN_WARMUP : Z := 8.

Inductive timing_mode_t := TIMING_MODE_EMA | TIMING_MODE_KALMAN.

(** Element codes: [0], ['.'], ['-'], ['C'], ['W']. *)
Definition ELEM_NONE : Z := 0.
Definition ELEM_DIT : Z := 46.
Definition ELEM_DAH : Z := 45.
Definition ELEM_CHAR : Z := 67.
Definition ELEM_WORD : Z := 87.

Record timing_t := mk_timing {
  t_mode : timing_mode_t;
  t_sample_rate : Z;
  t_kalman : kalman_t;
  t_avg_dit : float;
  t_ema_alpha : float;
  t_dit_dah_threshold : float;
  t_char_pause_ratio : float;
  t_word_pause_ratio : float;
  t_min_element_ratio : float;
  t_min_element_abs : Z;
  t_on_dur : Z;
  t_off_dur : Z;
  t_prev_on : Z;
  t_seen_signal : Z;
  t_element_count : Z
}.

Definition set_kalman (t : timing_t) (k : kalman_t) : timing_t :=
  mk_timing (t_mode t) (t_sample_rate t) k (t_avg_dit t) (t_ema_alpha t)
    (t_dit_dah_threshold t) (t_char_pause_ratio t) (t_word_pause_ratio t)
    (t_min_element_ratio t) (t_min_element_abs t)
    (t_on_dur t) (t_off_dur t) (t_prev_on t) (t_seen_signal t)
    (t_element_count t).

Definition set_avg_dit (t : timing_t) (v : float) : timing_t :=
  mk_timing (t_mode t) (t_sample_rate t) (t_kalman t) v (t_ema_alpha t)
    (t_dit_dah_threshold t) (t_char_pause_ratio t) (t_word_pause_ratio t)
    (t_min_element_ratio t) (t_min_element_abs t)
    (t_on_dur t) (t_off_dur t) (t_prev_on t) (t_seen_signal t)
    (t_element_count t).

(** The five running fields [on_dur], [off_dur], [prev_on], [seen_signal],
    [element_count]. *)
Definition set_running (t : timing_t)
  (on_dur off_dur prev_on seen_signal element_count : Z) : timing_t :=
  mk_timing (t_mode t) (t_sample_rate t) (t_kalman t) (t_avg_dit t)
    (t_ema_alpha t) (t_dit_dah_threshold t) (t_char_pause_ratio t)
    (t_word_pause_ratio t) (t_min_element_ratio t) (t_min_element_abs t)
    on_dur off_dur prev_on seen_signal element_count.

Definition set_on_dur (t : timing_t) (v : Z) : timing_t :=
  set_running t v (t_off_dur t) (t_prev_on t) (t_seen_signal t)
              (t_element_count t).

Definition set_off_dur (t : timing_t) (v : Z) : timing_t :=
  set_running t (t_on_dur t) v (t_prev_on t) (t_seen_signal t)
              (t_element_count t).

Definition set_prev_on (t : timing_t) (v : Z) : timing_t :=
  set_running t (t_on_dur t) (t_off_dur t) v (t_seen_signal t)
              (t_element_count t).

Definition set_seen_signal (t : timing_t) (v : Z) : timing_t :=
  set_running t (t_on_dur t) (t_off_dur t) (t_prev_on t) v
              (t_element_count t).

Definition set_element_count (t : timing_t) (v : Z) : timing_t :=
  set_running t (t_on_dur t) (t_off_dur t) (t_prev_on t) (t_seen_signal t) v.

Definition timing_init (mode : timing_mode_t) (sample_rate : Z)
  (initial_wpm min_wpm max_wpm min_element_ratio min_element_s : float)
  : timing_t :=
  let dit_s := (flit 12 10 / initial_wpm)%fl in
  mk_timing mode sample_rate
    (match mode with
     | TIMING_MODE_KALMAN =>
         kalman_init sample_rate initial_wpm min_wpm max_wpm
     | TIMING_MODE_EMA => kalman_zero
     end)
    (dit_s * f_of_int sample_rate)%fl
    (flit 1 10) (flit 2 1) (flit 25 10) (flit 6 1)
    min_element_ratio
    (f_to_int (min_element_s * f_of_int sample_rate)%fl)
    0 0 0 0 0.

(** A kalman update whose return value the caller drops. *)
Definition timing_kalman_update (t : timing_t) (idx : Z) (dur : Z) : timing_t :=
  set_kalman t (snd (kalman_update (t_kalman t) idx (f_of_int dur))).

Definition classify_signal_kalman (t : timing_t) (dur : Z) : Z * timing_t :=
  let avg_dit := kalman_get_duration (t_kalman t) K_DIT in
  let min_dur := f_to_int (avg_dit * t_min_element_ratio t)%fl in
  let min_dur :=
    if min_dur <? t_min_element_abs t then t_min_element_abs t else min_dur in
  if dur <? min_dur then (ELEM_NONE, t) else
  let t := set_element_count t (t_element_count t + 1) in
  let warm := TIMING_KALMAN_WARMUP <? t_element_count t in
  let thresh := kalman_get_threshold (t_kalman t) K_DIT K_DAH in
  if (f_of_int dur <? thresh)%fl
  then (ELEM_DIT, if warm then timing_kalman_update t K_DIT dur else t)
  else (ELEM_DAH, if warm then timing_kalman_update t K_DAH dur else t).

Definition classify_signal_ema (t : timing_t) (dur : Z) : Z * timing_t :=
  let min_dur := f_to_int (t_avg_dit t * t_min_element_ratio t)%fl in
  let min_dur :=
    if min_dur <? t_min_element_abs t then t_min_element_abs t else min_dur in
  if dur <? min_dur then (ELEM_NONE, t) else
  let thresh := (t_avg_dit t * t_dit_dah_threshold t)%fl in
  if (f_of_int dur <? thresh)%fl
  then (ELEM_DIT,
        set_avg_dit t ((flit 1 1 - t_ema_alpha t) * t_avg_dit t
                       + t_ema_alpha t * f_of_int dur)%fl)
  else (ELEM_DAH, t).

Definition classify_gap_kalman (t : timing_t) (dur : Z) : Z * timing_t :=
  let warm := TIMING_KALMAN_WARMUP <? t_element_count t in
  let word_thresh :=
    kalman_get_threshold (t_kalman t) K_CHAR_SPACE K_WORD_SPACE in
  let char_thresh :=
    kalman_get_threshold (t_kalman t) K_ELEM_SPACE K_CHAR_SPACE in
  if (f_of_int dur >=? word_thresh)%fl
  then (ELEM_WORD, if warm then timing_kalman_update t K_WORD_SPACE dur else t)
  else if (f_of_int dur >=? char_thresh)%fl
  then (ELEM_CHAR, if warm then timing_kalman_update t K_CHAR_SPACE dur else t)
  else (ELEM_NONE, if warm then timing_kalman_update t K_ELEM_SPACE dur else t).

Definition classify_gap_ema (t : timing_t) (dur : Z) : Z * timing_t :=
  let word_thresh := (t_avg_dit t * t_word_pause_ratio t)%fl in
  let char_thresh := (t_avg_dit t * t_char_pause_ratio t)%fl in
  if (f_of_int dur >=? word_thresh)%fl then (ELEM_WORD, t)
  else if (f_of_int dur >=? char_thresh)%fl then (ELEM_CHAR, t)
  else (ELEM_NONE, t).

Definition classify_signal (t : timing_t) (dur : Z) : Z * timing_t :=
  match t_mode t with
  | TIMING_MODE_KALMAN => classify_signal_kalman t dur
  | TIMING_MODE_EMA => classify_signal_ema t dur
  end.

Definition classify_gap (t : timing_t) (dur : Z) : Z * timing_t :=
  match t_mode t with
  | TIMING_MODE_KALMAN => classify_gap_kalman t dur
  | TIMING_MODE_EMA => classify_gap_ema t dur
  end.

(** The tests of the two [if] statements of [timing_process_sample], each
    on the state it is evaluated in. *)
Definition mark_edge (t : timing_t) (on : Z) : bool :=
  negb (t_prev_on t =? 0) && (on =? 0).

Definition gap_edge (t : timing_t) (on : Z) : bool :=
  (t_prev_on t =? 0) && negb (on =? 0).

(** [if (on) t->on_dur++; else t->off_dur++;] *)
Definition count_sample (t : timing_t) (on : Z) : timing_t :=
  if on =? 0 then set_off_dur t (t_off_dur t + 1)
  else set_on_dur t (t_on_dur t + 1).

(** [INT_MAX] where [int] has 32 bits. *)
Definition INT_MAX : Z := 2147483647.

(** [on_dur], [off_dur] and [element_count] are C [int]s that the code
    increments once per sample at most; they are [Z]s here.  A state whose
    counters fit [n] leaves room for [n] more samples: none of the three
    passes [INT_MAX] within [n] increments, so that the model is the C
    code over such a run. *)
Definition counters_fit (t : timing_t) (n : Z) : Prop :=
  (0 <= t_on_dur t /\ t_on_dur t + n <= INT_MAX)
  /\ (0 <= t_off_dur t /\ t_off_dur t + n <= INT_MAX)
  /\ (0 <= t_element_count t /\ t_element_count t + n <= INT_MAX).

(** The ON -> OFF block: [result] and the state after it. *)
Definition mark_block (result : Z) (t : timing_t) (on : Z) : Z * timing_t :=
  if mark_edge t on then
    let '(result, t) := classify_signal t (t_on_dur t) in
    (result, set_seen_signal (set_on_dur t 0) 1)
  else (result, t).

(** The OFF -> ON block. *)
Definition gap_block (result : Z) (t : timing_t) (on : Z) : Z * timing_t :=
  if gap_edge t on then
    let '(result, t) :=
      if t_seen_signal t =? 0 then (result, t) else
      let '(gap_result, t) := classify_gap t (t_off_dur t) in
      (if gap_result =? ELEM_NONE then result else gap_result, t) in
    (result, set_off_dur t 0)
  else (result, t).

Definition timing_process_sample (t : timing_t) (on : Z) : Z * timing_t :=
  let result := ELEM_NONE in
  let t := count_sample t on in
  let '(result, t) := mark_block result t on in
  let '(result, t) := gap_block result t on in
  (result, set_prev_on t on).

Definition timing_finalize (t : timing_t) : Z * timing_t :=
  if (0 <? t_on_dur t) && negb (t_seen_signal t =? 0) then
    let '(result, t) := classify_signal t (t_on_dur t) in
    (result, set_on_dur t 0)
  else (ELEM_NONE, t).

(** ** output_filter.c *)

Definition OUTPUT_FILTER_MAX_WORD : Z := 64.

(** [word_buf] is kept as the list of its first [word_len] bytes, the only
    ones the code reads; [word_len] is the length of that list. *)
Record output_filter_t := mk_filter {
  word_buf : list ascii;
  warmed_up : Z;
  min_word_length : Z
}.

Definition word_len (f : output_filter_t) : Z :=
  Z.of_nat (List.length (word_buf f)).

Definition is_noise_char (c : ascii) : bool :=
  Ascii.eqb c "E" || Ascii.eqb c "T" || Ascii.eqb c "I" ||
  Ascii.eqb c "A" || Ascii.eqb c "N" || Ascii.eqb c "M" || Ascii.eqb c "?".

Definition output_filter_init (min_word_length : Z) : output_filter_t :=
  mk_filter [] 0 min_word_length.

(** [n = word_len; if (n > out_len) n = out_len; memcpy(out, word_buf, n)].
    For [out_len < 0] C's [memcpy] gets a negative length, which is
    undefined; the model stands for the C code where [0 <= out_len]. *)
Definition copy_word (f : output_filter_t) (out_len : Z) : Z * list store :=
  let n := word_len f in
  let n := if out_len <? n then out_len else n in
  (n, memcpy_stores 0 (firstn (Z.to_nat n) (word_buf f))).

(** [emit_word]: return value, stores into [out], filter afterwards. *)
Definition emit_word (f : output_filter_t) (out_len : Z)
  : Z * list store * output_filter_t :=
  if word_len f =? 0 then (0, [], f) else
  if negb (warmed_up f =? 0) then (copy_word f out_len, f) else
  if (word_len f <? min_word_length f) && forallb is_noise_char (word_buf f)
  then (0, [], f)
  else (copy_word f out_len, mk_filter (word_buf f) 1 (min_word_length f)).

(** The [for] loop of [output_filter_feed] from index [i] on: [text] is
    what is left of the input, [written] and the stores are relative to
    [out]. *)
Fixpoint feed_loop (f : output_filter_t) (text : list ascii) (out_len : Z)
  (written : Z) (ss : list store) : Z * list store * output_filter_t :=
  match text with
  | [] => (written, ss, f)
  | c :: rest =>
      if written <? out_len then
        if Ascii.eqb c " " then
          let '(n, ws, f) := emit_word f (out_len - written) in
          let ss := ss ++ shift_stores written ws in
          let '(written, ss) :=
            if 0 <? n then
              let written := written + n in
              if written <? out_len
              then (written + 1, ss ++ [(written, " "%char)])
              else (written, ss)
            else (written, ss) in
          feed_loop (mk_filter [] (warmed_up f) (min_word_length f))
                    rest out_len written ss
        else
          let f :=
            if word_len f <? OUTPUT_FILTER_MAX_WORD - 1
            then mk_filter (word_buf f ++ [c]) (warmed_up f)
                           (min_word_length f)
            else f in
          feed_loop f rest out_len written ss
      else (written, ss, f)
  end.

Definition output_filter_feed (f : output_filter_t) (text : list ascii)
  (out_len : Z) : Z * list store * output_filter_t :=
  feed_loop f text out_len 0 [].

Definition output_filter_flush (f : output_filter_t) (out_len : Z)
  : Z * list store * output_filter_t :=
  let '(n, ss, f) := emit_word f out_len in
  (n, ss, mk_filter [] (warmed_up f) (min_word_length f)).

Definition output_filter_reset (f : output_filter_t) : output_filter_t :=
  mk_filter [] 0 (min_word_length f).

(** The calls a client can make on an output filter. *)
Inductive filter_call :=
| Feed (text : list ascii) (out_len : Z)
| Flush (out_len : Z)
| Reset.

Definition filter_call_run (f : output_filter_t) (c : filter_call)
  : output_filter_t :=
  match c with
  | Feed text out_len => snd (output_filter_feed f text out_len)
  | Flush out_len => snd (output_filter_flush f out_len)
  | Reset => output_filter_reset f
  end.

Definition is_reset (c : filter_call) : bool :=
  match c with Reset => true | _ => false end.

(** A call that names a buffer: [out_len] is not negative.  [emit_word]
    hands [out_len] to [memcpy] unchecked, so the model is the C code on
    such calls only ([copy_word] answers a negative [out_len] with a
    negative count where C's [memcpy] is undefined). *)
Definition filter_call_fits (c : filter_call) : Prop :=
  match c with
  | Feed _ out_len => 0 <= out_len
  | Flush out_len => 0 <= out_len
  | Reset => True
  end.

(** ** cw_decoder.c *)

Definition MAX_PATTERN : Z := 16.

Inductive cw_timing_mode_t := CW_TIMING_EMA | CW_TIMING_KALMAN.
Inductive cw_envelope_mode_t := CW_ENVELOPE_IIR | CW_ENVELOPE_MULTIPASS.

Record cw_config_t := mk_config {
  sample_rate : Z;
  center_freq : float;
  bandwidth : float;
  threshold_on : float;
  threshold_off : float;
  timing_mode : cw_timing_mode_t;
  envelope_mode : cw_envelope_mode_t;
  initial_wpm : float;
  min_wpm : float;
  max_wpm : float;
  envelope_window_s : float;
  min_element_ratio : float;
  min_element_s : float;
  use_hmm : Z;
  cfg_min_word_length : Z;
  multipass_passes : Z
}.

Definition cw_config_init : cw_config_t :=
  mk_config 48000 (flit 700 1) (flit 100 1) (flit 5 10) (flit 4 10)
            CW_TIMING_KALMAN CW_ENVELOPE_MULTIPASS
            (flit 20 1) (flit 5 1) (flit 60 1)
            (flit 5 1000) (flit 3 10) (flit 10 1000) 0 2 3.

(** [pattern] is kept as the string of its first [pattern_len] bytes;
    [pattern_len] is its length. *)
Record cw_decoder_t := mk_decoder {
  cfg : cw_config_t;
  bandpass : iir_filter_t;
  use_bandpass : Z;
  envelope : envelope_t;
  timing : timing_t;
  dec_pattern : string;
  output : output_filter_t
}.

Definition pattern_len (dec : cw_decoder_t) : Z :=
  Z.of_nat (String.length (dec_pattern dec)).

Definition set_timing (dec : cw_decoder_t) (t : timing_t) : cw_decoder_t :=
  mk_decoder (cfg dec) (bandpass dec) (use_bandpass dec) (envelope dec)
             t (dec_pattern dec) (output dec).

Definition set_pattern (dec : cw_decoder_t) (p : string) : cw_decoder_t :=
  mk_decoder (cfg dec) (bandpass dec) (use_bandpass dec) (envelope dec)
             (timing dec) p (output dec).

Definition set_output (dec : cw_decoder_t) (f : output_filter_t)
  : cw_decoder_t :=
  mk_decoder (cfg dec) (bandpass dec) (use_bandpass dec) (envelope dec)
             (timing dec) (dec_pattern dec) f.

Definition set_front (dec : cw_decoder_t) (bp : iir_filter_t)
  (env : envelope_t) : cw_decoder_t :=
  mk_decoder (cfg dec) bp (use_bandpass dec) env
             (timing dec) (dec_pattern dec) (output dec).

Definition cw_decoder_create (des : iir_designer) (c : cw_config_t)
  : cw_decoder_t :=
  let '(bp, use_bp) :=
    if (bandwidth c >? fzero)%fl then
      let low := (center_freq c - bandwidth c / flit 2 1)%fl in
      let high := (center_freq c + bandwidth c / flit 2 1)%fl in
      let low := if (low <? flit 1 1)%fl then flit 1 1 else low in
      let nyquist := (f_of_int (sample_rate c) / flit 2 1)%fl in
      let high := if (high >=? nyquist)%fl
                  then (nyquist - flit 1 1)%fl else high in
      if (low <? high)%fl
      then (iir_design_bandpass des 2 low high (f_of_int (sample_rate c)), 1)
      else ([], 0)
    else ([], 0) in
  let emode := match envelope_mode c with
               | CW_ENVELOPE_MULTIPASS => ENV_MODE_MULTIPASS
               | CW_ENVELOPE_IIR => ENV_MODE_IIR
               end in
  let tmode := match timing_mode c with
               | CW_TIMING_KALMAN => TIMING_MODE_KALMAN
               | CW_TIMING_EMA => TIMING_MODE_EMA
               end in
  mk_decoder c bp use_bp
    (envelope_init des (sample_rate c) (envelope_window_s c)
                   (threshold_on c) (threshold_off c) emode
                   (multipass_passes c))
    (timing_init tmode (sample_rate c) (initial_wpm c) (min_wpm c)
                 (max_wpm c) (min_element_ratio c) (min_element_s c))
    EmptyString
    (output_filter_init (cfg_min_word_length c)).

(** [(char)elem]. *)
Definition char_of_elem (elem : Z) : ascii := ascii_of_nat (Z.to_nat elem).

Definition pattern_feed (dec : cw_decoder_t) (elem : Z) (out_len : Z)
  : Z * list store * cw_decoder_t :=
  if (elem =? ELEM_DIT) || (elem =? ELEM_DAH) then
    (0, [],
     if pattern_len dec <? MAX_PATTERN - 1
     then set_pattern dec
            (dec_pattern dec ++ String (char_of_elem elem) EmptyString)
     else dec)
  else
    let written := 0 in
    if (elem =? ELEM_CHAR) || (elem =? ELEM_WORD) then
      let '(written, ss, dec) :=
        if 0 <? pattern_len dec then
          let '(n, ss) :=
            morse_lookup_merged (dec_pattern dec) (out_len - written) in
          (written + n, shift_stores written ss, set_pattern dec EmptyString)
        else (written, [], dec) in
      if (elem =? ELEM_WORD) && (written <? out_len)
      then (written + 1, ss ++ [(written, " "%char)], dec)
      else (written, ss, dec)
    else (written, [], dec).

Definition pattern_flush (dec : cw_decoder_t) (out_len : Z)
  : Z * list store * cw_decoder_t :=
  if pattern_len dec <=? 0 then (0, [], dec) else
  let '(n, ss) := morse_lookup_merged (dec_pattern dec) out_len in
  (n, ss, set_pattern dec EmptyString).

(** The first [n] bytes of a local buffer after the stores [ss]; a slot
    never stored to reads as NUL. *)
Definition buffer_read (ss : list store) (n : Z) : list ascii :=
  map (fun i => match buffer_at ss i with Some c => c | None => zero end)
      (zrange n).

(** [sizeof(pat_out)]. *)
Definition PAT_OUT_SIZE : Z := 4.

(** The body shared by [cw_decoder_process] and [cw_decoder_finalize] once
    an element or a flushed pattern produced [pat_n] bytes in [pat_out]:
    feed them to the output filter at [out + written]. *)
Definition feed_output (dec : cw_decoder_t) (pat_n : Z) (pat_ss : list store)
  (out_len written : Z) (ss : list store) : Z * list store * cw_decoder_t :=
  if 0 <? pat_n then
    let '(filt_n, fss, f) :=
      output_filter_feed (output dec) (buffer_read pat_ss pat_n)
                         (out_len - written) in
    (written + filt_n, ss ++ shift_stores written fss, set_output dec f)
  else (written, ss, dec).

(** The [for] loop of step 3-4 over the on/off decisions of one chunk. *)
Fixpoint sample_loop (dec : cw_decoder_t) (on_off : list Z) (out_len : Z)
  (total_written : Z) (ss : list store) : Z * list store * cw_decoder_t :=
  match on_off with
  | [] => (total_written, ss, dec)
  | on :: rest =>
      if total_written <? out_len then
        let '(elem, t) := timing_process_sample (timing dec) on in
        let dec := set_timing dec t in
        let '(total_written, ss, dec) :=
          if elem =? ELEM_NONE then (total_written, ss, dec) else
          let '(pat_n, pat_ss, dec) := pattern_feed dec elem PAT_OUT_SIZE in
          feed_output dec pat_n pat_ss out_len total_written ss in
        sample_loop dec rest out_len total_written ss
      else (total_written, ss, dec)
  end.

(** Steps 1 and 2 on one chunk: bandpass, then envelope detection.  They
    read and update the bandpass filter and the envelope detector only. *)
Definition front_core (bp : iir_filter_t) (use_bp : Z) (env : envelope_t)
  (chunk : list float) : iir_filter_t * envelope_t * list Z :=
  let '(bp, work) :=
    if use_bp =? 0 then (bp, chunk) else iir_filter_process bp chunk in
  let '(env, on_off) := envelope_process env work in
  (bp, env, on_off).

Definition front_end (dec : cw_decoder_t) (chunk : list float)
  : cw_decoder_t * list Z :=
  let '(bp, env, on_off) :=
    front_core (bandpass dec) (use_bandpass dec) (envelope dec) chunk in
  (set_front dec bp env, on_off).

(** The [while] loop of [cw_decoder_process] over the 4096-sample chunks
    still to be taken from [audio]. *)
Fixpoint chunk_loop (dec : cw_decoder_t) (chunks : list (list float))
  (out_len : Z) (total_written : Z) (ss : list store)
  : Z * list store * cw_decoder_t :=
  match chunks with
  | [] => (total_written, ss, dec)
  | chunk :: rest =>
      if total_written <? out_len then
        let '(dec, on_off) := front_end dec chunk in
        let '(total_written, ss, dec) :=
          sample_loop dec on_off out_len total_written ss in
        chunk_loop dec rest out_len total_written ss
      else (total_written, ss, dec)
  end.

Definition cw_decoder_process (dec : cw_decoder_t) (audio : list float)
  (out_len : Z) : Z * list store * cw_decoder_t :=
  let n := Z.of_nat (List.length audio) in
  if (n <=? 0) || (out_len <=? 0) then (0, [], dec) else
  chunk_loop dec (blocks 4096 audio) out_len 0 [].

Definition cw_decoder_finalize (dec : cw_decoder_t) (out_len : Z)
  : Z * list store * cw_decoder_t :=
  let written := 0 in
  let '(elem, t) := timing_finalize (timing dec) in
  let dec := set_timing dec t in
  let '(written, ss, dec) :=
    if elem =? ELEM_NONE then (written, [], dec) else
    let '(pat_n, pat_ss, dec) := pattern_feed dec elem PAT_OUT_SIZE in
    feed_output dec pat_n pat_ss out_len written [] in
  let '(pat_n, pat_ss, dec) := pattern_flush dec PAT_OUT_SIZE in
  let '(written, ss, dec) :=
    feed_output dec pat_n pat_ss out_len written ss in
  let '(n, fss, f) :=
    output_filter_flush (output dec) (out_len - written) in
  (written + n, ss ++ shift_stores written fss, set_output dec f).

(** ** The decoder with no limit on its output

    What the output stages emit when no [out_len] cuts them short: the
    bytes, in order, and the state afterwards. *)

Definition emit_word_all (f : output_filter_t)
  : list ascii * output_filter_t :=
  if word_len f =? 0 then ([], f) else
  if negb (warmed_up f =? 0) then (word_buf f, f) else
  if (word_len f <? min_word_length f) && forallb is_noise_char (word_buf f)
  then ([], f)
  else (word_buf f, mk_filter (word_buf f) 1 (min_word_length f)).

Fixpoint feed_all (f : output_filter_t) (text : list ascii)
  : list ascii * output_filter_t :=
  match text with
  | [] => ([], f)
  | c :: rest =>
      if Ascii.eqb c " " then
        let '(w, f) := emit_word_all f in
        let '(more, f') :=
          feed_all (mk_filter [] (warmed_up f) (min_word_length f)) rest in
        ((match w with [] => [] | _ => w ++ [" "%char] end) ++ more, f')%list
      else
        feed_all
          (if word_len f <? OUTPUT_FILTER_MAX_WORD - 1
           then mk_filter (word_buf f ++ [c]) (warmed_up f)
                          (min_word_length f)
           else f)
          rest
  end.

Definition feed_output_all (dec : cw_decoder_t) (pat_n : Z)
  (pat_ss : list store) : list ascii * cw_decoder_t :=
  if 0 <? pat_n then
    let '(bytes, f) := feed_all (output dec) (buffer_read pat_ss pat_n) in
    (bytes, set_output dec f)
  else ([], dec).

Definition sample_all (dec : cw_decoder_t) (on : Z)
  : list ascii * cw_decoder_t :=
  let '(elem, t) := timing_process_sample (timing dec) on in
  let dec := set_timing dec t in
  if elem =? ELEM_NONE then ([], dec) else
  let '(pat_n, pat_ss, dec) := pattern_feed dec elem PAT_OUT_SIZE in
  feed_output_all dec pat_n pat_ss.

Fixpoint samples_all (dec : cw_decoder_t) (on_off : list Z)
  : list ascii * cw_decoder_t :=
  match on_off with
  | [] => ([], dec)
  | on :: rest =>
      let '(o1, dec) := sample_all dec on in
      let '(o2, dec) := samples_all dec rest in
      ((o1 ++ o2)%list, dec)
  end.

Fixpoint blocks_all (dec : cw_decoder_t) (bs : list (list float))
  : list ascii * cw_decoder_t :=
  match bs with
  | [] => ([], dec)
  | b :: rest =>
      let '(dec, on_off) := front_end dec b in
      let '(o1, dec) := samples_all dec on_off in
      let '(o2, dec) := blocks_all dec rest in
      ((o1 ++ o2)%list, dec)
  end.

Definition process_all (dec : cw_decoder_t) (audio : list float)
  : list ascii * cw_decoder_t :=
  blocks_all dec (blocks 4096 audio).

Definition finalize_all (dec : cw_decoder_t) : list ascii * cw_decoder_t :=
  let '(elem, t) := timing_finalize (timing dec) in
  let dec := set_timing dec t in
  let '(o1, dec) :=
    if elem =? ELEM_NONE then ([], dec) else
    let '(pat_n, pat_ss, dec) := pattern_feed dec elem PAT_OUT_SIZE in
    feed_output_all dec pat_n pat_ss in
  let '(pat_n, pat_ss, dec) := pattern_flush dec PAT_OUT_SIZE in
  let '(o2, dec) := feed_output_all dec pat_n pat_ss in
  let '(w, f) := emit_word_all (output dec) in
  ((o1 ++ o2 ++ w)%list,
   set_output dec (mk_filter [] (warmed_up f) (min_word_length f))).

(** ** A client streaming audio through one decoder

    The bytes a call leaves in the caller's buffer [out[0 .. written)]. *)
Definition call_output (r : Z * list store * cw_decoder_t) : list ascii :=
  let '(written, ss, _) := r in buffer_read ss written.

(** [cw_decoder_process] on each chunk in order, each with an output buffer
    of [out_len] bytes, then [cw_decoder_finalize]; the concatenation of
    what the calls wrote. *)
Fixpoint stream_chunks (dec : cw_decoder_t) (chunks : list (list float))
  (out_len : Z) : list ascii :=
  match chunks with
  | [] => call_output (cw_decoder_finalize dec out_len)
  | chunk :: rest =>
      let r := cw_decoder_process dec chunk out_len in
      (call_output r ++ stream_chunks (snd r) rest out_len)%list
  end.

(** The unbounded counterpart of [stream_chunks]. *)
Fixpoint stream_all (dec : cw_decoder_t) (chunks : list (list float))
  : list ascii :=
  match chunks with
  | [] => fst (finalize_all dec)
  | chunk :: rest =>
      (fst (process_all dec chunk)
       ++ stream_all (snd (process_all dec chunk)) rest)%list
  end.

(** What the output stages make of a whole on/off trace, final flush
    included. *)
Definition trace_output (dec : cw_decoder_t) (on_off : list Z) : list ascii :=
  (fst (samples_all dec on_off)
   ++ fst (finalize_all (snd (samples_all dec on_off))))%list.

(** The front end's part of a decoder. *)
Definition front_of (d : cw_decoder_t) : iir_filter_t * Z * envelope_t :=
  (bandpass d, use_bandpass d, envelope d).

(** The on/off decisions the front end (bandpass and envelope detector)
    hands to the timing stage over the same calls when no call stops
    early.  They are a function of the front end's own state and the
    chunks. *)
Fixpoint core_trace_blocks (bp : iir_filter_t) (use_bp : Z) (env : envelope_t)
  (bs : list (list float)) : iir_filter_t * envelope_t * list Z :=
  match bs with
  | [] => (bp, env, [])
  | b :: rest =>
      let '(bp, env, on_off) := front_core bp use_bp env b in
      let '(bp, env, more) := core_trace_blocks bp use_bp env rest in
      (bp, env, (on_off ++ more)%list)
  end.

Fixpoint core_trace (bp : iir_filter_t) (use_bp : Z) (env : envelope_t)
  (chunks : list (list float)) : list Z :=
  match chunks with
  | [] => []
  | chunk :: rest =>
      let '(bp, env, on_off) :=
        core_trace_blocks bp use_bp env (blocks 4096 chunk) in
      (on_off ++ core_trace bp use_bp env rest)%list
  end.

Definition front_trace (dec : cw_decoder_t) (chunks : list (list float))
  : list Z :=
  core_trace (bandpass dec) (use_bandpass dec) (envelope dec) chunks.

(** Output buffers large enough never to truncate: 192 bytes for each
    sample of the longest chunk, and 448 bytes for the final flush. *)
Definition roomy (out_len : Z) (chunks : list (list float)) : Prop :=
  448 <= out_len
  /\ Forall (fun c => 192 * Z.of_nat (List.length c) < out_len) chunks.

End Program.

(** ** Two arithmetics *)

(** *** IEEE 754 binary32, from the standard library's executable
    specification of floating-point arithmetic (precision 24, emax 128).
    [logf] and [expf] are the C library's and are not fixed by IEEE 754:
    they are given to the instance. *)

Module B32.

Definition prec : Z := 24.
Definition emax : Z := 128.

Definition of_Z (z : Z) : spec_float := binary_normalize prec emax z 0 false.

(** [(int)x]: truncation toward zero (undefined in C for NaN and
    infinities, [0] here). *)
Definition to_Z (x : spec_float) : Z :=
  match x with
  | S754_finite s m e =>
      let mag := if 0 <=? e then Z.pos m * 2 ^ e
                 else Z.pos m / 2 ^ (- e) in
      if s then - mag else mag
  | _ => 0
  end.

Definition lit (n d : Z) : spec_float := SFdiv prec emax (of_Z n) (of_Z d).

(** Double precision, for the one [double] constant the code computes
    with: math.h's [M_LN2 = 0.693147180559945309417232121458176568],
    which is [0x3FE62E42FEFA39EF]. *)
Definition dprec : Z := 53.
Definition demax : Z := 1024.

Definition M_LN2_double : spec_float :=
  S754_finite false 6243314768165359 (-53).

(** [(float)d] for a [double d]: rounded to nearest, ties to even. *)
Definition of_double (d : spec_float) : spec_float :=
  match d with
  | S754_finite s m e => binary_round prec emax s m e
  | _ => d
  end.

(** [(float)((double)x - M_LN2)] and [(float)((double)x + M_LN2)]; a
    [float] is a [double] as it stands. *)
Definition sub_M_LN2 (x : spec_float) : spec_float :=
  of_double (SFsub dprec demax x M_LN2_double).

Definition add_M_LN2 (x : spec_float) : spec_float :=
  of_double (SFadd dprec demax x M_LN2_double).

Definition ops (logf expf : spec_float -> spec_float) : FloatOps :=
  {| float := spec_float;
     flit := lit;
     f_of_int := of_Z;
     f_to_int := to_Z;
     fadd := SFadd prec emax;
     fsub := SFsub prec emax;
     fmul := SFmul prec emax;
     fdiv := SFdiv prec emax;
     fabsf := SFabs;
     sqrtf := SFsqrt prec emax;
     logf := logf;
     expf := expf;
     flt := SFltb;
     fle := SFleb;
     (* 0x40490FDB and 0x3F317218 *)
     M_PI := lit 13176795 4194304;
     M_LN2 := lit 11629080 16777216;
     fsub_M_LN2 := sub_M_LN2;
     fadd_M_LN2 := add_M_LN2 |}.

End B32.

(** *** Real arithmetic, with [ln] and [exp] for [logf] and [expf]: an
    instance for runs that turn on the values of the logarithm.  It is
    not the arithmetic of the program. *)

Module Exact.

Definition ltb (x y : R) : bool := if Rlt_dec x y then true else false.
Definition leb (x y : R) : bool := if Rle_dec x y then true else false.

(** Truncation toward zero. *)
Definition trunc (x : R) : Z :=
  if Rle_dec 0 x then (up x - 1)%Z else (- (up (- x) - 1))%Z.

Definition ops : FloatOps :=
  {| float := R;
     flit := fun n d => (IZR n / IZR d)%R;
     f_of_int := IZR;
     f_to_int := trunc;
     fadd := Rplus;
     fsub := Rminus;
     fmul := Rmult;
     fdiv := Rdiv;
     fabsf := Rabs;
     sqrtf := sqrt;
     logf := ln;
     expf := exp;
     flt := ltb;
     fle := leb;
     M_PI := PI;
     M_LN2 := ln 2;
     fsub_M_LN2 := fun x => (x - ln 2)%R;
     fadd_M_LN2 := fun x => (x + ln 2)%R |}.

End Exact.

(** ** Concrete runs in binary32

    The runs below use the EMA timing mode, the multipass envelope and no
    bandpass filter, which call neither [logf], [expf] nor the Butterworth
    designer; the instance is completed with a [logf] and [expf] that
    return NaN and a designer that returns the empty cascade. *)

Module Run.

Definition no_libm (x : spec_float) : spec_float := S754_nan.

Definition f32 : FloatOps := B32.ops no_libm no_libm.

Definition no_designer : @iir_designer f32 :=
  @mk_designer f32 (fun _ _ _ => []) (fun _ _ _ _ => []).

(** The defaults of [cw_config_init] except for: a sample rate of 100 Hz,
    [bandwidth = 0], EMA timing, [min_word_length = 1] and one averaging
    pass. *)
Definition config : @cw_config_t f32 :=
  @mk_config f32 100 (B32.lit 700 1) (B32.lit 0 1) (B32.lit 5 10)
             (B32.lit 4 10) CW_TIMING_EMA CW_ENVELOPE_MULTIPASS
             (B32.lit 20 1) (B32.lit 5 1) (B32.lit 60 1)
             (B32.lit 5 1000) (B32.lit 3 10) (B32.lit 10 1000) 0 1 1.

Definition decoder : @cw_decoder_t f32 :=
  @cw_decoder_create f32 no_designer config.

(** Audio samples with integer values. *)
Definition audio (l : list Z) : list spec_float := map B32.of_Z l.

(** [envelope_init] for 48 kHz, a 20 ms window and three passes:
    [window_f] is about 352.8. *)
Definition wide_envelope : @envelope_t f32 :=
  @envelope_init f32 no_designer 48000 (B32.lit 20 1000) (B32.lit 5 10)
                 (B32.lit 4 10) ENV_MODE_MULTIPASS 3.

End Run.

(** ** A Kalman filter over the reals *)

Module KalmanSpec.

Definition kalman := @kalman_t Exact.ops.

Definition component (x : list R) (i : Z) : R := @fget Exact.ops x i.

(** A filter as [kalman_init] leaves it for 48 kHz audio at 20 WPM within
    5 to 60 WPM. *)
Definition filter_20wpm : kalman :=
  @kalman_init Exact.ops 48000 (@flit Exact.ops 20 1)
               (@flit Exact.ops 5 1) (@flit Exact.ops 60 1).

End KalmanSpec.

(** ** The bounds of [apply_bounds] as the program computes them *)

Section Bounds.
Context {FO : FloatOps}.

(** [x] is neither below [lo] nor above [hi], as the program compares
    them; a NaN is neither. *)
Definition within (lo hi x : float) : Prop :=
  (x <? lo)%fl = false /\ (x >? hi)%fl = false.

(** [log_min] and [log_max] of [apply_bounds]. *)
Definition log_min (k : kalman_t) : float :=
  logf (flit 12 10 / k_max_wpm k * f_of_int (k_sample_rate k))%fl.

Definition log_max (k : kalman_t) : float :=
  logf (flit 12 10 / k_min_wpm k * f_of_int (k_sample_rate k))%fl.

(** The state vector within the limits [apply_bounds] computes from it:
    the dit between [log_min] and [log_max], the four other states inside
    their windows around the dit. *)
Definition clamped (k : kalman_t) : Prop :=
  let x := k_x k in
  let ld := fget x K_DIT in
  within (log_min k) (log_max k) ld
  /\ within (ld + logf (flit 2 1))%fl (ld + logf (flit 4 1))%fl
            (fget x K_DAH)
  /\ within (fsub_M_LN2 ld) (fadd_M_LN2 ld) (fget x K_ELEM_SPACE)
  /\ within (ld + logf (flit 2 1))%fl (ld + logf (flit 4 1))%fl
            (fget x K_CHAR_SPACE)
  /\ within (ld + logf (flit 5 1))%fl (ld + logf (flit 9 1))%fl
            (fget x K_WORD_SPACE).

(** No window of the state vector is upside down: as computed from its
    dit, no upper limit is below its lower limit. *)
Definition windows_ordered (k : kalman_t) : Prop :=
  let ld := fget (k_x k) K_DIT in
  (log_max k <? log_min k)%fl = false
  /\ (ld + logf (flit 4 1) <? ld + logf (flit 2 1))%fl = false
  /\ (fadd_M_LN2 ld <? fsub_M_LN2 ld)%fl = false
  /\ (ld + logf (flit 9 1) <? ld + logf (flit 5 1))%fl = false.




End Bounds.

(** ** Predicates used to state further properties *)

(** A character some entry of the table decodes to. *)
Definition table_char (c : ascii) : Prop :=
  exists e, In e MORSE_TABLE /\ ch e = c.

(** The running best of the split loop is the initial one, or holds two
    looked-up characters under a positive weight. *)
Definition best_ok (b : best_t) : Prop :=
  b = best_init
  \/ (0 < fst (fst b) /\ table_char (snd (fst b)) /\ table_char (snd b)).

(** ** Resets, speed read-out and the batch entry point *)

Section Resets.
Context {FO : FloatOps}.

(** *** iir_filter.c: [iir_filter_reset] *)

Definition iir_filter_reset (f : iir_filter_t) : iir_filter_t :=
  map (fun sec => mk_section (sec_b0 sec) (sec_b1 sec) (sec_b2 sec)
                             (sec_a1 sec) (sec_a2 sec) fzero fzero) f.

(** *** multipass_avg.c: [multipass_reset] *)

(** The body of the loop: [memset(mp->buffers[i], 0, ...)],
    [buf_len[i] = 0], [running_sum[i] = 0.0f]. *)
Definition multipass_reset_pass (mp : multipass_avg_t) (i : Z)
  : multipass_avg_t :=
  mk_multipass (mp_n_passes mp) (mp_window_size mp)
    (aset (mp_buffers mp) i (repeat fzero (Z.to_nat MULTIPASS_MAX_WINDOW)))
    (aset (mp_buf_len mp) i 0)
    (aset (mp_running_sum mp) i fzero).

Definition multipass_reset (mp : multipass_avg_t) : multipass_avg_t :=
  fold_left multipass_reset_pass (zrange (mp_n_passes mp)) mp.

(** *** envelope.c: [envelope_reset] *)

Definition envelope_reset (env : envelope_t) : envelope_t :=
  match env_mode env with
  | ENV_MODE_MULTIPASS =>
      mk_envelope (env_lpf env) (multipass_reset (env_mpf env)) (env_mode env)
                  fzero (env_threshold_on env) (env_threshold_off env) 0
  | ENV_MODE_IIR =>
      mk_envelope (iir_filter_reset (env_lpf env)) (env_mpf env) (env_mode env)
                  fzero (env_threshold_on env) (env_threshold_off env) 0
  end.

(** *** timing.c: [timing_get_wpm], [timing_reset] *)

Definition timing_get_wpm (t : timing_t) : float :=
  match t_mode t with
  | TIMING_MODE_KALMAN => kalman_get_wpm (t_kalman t)
  | TIMING_MODE_EMA =>
      let dit_s := (t_avg_dit t / f_of_int (t_sample_rate t))%fl in
      if (dit_s <=? fzero)%fl then flit 20 1 else (flit 12 10 / dit_s)%fl
  end.

Definition timing_reset (t : timing_t) (initial_wpm : float) : timing_t :=
  let dit_s := (flit 12 10 / initial_wpm)%fl in
  let t := set_avg_dit t (dit_s * f_of_int (t_sample_rate t))%fl in
  let t := set_running t 0 0 0 0 0 in
  match t_mode t with
  | TIMING_MODE_KALMAN => set_kalman t (kalman_reset (t_kalman t) initial_wpm)
  | TIMING_MODE_EMA => t
  end.

(** *** cw_decoder.c: [cw_decoder_get_wpm], [cw_decoder_reset],
    [cw_decode_multi] *)

Definition cw_decoder_get_wpm (dec : cw_decoder_t) : float :=
  timing_get_wpm (timing dec).

Definition cw_decoder_reset (dec : cw_decoder_t) : cw_decoder_t :=
  mk_decoder (cfg dec)
    (if use_bandpass dec =? 0 then bandpass dec
     else iir_filter_reset (bandpass dec))
    (use_bandpass dec)
    (envelope_reset (envelope dec))
    (timing_reset (timing dec) (initial_wpm (cfg dec)))
    EmptyString
    (output_filter_reset (output dec)).





(** What a client has done to a decoder between [cw_decoder_create] and a
    reset. *)
Inductive decoder_call :=
| Process (audio : list float) (out_len : Z)
| Finalize (out_len : Z).

Definition decoder_call_run (dec : cw_decoder_t) (c : decoder_call)
  : cw_decoder_t :=
  match c with
  | Process audio out_len => snd (cw_decoder_process dec audio out_len)
  | Finalize out_len => snd (cw_decoder_finalize dec out_len)
  end.

(** A call that names a buffer: [out_len] is not negative.
    [cw_decoder_finalize] has no guard on [out_len] and hands it on to
    [emit_word] (see [filter_call_fits]). *)
Definition decoder_call_fits (c : decoder_call) : Prop :=
  match c with
  | Process _ out_len => 0 <= out_len
  | Finalize out_len => 0 <= out_len
  end.

(** The samples a call puts through the decoder. *)
Definition samples_taken (c : decoder_call) : Z :=
  match c with
  | Process audio _ => Z.of_nat (List.length audio)
  | Finalize _ => 0
  end.

(** The calls the model stands for: each names a buffer, and all their
    samples together do not take an [int] counter of the timing stage,
    which starts from 0, past [INT_MAX]. *)
Definition decoder_calls_fit (calls : list decoder_call) : Prop :=
  Forall decoder_call_fits calls
  /\ fold_right Z.add 0 (map samples_taken calls) <= INT_MAX.

(** [timing_process_sample] over a trace of on/off decisions: the element
    codes returned, in order, and the state afterwards. *)
Fixpoint timing_run (t : timing_t) (on_off : list Z) : list Z * timing_t :=
  match on_off with
  | [] => ([], t)
  | on :: rest =>
      let '(elem, t) := timing_process_sample t on in
      let '(more, t) := timing_run t rest in
      (elem :: more, t)
  end.

(** A sequence of measurements [(state_idx, duration_samples)] put to
    [kalman_update] in order. *)
Definition kalman_updates (k : kalman_t) (ms : list (Z * float)) : kalman_t :=
  fold_left (fun k m => snd (kalman_update k (fst m) (snd m))) ms k.

(** The calls a client can make on a timing classifier between
    [timing_init] and a reset. *)
Inductive timing_call :=
| Sample (on : Z)
| TimingFinalize.

Definition timing_call_run (t : timing_t) (c : timing_call) : timing_t :=
  match c with
  | Sample on => snd (timing_process_sample t on)
  | TimingFinalize => snd (timing_finalize t)
  end.

(** [envelope_process] on each chunk in order: the detector afterwards. *)
Definition envelope_run (env : envelope_t) (chunks : list (list float))
  : envelope_t :=
  fold_left (fun env chunk => fst (envelope_process env chunk)) chunks env.

(** A section whose state variables are zero. *)
Definition zero_state (sec : iir_section_t) : Prop :=
  sec_z0 sec = fzero /\ sec_z1 sec = fzero.

(** [iir_filter_process] on each chunk in order: the filter afterwards and
    the filtered chunks. *)
Fixpoint iir_filter_run (f : iir_filter_t) (chunks : list (list float))
  : iir_filter_t * list (list float) :=
  match chunks with
  | [] => (f, [])
  | chunk :: rest =>
      let '(f, y) := iir_filter_process f chunk in
      let '(f, ys) := iir_filter_run f rest in
      (f, y :: ys)
  end.

(** What the pattern buffer and the word buffer of a decoder can hold:
    at most 15 dots and dashes, and at most 63 characters of the table. *)
Definition dot_or_dash (c : ascii) : Prop := c = "."%char \/ c = "-"%char.

Definition buffers_ok (dec : cw_decoder_t) : Prop :=
  pattern_len dec <= 15
  /\ Forall dot_or_dash (list_ascii_of_string (dec_pattern dec))
  /\ word_len (output dec) <= 63
  /\ Forall table_char (word_buf (output dec)).

(** A byte of decoded text: a space or a character of the table. *)
Definition text_char (c : ascii) : Prop := c = " "%char \/ table_char c.

End Resets.

(** ** iir_filter.c: Butterworth design

    The designers need the C library's trigonometry and unary minus on
    top of the arithmetic above.  [a[0]] of a section is set to [1.0f] by
    every builder and read by the gain normalisation only; it is the
    literal [1] there.  [ap_re] and [ap_im] hold 16 poles in C, so
    [iir_design_bandpass] is modelled for [order <= 16]
    ([iir_design_lowpass] rejects a larger order itself). *)

Class TrigOps {FO : FloatOps} : Type := {
  (** unary minus *)
  fneg : float -> float;
  cosf : float -> float;
  sinf : float -> float;
  tanf : float -> float;
  atan2f : float -> float -> float
}.

Module Butterworth.
Section Design.
Context {FO : FloatOps} {TO : TrigOps}.

Definition IIR_MAX_SECTIONS : Z := 8.

(** [butter_analog_poles]: the pole it stores at index [k]. *)
Definition butter_analog_poles (order k : Z) : float * float :=
  let angle :=
    (M_PI * f_of_int (2 * k + order + 1) / f_of_int (2 * order))%fl in
  (cosf angle, sinf angle).

Definition bilinear_transform (s_re s_im fs : float) : float * float :=
  let t := (flit 1 1 / (flit 2 1 * fs))%fl in
  let num_re := (flit 1 1 + s_re * t)%fl in
  let num_im := (s_im * t)%fl in
  let den_re := (flit 1 1 - s_re * t)%fl in
  let den_im := (fneg s_im * t)%fl in
  let den_mag2 := (den_re * den_re + den_im * den_im)%fl in
  (((num_re * den_re + num_im * den_im) / den_mag2)%fl,
   ((num_im * den_re - num_re * den_im) / den_mag2)%fl).

Definition make_sos_from_pole_pair (pz_re pz_im zz_re zz_im gain : float)
  : iir_section_t :=
  mk_section gain
             (gain * (flit (-2) 1 * zz_re))%fl
             (gain * (zz_re * zz_re + zz_im * zz_im))%fl
             (flit (-2) 1 * pz_re)%fl
             (pz_re * pz_re + pz_im * pz_im)%fl
             fzero fzero.

Definition make_sos_from_real_pole (pz zz gain : float) : iir_section_t :=
  mk_section gain (gain * fneg zz)%fl fzero (fneg pz) fzero fzero fzero.

(** [b[0] *= correction; b[1] *= correction; b[2] *= correction] on
    [sections[0]]. *)
Definition scale_first (correction : float) (secs : iir_filter_t)
  : iir_filter_t :=
  match secs with
  | [] => []
  | sec :: rest =>
      mk_section (sec_b0 sec * correction)%fl (sec_b1 sec * correction)%fl
                 (sec_b2 sec * correction)%fl
                 (sec_a1 sec) (sec_a2 sec) (sec_z0 sec) (sec_z1 sec) :: rest
  end.

(** *** Lowpass *)

(** The sections of [iir_design_lowpass] before the gain is normalised. *)
Definition lowpass_sections (order : Z) (cutoff_hz fs : float) : iir_filter_t :=
  let wn := (cutoff_hz / (fs / flit 2 1))%fl in
  let wn := if (wn >=? flit 1 1)%fl then flit 999 1000 else wn in
  let wn := if (wn <=? fzero)%fl then flit 1 1000 else wn in
  let warped := (flit 2 1 * fs * tanf (M_PI * wn / flit 2 1))%fl in
  let ap k :=
    let '(re, im) := butter_analog_poles order k in
    ((re * warped)%fl, (im * warped)%fl) in
  let pairs :=
    map (fun k =>
           let '(re, im) := ap k in
           let '(pz1_re, pz1_im) := bilinear_transform re im fs in
           make_sos_from_pole_pair pz1_re pz1_im (flit (-1) 1) fzero
                                   (flit 1 1))
        (zrange (Z.quot order 2)) in
  let real :=
    if Z.rem order 2 =? 1 then
      let '(re, im) := ap (Z.quot order 2) in
      let '(pz_re, _) := bilinear_transform re im fs in
      [make_sos_from_real_pole pz_re (flit (-1) 1) (flit 1 1)]
    else [] in
  (pairs ++ real)%list.

(** The loop that evaluates the cascade at [z = 1]. *)
Definition dc_gain_step (total_gain : float) (sec : iir_section_t) : float :=
  let num_at_dc := (sec_b0 sec + sec_b1 sec + sec_b2 sec)%fl in
  let den_at_dc := (flit 1 1 + sec_a1 sec + sec_a2 sec)%fl in
  if (fabsf den_at_dc >? flit 1 1000000000000)%fl
  then (total_gain * (num_at_dc / den_at_dc))%fl
  else total_gain.

Definition lowpass_normalize (secs : iir_filter_t) : iir_filter_t :=
  let total_gain := fold_left dc_gain_step secs (flit 1 1) in
  if (fabsf total_gain >? flit 1 1000000000000)%fl
     && (0 <? Z.of_nat (List.length secs))
  then scale_first (flit 1 1 / total_gain)%fl secs
  else secs.

Definition iir_design_lowpass (order : Z) (cutoff_hz fs : float)
  : iir_filter_t :=
  if (order <? 1) || (2 * IIR_MAX_SECTIONS <? order) then []
  else lowpass_normalize (lowpass_sections order cutoff_hz fs).

(** *** Bandpass *)

(** A bandpass section for the z-plane pole [(z_re, z_im)]: zeros at
    [+1] and [-1]. *)
Definition bandpass_section (z_re z_im : float) : iir_section_t :=
  mk_section (flit 1 1) fzero (flit (-1) 1)
             (flit (-2) 1 * z_re)%fl (z_re * z_re + z_im * z_im)%fl
             fzero fzero.

(** The body of the pole loop: the sections so far, [sec_idx] being their
    number. *)
Definition bandpass_pole (order : Z) (bw w0 fs : float)
  (secs : iir_filter_t) (k : Z) : iir_filter_t :=
  let '(ap_re, ap_im) := butter_analog_poles order k in
  let half_bw_re := (ap_re * bw / flit 2 1)%fl in
  let half_bw_im := (ap_im * bw / flit 2 1)%fl in
  let sq_re := (half_bw_re * half_bw_re - half_bw_im * half_bw_im)%fl in
  let sq_im := (flit 2 1 * half_bw_re * half_bw_im)%fl in
  let sq_re := (sq_re - w0 * w0)%fl in
  let mag := sqrtf (sq_re * sq_re + sq_im * sq_im)%fl in
  let phase := atan2f sq_im sq_re in
  let sqrt_mag := sqrtf mag in
  let sqrt_re := (sqrt_mag * cosf (phase / flit 2 1))%fl in
  let sqrt_im := (sqrt_mag * sinf (phase / flit 2 1))%fl in
  let s1_re := (half_bw_re + sqrt_re)%fl in
  let s1_im := (half_bw_im + sqrt_im)%fl in
  let s2_re := (half_bw_re - sqrt_re)%fl in
  let s2_im := (half_bw_im - sqrt_im)%fl in
  let '(z1_re, z1_im) := bilinear_transform s1_re s1_im fs in
  let '(z2_re, z2_im) := bilinear_transform s2_re s2_im fs in
  let secs :=
    if Z.of_nat (List.length secs) <? IIR_MAX_SECTIONS
    then (secs ++ [bandpass_section z1_re z1_im])%list else secs in
  if Z.of_nat (List.length secs) <? IIR_MAX_SECTIONS
  then (secs ++ [bandpass_section z2_re z2_im])%list else secs.

(** The loop that evaluates the cascade at the centre frequency: the
    running [(total_gain_re, total_gain_im)]. *)
Definition centre_gain_step (cos_wc sin_wc : float) (g : float * float)
  (sec : iir_section_t) : float * float :=
  let '(total_gain_re, total_gain_im) := g in
  let cos2 := (cos_wc * cos_wc - sin_wc * sin_wc)%fl in
  let sin2 := (flit 2 1 * sin_wc * cos_wc)%fl in
  let nr := (sec_b0 sec + sec_b1 sec * cos_wc + sec_b2 sec * cos2)%fl in
  let ni := (fneg (sec_b1 sec) * sin_wc - sec_b2 sec * sin2)%fl in
  let dr := (flit 1 1 + sec_a1 sec * cos_wc + sec_a2 sec * cos2)%fl in
  let di := (fneg (sec_a1 sec) * sin_wc - sec_a2 sec * sin2)%fl in
  let dm2 := (dr * dr + di * di)%fl in
  if (dm2 <? flit 1 100000000000000000000)%fl then g else
  let h_re := ((nr * dr + ni * di) / dm2)%fl in
  let h_im := ((ni * dr - nr * di) / dm2)%fl in
  ((total_gain_re * h_re - total_gain_im * h_im)%fl,
   (total_gain_re * h_im + total_gain_im * h_re)%fl).

Definition bandpass_normalize (low_hz high_hz fs : float)
  (secs : iir_filter_t) : iir_filter_t :=
  let wc :=
    (flit 2 1 * M_PI * (low_hz + high_hz) / flit 2 1 / fs)%fl in
  let cos_wc := cosf wc in
  let sin_wc := sinf wc in
  let '(total_gain_re, total_gain_im) :=
    fold_left (centre_gain_step cos_wc sin_wc) secs (flit 1 1, fzero) in
  let gain_mag :=
    sqrtf (total_gain_re * total_gain_re
           + total_gain_im * total_gain_im)%fl in
  if (gain_mag >? flit 1 1000000000000)%fl
     && (0 <? Z.of_nat (List.length secs))
  then scale_first (flit 1 1 / gain_mag)%fl secs
  else secs.

Definition iir_design_bandpass (order : Z) (low_hz high_hz fs : float)
  : iir_filter_t :=
  if order <? 1 then [] else
  let nyquist := (fs / flit 2 1)%fl in
  let wn_low := (low_hz / nyquist)%fl in
  let wn_high := (high_hz / nyquist)%fl in
  let wn_low := if (wn_low <=? fzero)%fl then flit 1 1000 else wn_low in
  let wn_high := if (wn_high >=? flit 1 1)%fl then flit 999 1000 else wn_high in
  if (wn_low >=? wn_high)%fl then [] else
  let w_low := (flit 2 1 * fs * tanf (M_PI * wn_low / flit 2 1))%fl in
  let w_high := (flit 2 1 * fs * tanf (M_PI * wn_high / flit 2 1))%fl in
  let bw := (w_high - w_low)%fl in
  let w0 := sqrtf (w_low * w_high)%fl in
  bandpass_normalize low_hz high_hz fs
    (fold_left (bandpass_pole order bw w0 fs) (zrange order) []).

(** The designer the decoder is built with. *)
Definition designer : iir_designer :=
  mk_designer iir_design_lowpass iir_design_bandpass.

End Design.
End Butterworth.

(** ** hamlib_missing.c: the character FIFO

    [hl_push], [hl_pop] and [hl_peek] on a [FIFO_RIG] that is not [NULL],
    as one thread sees them: every function takes the mutex on entry and
    releases it on each way out, so the mutex is left out.  [hl_push]
    takes the bytes of [msg] before its terminating NUL. *)

Module Fifo.

Definition HAMLIB_FIFO_SIZE : Z := 1024.

Record FIFO_RIG := mk_fifo {
  fifo_data : list ascii;
  fifo_head : Z;
  fifo_tail : Z;
  fifo_flush : Z
}.

(** [initFIFO]: [memset] to zero. *)
Definition initFIFO : FIFO_RIG :=
  mk_fifo (repeat zero (Z.to_nat HAMLIB_FIFO_SIZE)) 0 0 0.

Definition resetFIFO (fifo : FIFO_RIG) : FIFO_RIG :=
  mk_fifo (fifo_data fifo) 0 0 0.

(** [(unsigned char)c] as an [int]. *)
Definition uchar (c : ascii) : Z := Z.of_nat (nat_of_ascii c).

(** The [while ( *msg )] loop of [hl_push]. *)
Fixpoint hl_push (fifo : FIFO_RIG) (msg : list ascii) : Z * FIFO_RIG :=
  match msg with
  | [] => (0, fifo)
  | c :: rest =>
      if Ascii.eqb c zero then (0, fifo) else
      let next := Z.rem (fifo_head fifo + 1) HAMLIB_FIFO_SIZE in
      if next =? fifo_tail fifo then (-1, fifo) else
      hl_push (mk_fifo (aset (fifo_data fifo) (fifo_head fifo) c) next
                       (fifo_tail fifo) (fifo_flush fifo))
              rest
  end.

Definition hl_pop (fifo : FIFO_RIG) : Z * FIFO_RIG :=
  if fifo_head fifo =? fifo_tail fifo then (-1, fifo) else
  let c := uchar (aget zero (fifo_data fifo) (fifo_tail fifo)) in
  (c, mk_fifo (fifo_data fifo) (fifo_head fifo)
              (Z.rem (fifo_tail fifo + 1) HAMLIB_FIFO_SIZE)
              (fifo_flush fifo)).

Definition hl_peek (fifo : FIFO_RIG) : Z :=
  if fifo_head fifo =? fifo_tail fifo then -1
  else uchar (aget zero (fifo_data fifo) (fifo_tail fifo)).

(** [n] calls of [hl_pop]: what they returned, in order. *)
Fixpoint pops (n : nat) (fifo : FIFO_RIG) : list Z * FIFO_RIG :=
  match n with
  | O => ([], fifo)
  | S n' =>
      let '(c, fifo) := hl_pop fifo in
      let '(more, fifo) := pops n' fifo in
      (c :: more, fifo)
  end.

(** A FIFO as the code keeps it: 1024 bytes, both indices inside. *)
Definition wf (fifo : FIFO_RIG) : Prop :=
  List.length (fifo_data fifo) = Z.to_nat HAMLIB_FIFO_SIZE
  /\ 0 <= fifo_head fifo < HAMLIB_FIFO_SIZE
  /\ 0 <= fifo_tail fifo < HAMLIB_FIFO_SIZE.

(** The number of bytes waiting, and the bytes, oldest first. *)
Definition size (fifo : FIFO_RIG) : Z :=
  (fifo_head fifo - fifo_tail fifo) mod HAMLIB_FIFO_SIZE.

Definition contents (fifo : FIFO_RIG) : list ascii :=
  map (fun i => aget zero (fifo_data fifo)
                     ((fifo_tail fifo + Z.of_nat i) mod HAMLIB_FIFO_SIZE))
      (seq 0 (Z.to_nat (size fifo))).

End Fifo.

(** ** Silence in binary32 *)

Module SilenceSpec.

(** A zero of either sign. *)
Definition is_zero (x : spec_float) : Prop :=
  match x with S754_zero _ => True | _ => False end.

(** A chunk of silence: every sample is zero. *)
Definition silent (chunk : list spec_float) : Prop := Forall is_zero chunk.

(** What silence leaves in the signal path: a zero or, behind a
    coefficient that is not finite, a NaN. *)
Definition mute (x : spec_float) : Prop :=
  match x with S754_zero _ | S754_nan => True | _ => False end.

End SilenceSpec.

(** What a decoder holds when it has heard nothing but silence, over the
    two properties of a sample that matter: [zero], and [mute], which is
    what a zero sample can turn into on its way through the filters. *)
Section SilenceInvariants.
Context {FO : FloatOps}.
Variables zero mute : float -> Prop.

Definition section_is_mute (sec : iir_section_t) : Prop :=
  mute (sec_z0 sec) /\ mute (sec_z1 sec).

Definition multipass_is_mute (mp : multipass_avg_t) : Prop :=
  Forall (Forall mute) (mp_buffers mp) /\ Forall mute (mp_running_sum mp).

Definition envelope_is_mute (env : envelope_t) : Prop :=
  Forall section_is_mute (env_lpf env)
  /\ multipass_is_mute (env_mpf env)
  /\ zero (env_peak_level env)
  /\ env_prev_state env = 0.

Definition decoder_is_mute (d : cw_decoder_t) : Prop :=
  Forall section_is_mute (bandpass d)
  /\ envelope_is_mute (envelope d)
  /\ t_prev_on (timing d) = 0
  /\ t_on_dur (timing d) = 0
  /\ dec_pattern d = EmptyString
  /\ word_buf (output d) = [].

End SilenceInvariants.

(** ** Concrete inputs in binary32 *)

Module Samples.

(** An EMA timing state at 100 Hz and 20 WPM whose shortest accepted mark
    is 50 ms. *)
Definition timing : @timing_t Run.f32 :=
  @timing_init Run.f32 TIMING_MODE_EMA 100 (B32.lit 20 1) (B32.lit 5 1)
               (B32.lit 60 1) (B32.lit 3 10) (B32.lit 50 1000).

(** Two samples into a mark. *)
Definition in_mark : @timing_t Run.f32 := set_running timing 2 0 1 0 0.

(** Three samples into the gap after a first mark. *)
Definition in_gap : @timing_t Run.f32 := set_running timing 0 3 0 1 1.

(** A one-section cascade with state. *)
Definition biquad : @iir_filter_t Run.f32 :=
  [@mk_section Run.f32 (B32.lit 1 4) (B32.lit 1 2) (B32.lit 1 4)
               (B32.lit (-1) 2) (B32.lit 1 4) (B32.lit 1 8) (B32.lit 0 1)].

(** [Run.config] asks for no bandpass and for the moving-average
    envelope, so a decoder made from it never calls a designer; the
    trigonometry is completed like [Run.no_libm]. *)
Definition no_trig : @TrigOps Run.f32 :=
  {| fneg := SFopp : @float Run.f32 -> @float Run.f32;
     cosf := Run.no_libm; sinf := Run.no_libm; tanf := Run.no_libm;
     atan2f := fun _ _ => S754_nan |}.

(** A binary32 filter, whatever [logf] and [expf] the C library has, that
    expects every duration to be one sample ([x = 0]) and whose
    covariance is symmetric and strictly diagonally dominant: 0.1 on the
    diagonal, 0.001, 0.01 and 0.001 between the first three states. *)
Definition correlated (logf expf : spec_float -> spec_float)
  : @kalman_t (B32.ops logf expf) :=
  let z := B32.lit 0 1 in
  let d := B32.lit 1 10 in
  let a := B32.lit 1 1000 in
  let b := B32.lit 1 100 in
  @mk_kalman (B32.ops logf expf)
    [z; z; z; z; z]
    [ [d; a; b; z; z]; [a; d; a; z; z]; [b; a; d; z; z];
      [z; z; z; d; z]; [z; z; z; z; d] ]
    [b; b; b; b; b] d (B32.lit 11629080 16777216) 48000
    (B32.lit 5 1) (B32.lit 60 1).







(** A short session: three samples into a buffer of 2 bytes, then the
    end of the transmission. *)
Definition session : list (@decoder_call Run.f32) :=
  [@Process Run.f32 (Run.audio [1; 0; 8]) 2; @Finalize Run.f32 4].

End Samples.

(* ================================================================== *)
(** * Part II: properties                                              *)
(* ================================================================== *)

(** ** Merged Morse lookup *)

(** The splits of [".-.-"]: position 1 gives E+K with weight 338,
    position 2 gives A+A with weight 254, position 3 gives R+T with
    weight 320. *)
Lemma split_steps_dot_dash_twice :
  map (split_step ".-.-" best_init) (split_positions 4)
  = [ (338, "E"%char, "K"%char);
      (254, "A"%char, "A"%char);
      (320, "R"%char, "T"%char) ].
Proof. reflexivity. Qed.

(** C1, as the claim states it, fails: with [out_len = 2] the two bytes
    written for [".-.-"] are not ["AA"]. *)
Lemma merged_dot_dash_twice_is_not_AA :
  exists ss, morse_lookup_merged ".-.-" 2 = (2, ss)
             /\ stored_bytes ss <> ["A"%char; "A"%char].
Proof.
  exists [(0, "E"%char); (1, "K"%char)]. split.
  - reflexivity.
  - discriminate.
Qed.

(** C1 (amended): for every [out_len >= 2], [morse_lookup_merged] on
    [".-.-"] stores exactly the two characters ["EK"], at [out[0]] and
    [out[1]], and returns 2: the split at position 1 (E 321 + K 17 = 338)
    outweighs the split at position 2 (A 127 + A 127 = 254). *)
Theorem merged_dot_dash_twice_is_EK :
  forall out_len, 2 <= out_len ->
    morse_lookup_merged ".-.-" out_len
    = (2, [(0, "E"%char); (1, "K"%char)]).
Proof.
  intros out_len H. unfold morse_lookup_merged.
  destruct (out_len <? 1) eqn:E1; [apply Z.ltb_lt in E1; lia|].
  change (morse_lookup ".-.-") with "?"%char. cbn [Ascii.eqb negb].
  change (split_loop ".-.-") with (338, "E"%char, "K"%char).
  assert (E2 : (2 <=? out_len) = true) by (apply Z.leb_le; lia).
  rewrite E2. reflexivity.
Qed.

Lemma merged_dot_dash_twice_is_EK_witness :
  2 <= 3 /\ morse_lookup_merged ".-.-" 3 = (2, [(0, "E"%char); (1, "K"%char)]).
Proof.
  split; [lia | apply (merged_dot_dash_twice_is_EK 3); lia].
Defined.

(** C3 (the code departs from the claim): ["..--.."] is a table entry, the
    question mark, yet [morse_lookup_merged] takes its character ['?'] for
    the not-found marker of [morse_lookup], goes on to the split loop and
    writes the two characters ["IZ"] (I 115 + Z 2 = 117 beats U 48 + D 68 =
    116), returning 2 where the claim has one character and 1. *)
Theorem merged_question_mark_pattern :
  In (mk_entry "..--.." "?" 5) MORSE_TABLE
  /\ morse_lookup "..--.." = "?"%char
  /\ morse_lookup_merged "..--.." 2 = (2, [(0, "I"%char); (1, "Z"%char)]).
Proof.
  split; [|split].
  - unfold MORSE_TABLE. do 38 right. left. reflexivity.
  - reflexivity.
  - reflexivity.
Qed.

(** The same slip on a split: of ["..--..."] the claim's best pair is
    ['?'] + E (5 + 321), the code discards it and writes ["I7"]. *)
Lemma merged_question_mark_prefix :
  morse_lookup_merged "..--..." 2 = (2, [(0, "I"%char); (1, "7"%char)]).
Proof. reflexivity. Qed.

(** *** Apart from the question mark the merged lookup is the
    specification's *)

Lemma lookup_scan_find :
  forall tbl p,
    lookup_scan tbl p
    = match find (fun e => String.eqb (pattern e) p) tbl with
      | Some e => ch e
      | None => "?"%char
      end.
Proof.
  induction tbl as [|e tl IH]; intros p; [reflexivity|].
  cbn [lookup_scan find]. destruct (String.eqb (pattern e) p); auto.
Qed.

Lemma morse_lookup_entry :
  forall p,
    morse_lookup p
    = match table_entry p with Some e => ch e | None => "?"%char end.
Proof.
  intros p. destruct p as [|a p]; [reflexivity|].
  apply lookup_scan_find.
Qed.

(** Checked on the 54 entries: characters are not repeated, so the weight
    found by character is the entry's; only the question mark's entry
    carries ['?']; weights are positive. *)
Lemma table_facts :
  forall e, In e MORSE_TABLE ->
    morse_char_weight (ch e) = weight e
    /\ (ch e = "?"%char -> pattern e = question_mark)
    /\ 0 < weight e.
Proof.
  assert (H : forallb (fun e =>
                (morse_char_weight (ch e) =? weight e)
                && (negb (Ascii.eqb (ch e) "?")
                    || String.eqb (pattern e) question_mark)
                && (0 <? weight e)) MORSE_TABLE = true)
    by (vm_compute; reflexivity).
  rewrite forallb_forall in H. intros e He. specialize (H e He).
  apply andb_true_iff in H as [H H3]. apply andb_true_iff in H as [H1 H2].
  apply Z.eqb_eq in H1. apply Z.ltb_lt in H3.
  split; [exact H1|]. split; [|exact H3].
  intros Hq. rewrite Hq in H2. cbn in H2. apply String.eqb_eq. exact H2.
Qed.

Lemma table_entry_found :
  forall p e, table_entry p = Some e -> In e MORSE_TABLE /\ pattern e = p.
Proof.
  intros p e H. apply find_some in H as [Hin Heq].
  split; [exact Hin | apply String.eqb_eq; exact Heq].
Qed.

Lemma table_entry_char :
  forall p e,
    table_entry p = Some e -> p <> question_mark ->
    Ascii.eqb (ch e) "?" = false.
Proof.
  intros p e H Hp. destruct (table_entry_found p e H) as [Hin Hpat].
  destruct (table_facts e Hin) as (_ & Hq & _).
  apply Ascii.eqb_neq. intros Hc. apply Hp. rewrite <- Hpat. auto.
Qed.

(** One iteration of the split loop, read through [valid_split]. *)
Lemma split_step_valid :
  forall p best pos,
    question_mark_free p ->
    split_step p best pos
    = match valid_split p pos with
      | Some b => if fst (fst best) <? fst (fst b) then b else best
      | None => best
      end.
Proof.
  intros p best pos [_ Hfree]. destruct (Hfree pos) as [Hl Hr].
  unfold split_step, valid_split. rewrite !morse_lookup_entry.
  destruct (table_entry (substring 0 pos p)) as [l|] eqn:El;
    [|reflexivity].
  rewrite (table_entry_char _ l El Hl). cbn [negb andb].
  destruct (table_entry (substring pos (String.length p - pos) p))
    as [r|] eqn:Er; [|reflexivity].
  rewrite (table_entry_char _ r Er Hr). cbn [negb].
  destruct (table_entry_found _ l El) as [Hinl _].
  destruct (table_entry_found _ r Er) as [Hinr _].
  destruct (table_facts l Hinl) as (-> & _ & _).
  destruct (table_facts r Hinr) as (-> & _ & _).
  destruct best as [[bw bl] br]. reflexivity.
Qed.

Lemma valid_split_weight :
  forall p pos b, valid_split p pos = Some b -> 0 < fst (fst b).
Proof.
  intros p pos b. unfold valid_split.
  destruct (table_entry (substring 0 pos p)) as [l|] eqn:El;
    [|discriminate].
  destruct (table_entry (substring pos (String.length p - pos) p))
    as [r|] eqn:Er; [|discriminate].
  intros H. inversion H. subst b. cbn [fst].
  destruct (table_entry_found _ l El) as [Hinl _].
  destruct (table_entry_found _ r Er) as [Hinr _].
  destruct (table_facts l Hinl) as (_ & _ & Hwl).
  destruct (table_facts r Hinr) as (_ & _ & Hwr). lia.
Qed.

Lemma best_upto_step :
  forall p s best,
    question_mark_free p -> (1 <= s)%nat ->
    best_upto p s best -> best_upto p (S s) (split_step p best s).
Proof.
  intros p s best Hfree Hs Hinv. rewrite split_step_valid by exact Hfree.
  destruct (valid_split p s) as [b|] eqn:Ev.
  - pose proof (valid_split_weight p s b Ev) as Hpos.
    destruct Hinv as [[-> Hnone] | (pos & Hp & Hv & Hmax & Hearly)].
    + cbn [best_init fst].
      assert (E : (-1 <? fst (fst b)) = true) by (apply Z.ltb_lt; lia).
      rewrite E. right. exists s. split; [lia|]. split; [exact Ev|]. split.
      * intros pos' b' Hp' Hv'.
        destruct (Nat.eq_dec pos' s) as [-> | Hne].
        -- rewrite Ev in Hv'. inversion Hv'. lia.
        -- rewrite Hnone in Hv' by lia. discriminate.
      * intros pos' b' Hp' Hv'. rewrite Hnone in Hv' by lia. discriminate.
    + destruct (fst (fst best) <? fst (fst b)) eqn:E.
      * apply Z.ltb_lt in E. right. exists s.
        split; [lia|]. split; [exact Ev|]. split.
        -- intros pos' b' Hp' Hv'.
           destruct (Nat.eq_dec pos' s) as [-> | Hne].
           ++ rewrite Ev in Hv'. inversion Hv'. lia.
           ++ specialize (Hmax pos' b' ltac:(lia) Hv'). lia.
        -- intros pos' b' Hp' Hv'.
           specialize (Hmax pos' b' ltac:(lia) Hv'). lia.
      * apply Z.ltb_ge in E. right. exists pos.
        split; [lia|]. split; [exact Hv|]. split.
        -- intros pos' b' Hp' Hv'.
           destruct (Nat.eq_dec pos' s) as [-> | Hne].
           ++ rewrite Ev in Hv'. inversion Hv'. subst b'. exact E.
           ++ apply (Hmax pos' b'); [lia | exact Hv'].
        -- exact Hearly.
  - destruct Hinv as [[-> Hnone] | (pos & Hp & Hv & Hmax & Hearly)].
    + left. split; [reflexivity|]. intros pos' Hp'.
      destruct (Nat.eq_dec pos' s) as [-> | Hne];
        [exact Ev | apply Hnone; lia].
    + right. exists pos. split; [lia|]. split; [exact Hv|]. split.
      * intros pos' b' Hp' Hv'.
        destruct (Nat.eq_dec pos' s) as [-> | Hne].
        -- rewrite Ev in Hv'. discriminate.
        -- apply (Hmax pos' b'); [lia | exact Hv'].
      * exact Hearly.
Qed.

Lemma best_upto_fold :
  forall p n s best,
    question_mark_free p -> (1 <= s)%nat ->
    best_upto p s best ->
    best_upto p (s + n) (fold_left (split_step p) (seq s n) best).
Proof.
  intros p n. induction n as [|n IH]; intros s best Hfree Hs Hinv.
  - cbn. rewrite Nat.add_0_r. exact Hinv.
  - cbn [seq fold_left]. rewrite <- Nat.add_succ_comm.
    apply IH; [exact Hfree | lia |].
    apply best_upto_step; assumption.
Qed.

Lemma split_loop_best :
  forall p,
    question_mark_free p -> (2 <= String.length p <= 15)%nat ->
    best_upto p (String.length p) (split_loop p).
Proof.
  intros p Hfree Hlen. unfold split_loop, split_positions.
  rewrite Nat.min_l by lia.
  assert (H0 : best_upto p 1 best_init)
    by (left; split; [reflexivity | intros pos Hpos; lia]).
  pose proof (best_upto_fold p (String.length p - 1) 1 best_init
                Hfree (le_n 1) H0) as H.
  replace (1 + (String.length p - 1))%nat with (String.length p) in H by lia.
  exact H.
Qed.

Lemma morse_lookup_merged_nonempty :
  forall p out_len,
    (1 <= String.length p)%nat ->
    morse_lookup_merged p out_len
    = if out_len <? 1 then (0, []) else
      if negb (Ascii.eqb (morse_lookup p) "?")
      then (1, [(0, morse_lookup p)]) else
      if (Z.of_nat (String.length p) <=? 1) then (1, [(0, "?"%char)]) else
      let '(best_weight, best_left, best_right) := split_loop p in
      if (0 <=? best_weight) && (2 <=? out_len)
      then (2, [(0, best_left); (1, best_right)])
      else (1, [(0, "?"%char)]).
Proof.
  intros p out_len Hlen. destruct p as [|a q]; [cbn in Hlen; lia|].
  reflexivity.
Qed.

(** The claim of C3 on every pattern the question mark plays no part in:
    a direct hit gives its one character; otherwise the split chosen by
    weight, the earliest among equals, gives its two characters; and
    with no valid split the answer is a single ['?']. *)
Theorem merged_lookup_as_specified :
  forall (p : string) (out_len : Z),
    (1 <= String.length p <= 15)%nat ->
    2 <= out_len ->
    question_mark_free p ->
    (forall e, table_entry p = Some e ->
               morse_lookup_merged p out_len = (1, [(0, ch e)]))
    /\ (table_entry p = None ->
        forall pos cl cr w,
          chosen_split p pos (w, cl, cr) ->
          morse_lookup_merged p out_len = (2, [(0, cl); (1, cr)]))
    /\ (table_entry p = None ->
        (forall pos, (1 <= pos < String.length p)%nat ->
                     valid_split p pos = None) ->
        morse_lookup_merged p out_len = (1, [(0, "?"%char)])).
Proof.
  intros p out_len Hlen Hout Hfree.
  pose proof (morse_lookup_merged_nonempty p out_len (proj1 Hlen)) as Hm.
  assert (E1 : (out_len <? 1) = false) by (apply Z.ltb_ge; lia).
  assert (E2 : (2 <=? out_len) = true) by (apply Z.leb_le; lia).
  split; [|split].
  - intros e He. rewrite Hm, morse_lookup_entry, He, E1.
    rewrite (table_entry_char p e He (proj1 Hfree)). reflexivity.
  - intros Hnone pos cl cr w (Hpos & Hv & Hmax & Hearly).
    rewrite Hm, morse_lookup_entry, Hnone, E1.
    change (negb (Ascii.eqb "?" "?")) with false. cbv iota.
    destruct (Z.of_nat (String.length p) <=? 1) eqn:E3;
      [apply Z.leb_le in E3; lia|].
    pose proof (split_loop_best p Hfree ltac:(lia)) as Hbest.
    destruct Hbest as [[_ Hno] | (posb & Hpb & Hvb & Hmaxb & Hearlyb)].
    { rewrite Hno in Hv by exact Hpos. discriminate. }
    destruct (split_loop p) as [[bw bl] br]. cbn [fst] in *.
    pose proof (Hmaxb pos _ Hpos Hv) as H1. cbn [fst] in H1.
    pose proof (Hmax posb _ Hpb Hvb) as H2. cbn [fst] in H2.
    assert (posb = pos).
    { destruct (Nat.lt_trichotomy posb pos) as [Hlt | [Heq | Hgt]];
        [|exact Heq|].
      - specialize (Hearly posb _ ltac:(lia) Hvb). cbn [fst] in Hearly. lia.
      - specialize (Hearlyb pos _ ltac:(lia) Hv). cbn [fst] in Hearlyb. lia. }
    subst posb. rewrite Hv in Hvb. inversion Hvb. subst bw bl br.
    pose proof (valid_split_weight p pos _ Hv) as Hw. cbn [fst] in Hw.
    assert (E4 : (0 <=? w) = true) by (apply Z.leb_le; lia).
    rewrite E4, E2. reflexivity.
  - intros Hnone Hno. rewrite Hm, morse_lookup_entry, Hnone, E1.
    change (negb (Ascii.eqb "?" "?")) with false. cbv iota.
    destruct (Z.of_nat (String.length p) <=? 1) eqn:E3; [reflexivity|].
    apply Z.leb_gt in E3.
    pose proof (split_loop_best p Hfree ltac:(lia)) as Hbest.
    destruct Hbest as [[-> _] | (posb & Hpb & Hvb & _)].
    + reflexivity.
    + rewrite Hno in Hvb by exact Hpb. discriminate.
Qed.

(** [merged_lookup_as_specified] at ".-.-": no entry of its own, and of
    its splits E+K (338), A+A (254) and R+T (320) the first is chosen. *)
Lemma merged_lookup_as_specified_witness :
  morse_lookup_merged ".-.-" 2 = (2, [(0, "E"%char); (1, "K"%char)]).
Proof.
  assert (Hfree : question_mark_free ".-.-").
  { split; [discriminate|]. intros pos.
    do 5 (try (destruct pos as [|pos])); split; discriminate. }
  assert (Hsplit : chosen_split ".-.-" 1 (338, "E"%char, "K"%char)).
  { split; [cbn; lia|]. split; [reflexivity|]. split.
    - intros pos' b' Hpos. cbn in Hpos.
      do 4 (try (destruct pos' as [|pos'])); try lia;
        intros H; vm_compute in H; inversion H; cbn; lia.
    - intros pos' b' Hpos. lia. }
  refine (proj1 (proj2 (merged_lookup_as_specified ".-.-" 2 _ _ Hfree))
            eq_refl 1%nat "E"%char "K"%char 338 Hsplit).
  - cbn; lia.
  - lia.
Defined.

(** ** Window size of the moving average *)

(** C's [w % 2 == 0] on the parity of [w]. *)
Lemma rem2_even : forall w, (Z.rem w 2 =? 0) = Z.even w.
Proof.
  intros w.
  pose proof (Z.quot_rem' w 2) as Hq.
  assert (Hb : -2 < Z.rem w 2 < 2).
  { pose proof (Z.rem_bound_abs w 2). lia. }
  rewrite Hq at 2. rewrite Z.add_comm, Z.even_add_mul_2.
  assert (Hc : Z.rem w 2 = -1 \/ Z.rem w 2 = 0 \/ Z.rem w 2 = 1) by lia.
  destruct Hc as [-> | [-> | ->]]; reflexivity.
Qed.

Lemma odd_fix_odd :
  forall w, Z.odd (if Z.rem w 2 =? 0 then w + 1 else w) = true.
Proof.
  intros w. rewrite rem2_even. destruct (Z.even w) eqn:E.
  - rewrite Z.add_1_r, Z.odd_succ. exact E.
  - rewrite <- Z.negb_even, E. reflexivity.
Qed.

Lemma multipass_init_window_range :
  forall w, let M := multipass_init_window w in
            Z.odd M = true /\ 3 <= M <= 257.
Proof.
  intros w M. subst M. unfold multipass_init_window, MULTIPASS_MAX_WINDOW.
  split; [apply odd_fix_odd|].
  destruct (w <? 3) eqn:E1; [cbn; lia|]. apply Z.ltb_ge in E1.
  destruct (256 <? w) eqn:E2; [cbn; lia|]. apply Z.ltb_ge in E2.
  destruct (Z.rem w 2 =? 0); lia.
Qed.

Lemma envelope_window_range :
  forall w, let v := envelope_window w in
            Z.odd v = true /\ 5 <= v /\ (w <= 255 -> v <= 255).
Proof.
  intros w v. subst v. unfold envelope_window.
  split; [apply odd_fix_odd|].
  destruct (w <? 5) eqn:E1; [cbn; lia|]. apply Z.ltb_ge in E1.
  destruct (Z.rem w 2 =? 0) eqn:E3; [|lia].
  rewrite rem2_even in E3. split; [lia|]. intros Hle.
  assert (w <> 255) by (intro Hw; subst w; discriminate E3). lia.
Qed.

Lemma envelope_window_ge : forall w, w <= envelope_window w.
Proof.
  intros w. unfold envelope_window.
  destruct (w <? 5) eqn:E5.
  - apply Z.ltb_lt in E5. change (Z.rem 5 2 =? 0) with false. cbv iota. lia.
  - destruct (Z.rem w 2 =? 0); lia.
Qed.

(** What does hold of the window an envelope detector ends up with: it is
    odd, at least 5 and at most 257; it stays within 255 exactly when the
    request does. *)
Lemma envelope_init_window_range :
  forall w, let M := envelope_init_window w in
            Z.odd M = true /\ 5 <= M <= 257 /\ (w <= 255 <-> M <= 255).
Proof.
  intros w M. subst M. unfold envelope_init_window.
  pose proof (multipass_init_window_range (envelope_window w)) as [Ho Hr].
  pose proof (envelope_window_range w) as (Hodd & H5 & H255).
  pose proof (envelope_window_ge w) as Hw.
  split; [exact Ho|]. clear Ho Hr.
  cbv zeta in Hodd, H5, H255.
  unfold multipass_init_window, MULTIPASS_MAX_WINDOW.
  remember (envelope_window w) as v eqn:Hv. clear Hv.
  destruct (v <? 3) eqn:E1; [apply Z.ltb_lt in E1; lia|].
  destruct (256 <? v) eqn:E2.
  - apply Z.ltb_lt in E2. change (Z.rem 256 2 =? 0) with true.
    cbv iota. change (256 + 1) with 257. lia.
  - apply Z.ltb_ge in E2.
    destruct (Z.rem v 2 =? 0) eqn:E3.
    + rewrite rem2_even in E3. rewrite <- Z.negb_even, E3 in Hodd.
      discriminate.
    + assert (v <> 256).
      { intro Hv. rewrite Hv in E3. discriminate E3. }
      lia.
Qed.

(** C4 (the code departs from the claim): a request of 256 or more is
    clamped to [MULTIPASS_MAX_WINDOW = 256] first and made odd afterwards,
    which gives 257, above both the claim's 255 and the code's own
    maximum. *)
Theorem window_request_256_gives_257 :
  MULTIPASS_MAX_WINDOW = 256
  /\ multipass_init_window 256 = 257
  /\ envelope_init_window 256 = 257
  /\ envelope_init_window 1000 = 257.
Proof. repeat split. Qed.

(** ** Stores stay inside the output buffer *)

Lemma memcpy_stores_app :
  forall l1 l2 base,
    memcpy_stores base (l1 ++ l2)
    = memcpy_stores base l1
      ++ memcpy_stores (base + Z.of_nat (List.length l1)) l2.
Proof.
  induction l1 as [|c l1 IH]; intros l2 base.
  - cbn. rewrite Z.add_0_r. reflexivity.
  - cbn [memcpy_stores app List.length]. rewrite IH.
    replace (base + Z.of_nat (S (List.length l1)))
      with (base + 1 + Z.of_nat (List.length l1)) by lia.
    reflexivity.
Qed.

Lemma shift_memcpy_stores :
  forall l k base,
    shift_stores k (memcpy_stores base l) = memcpy_stores (k + base) l.
Proof.
  induction l as [|c l IH]; intros k base.
  - reflexivity.
  - cbn [memcpy_stores shift_stores map fst snd].
    f_equal. fold (shift_stores k (memcpy_stores (base + 1) l)).
    rewrite IH. f_equal. lia.
Qed.

Lemma stored_bytes_memcpy :
  forall l base, stored_bytes (memcpy_stores base l) = l.
Proof.
  induction l as [|c l IH]; intros base; [reflexivity|].
  cbn. f_equal. apply IH.
Qed.

Lemma memcpy_stores_within :
  forall l base out_len,
    0 <= base -> base + Z.of_nat (List.length l) <= out_len ->
    stores_within out_len (memcpy_stores base l).
Proof.
  induction l as [|c l IH]; intros base out_len Hb Hl.
  - constructor.
  - cbn [memcpy_stores]. constructor.
    + cbn [fst List.length] in *. lia.
    + apply IH; cbn [List.length] in *; lia.
Qed.

Lemma buffer_at_memcpy_before :
  forall l base i, i < base -> buffer_at (memcpy_stores base l) i = None.
Proof.
  induction l as [|c l IH]; intros base i Hi; [reflexivity|].
  cbn [memcpy_stores buffer_at]. rewrite IH by lia.
  destruct (base =? i) eqn:E; [apply Z.eqb_eq in E; lia|reflexivity].
Qed.

Lemma buffer_at_cons_other :
  forall j c tl i, j <> i -> buffer_at ((j, c) :: tl) i = buffer_at tl i.
Proof.
  intros j c tl i H. cbn [buffer_at].
  destruct (buffer_at tl i); [reflexivity|].
  destruct (j =? i) eqn:E; [apply Z.eqb_eq in E; contradiction|reflexivity].
Qed.

Lemma buffer_read_memcpy_from :
  forall l base,
    map (fun k => match buffer_at (memcpy_stores base l) (base + Z.of_nat k)
                  with Some c => c | None => zero end)
        (seq 0 (List.length l)) = l.
Proof.
  induction l as [|c l IH]; intros base; [reflexivity|].
  cbn [List.length seq map memcpy_stores]. f_equal.
  - cbn [buffer_at]. rewrite buffer_at_memcpy_before by lia.
    replace (base + Z.of_nat 0) with base by lia.
    rewrite Z.eqb_refl. reflexivity.
  - rewrite <- seq_shift, map_map. rewrite <- (IH (base + 1)) at 2.
    apply map_ext. intros k.
    rewrite buffer_at_cons_other by lia.
    replace (base + Z.of_nat (S k)) with (base + 1 + Z.of_nat k) by lia.
    reflexivity.
Qed.

(** Reading back what sequential stores left gives the bytes stored. *)
Lemma buffer_read_memcpy :
  forall l, buffer_read (memcpy_stores 0 l) (Z.of_nat (List.length l)) = l.
Proof.
  intros l. unfold buffer_read, zrange. rewrite Nat2Z.id, map_map.
  exact (buffer_read_memcpy_from l 0).
Qed.

Lemma wrote_bounds :
  forall out_len n ss,
    wrote out_len n ss ->
    0 <= n <= out_len /\ stores_within out_len ss
    /\ buffer_read ss n = stored_bytes ss.
Proof.
  intros out_len n ss (bytes & -> & -> & Hle).
  split; [lia|]. split.
  - apply memcpy_stores_within; lia.
  - rewrite buffer_read_memcpy, stored_bytes_memcpy. reflexivity.
Qed.

Lemma wrote_nil : forall out_len, 0 <= out_len -> wrote out_len 0 [].
Proof. intros out_len H. exists []. repeat split. exact H. Qed.

Lemma wrote_zero_nil : forall out_len ss, wrote out_len 0 ss -> ss = [].
Proof.
  intros out_len ss (bytes & -> & Hn & _).
  destruct bytes; [reflexivity | cbn in Hn; lia].
Qed.

Lemma wrote_app :
  forall out_len n m ss ss',
    wrote out_len n ss -> wrote (out_len - n) m ss' ->
    wrote out_len (n + m) (ss ++ shift_stores n ss').
Proof.
  intros out_len n m ss ss' (b1 & -> & -> & H1) (b2 & -> & -> & H2).
  exists (b1 ++ b2). rewrite memcpy_stores_app, shift_memcpy_stores.
  rewrite length_app, Nat2Z.inj_add.
  replace (0 + Z.of_nat (List.length b1)) with (Z.of_nat (List.length b1) + 0) by lia.
  repeat split. lia.
Qed.

Lemma wrote_snoc :
  forall out_len n ss c,
    wrote out_len n ss -> n < out_len ->
    wrote out_len (n + 1) (ss ++ [(n, c)]).
Proof.
  intros out_len n ss c H Hlt.
  replace [(n, c)] with (shift_stores n (memcpy_stores 0 [c])).
  - apply wrote_app; [exact H|]. exists [c]. repeat split. cbn. lia.
  - cbn. rewrite Z.add_0_r. reflexivity.
Qed.

Lemma morse_lookup_merged_wrote :
  forall p out_len,
    0 <= out_len ->
    wrote out_len (fst (morse_lookup_merged p out_len))
          (snd (morse_lookup_merged p out_len)).
Proof.
  intros p out_len H0. unfold morse_lookup_merged.
  destruct p as [|a p]; [apply wrote_nil; exact H0|].
  destruct (out_len <? 1) eqn:E1; [apply wrote_nil; exact H0|].
  apply Z.ltb_ge in E1.
  destruct (negb _).
  { exists [morse_lookup (String a p)]. repeat split. cbn. lia. }
  destruct (_ <=? 1).
  { exists ["?"%char]. repeat split. cbn. lia. }
  destruct (split_loop (String a p)) as [[bw bl] br].
  destruct (0 <=? bw); cbn [andb].
  - destruct (2 <=? out_len) eqn:E2.
    + apply Z.leb_le in E2. exists [bl; br]. repeat split. cbn. lia.
    + exists ["?"%char]. repeat split. cbn. lia.
  - exists ["?"%char]. repeat split. cbn. lia.
Qed.

Lemma copy_word_wrote :
  forall f out_len,
    0 <= out_len ->
    wrote out_len (fst (copy_word f out_len)) (snd (copy_word f out_len)).
Proof.
  intros f out_len H0. unfold copy_word, word_len. cbn [fst snd].
  set (n := if out_len <? _ then out_len else _).
  assert (Hn : 0 <= n <= out_len /\ n <= Z.of_nat (List.length (word_buf f))).
  { subst n. destruct (out_len <? _) eqn:E;
      [apply Z.ltb_lt in E | apply Z.ltb_ge in E]; lia. }
  exists (firstn (Z.to_nat n) (word_buf f)).
  repeat split; [|lia].
  rewrite length_firstn. lia.
Qed.

Lemma emit_word_wrote :
  forall f out_len,
    0 <= out_len ->
    wrote out_len (fst (fst (emit_word f out_len)))
          (snd (fst (emit_word f out_len))).
Proof.
  intros f out_len H0. unfold emit_word.
  pose proof (copy_word_wrote f out_len H0) as Hc.
  destruct (copy_word f out_len) as [n ss].
  destruct (word_len f =? 0); [apply wrote_nil; exact H0|].
  destruct (negb _); [exact Hc|].
  destruct (_ && _); [apply wrote_nil; exact H0 | exact Hc].
Qed.

Lemma feed_loop_wrote :
  forall text f out_len written ss,
    wrote out_len written ss ->
    wrote out_len (fst (fst (feed_loop f text out_len written ss)))
          (snd (fst (feed_loop f text out_len written ss))).
Proof.
  induction text as [|c rest IH]; intros f out_len written ss Hw.
  - exact Hw.
  - cbn [feed_loop].
    destruct (written <? out_len) eqn:Elt; [|exact Hw].
    apply Z.ltb_lt in Elt.
    destruct (Ascii.eqb c " ").
    + pose proof (emit_word_wrote f (out_len - written) ltac:(lia)) as He.
      destruct (emit_word f (out_len - written)) as [[n ws] f'].
      cbn [fst snd] in He.
      pose proof (wrote_app _ _ _ _ _ Hw He) as Happ.
      destruct (0 <? n) eqn:En.
      * destruct (written + n <? out_len) eqn:Es.
        -- apply Z.ltb_lt in Es. apply IH. apply wrote_snoc; assumption.
        -- apply IH. exact Happ.
      * apply Z.ltb_ge in En.
        assert (n = 0) by (destruct He as (b & _ & -> & _); lia). subst n.
        rewrite (wrote_zero_nil _ _ He). cbn [shift_stores map].
        rewrite app_nil_r. apply IH. exact Hw.
    + apply IH. exact Hw.
Qed.

Lemma output_filter_feed_wrote :
  forall f text out_len,
    0 <= out_len ->
    wrote out_len (fst (fst (output_filter_feed f text out_len)))
          (snd (fst (output_filter_feed f text out_len))).
Proof.
  intros f text out_len H0. apply feed_loop_wrote, wrote_nil, H0.
Qed.

(** ** Properties that hold in every arithmetic *)

Section AnyArithmetic.
Context {FO : FloatOps}.

(** *** Kalman update: rejected measurements *)

(** [kalman_init] sets the innovation gate to [M_LN2]. *)
Lemma kalman_init_gate :
  forall sr wpm mn mx, k_innovation_gate (kalman_init sr wpm mn mx) = M_LN2.
Proof. reflexivity. Qed.

(** [kalman_update] leaves the innovation gate as it finds it, whether
    the measurement is accepted or not. *)
Lemma kalman_update_gate :
  forall k i D,
    k_innovation_gate (snd (kalman_update k i D)) = k_innovation_gate k.
Proof.
  intros k i D. unfold kalman_update.
  repeat match goal with
         | |- context [if ?b then _ else _] => destruct b
         end; reflexivity.
Qed.

(** C6: for a valid state index and a positive duration whose innovation
    [|ln D - x_i|] exceeds the gate [ln 2] that [kalman_init] installs,
    [kalman_update] returns 0 and the filter, state vector and covariance
    included, is exactly what it was. *)
Theorem kalman_update_gate_rejects :
  forall (k : kalman_t) (i : Z) (D : float),
    k_innovation_gate k = M_LN2 ->
    0 <= i < KALMAN_STATES ->
    (D >? fzero)%fl = true ->
    (fabsf (logf D - fget (k_x k) i) >? M_LN2)%fl = true ->
    kalman_update k i D = (0, k).
Proof.
  intros k i D Hgate Hi _ Hout. unfold kalman_update.
  rewrite Hgate, Hout.
  repeat match goal with
         | |- context [if ?b then _ else _] => destruct b
         end; reflexivity.
Qed.

(** C10: a state index outside [0, 5), or a duration that is not positive,
    makes [kalman_update] return 0 with the filter exactly as it was. *)
Theorem kalman_update_rejects_bad_input :
  forall (k : kalman_t) (i : Z) (D : float),
    (i < 0 \/ KALMAN_STATES <= i) \/ (D <=? fzero)%fl = true ->
    kalman_update k i D = (0, k).
Proof.
  intros k i D H. unfold kalman_update.
  destruct H as [[Hi | Hi] | HD].
  - apply Z.ltb_lt in Hi. rewrite Hi. reflexivity.
  - apply Z.leb_le in Hi. rewrite Hi, orb_true_r. reflexivity.
  - rewrite HD. destruct (_ || _); reflexivity.
Qed.

(** *** Timing: the two edges of one sample *)

(** Classifying a mark leaves [prev_on] alone. *)
Lemma classify_signal_prev_on :
  forall t dur, t_prev_on (snd (classify_signal t dur)) = t_prev_on t.
Proof.
  intros t dur. unfold classify_signal.
  destruct (t_mode t).
  - unfold classify_signal_ema.
    repeat match goal with
           | |- context [if ?b then _ else _] => destruct b
           end; reflexivity.
  - unfold classify_signal_kalman.
    repeat match goal with
           | |- context [if ?b then _ else _] => destruct b
           end; reflexivity.
Qed.

Lemma mark_block_prev_on :
  forall r t on, t_prev_on (snd (mark_block r t on)) = t_prev_on t.
Proof.
  intros r t on. unfold mark_block.
  destruct (mark_edge t on); [|reflexivity].
  pose proof (classify_signal_prev_on t (t_on_dur t)) as H.
  destruct (classify_signal t (t_on_dur t)) as [r' t']. exact H.
Qed.

(** C9: in one call of [timing_process_sample] the test of the ON -> OFF
    block and the test of the OFF -> ON block, each taken on the state it
    is evaluated in, never both succeed.  So when the mark block runs, the
    call returns what the mark classification returned (DIT, DAH or NONE)
    and the gap block changes nothing; and when the gap block runs, the
    mark block has produced no result for it to override. *)
Theorem timing_edges_exclusive :
  forall (t : timing_t) (on : Z),
    let t0 := count_sample t on in
    let mark := mark_block ELEM_NONE t0 on in
    (mark_edge t0 on && gap_edge (snd mark) on = false)
    /\ (mark_edge t0 on = true ->
        timing_process_sample t on = (fst mark, set_prev_on (snd mark) on))
    /\ (gap_edge (snd mark) on = true -> mark = (ELEM_NONE, t0)).
Proof.
  intros t on t0 mark.
  assert (Hp : t_prev_on (snd mark) = t_prev_on t0)
    by apply mark_block_prev_on.
  assert (Hex : mark_edge t0 on && gap_edge (snd mark) on = false).
  { unfold mark_edge, gap_edge. rewrite Hp.
    destruct (t_prev_on t0 =? 0), (on =? 0); reflexivity. }
  split; [exact Hex|]. split.
  - intros Hm. rewrite Hm in Hex. cbn in Hex.
    unfold timing_process_sample. fold t0. fold mark.
    destruct mark as [r1 t1]. cbn [fst snd] in *.
    unfold gap_block. rewrite Hex. reflexivity.
  - intros Hg. rewrite Hg, andb_true_r in Hex.
    subst mark. unfold mark_block. rewrite Hex. reflexivity.
Qed.

(** *** Output filter: the warm-up latch *)

Lemma emit_word_warmed :
  forall f out_len,
    warmed_up f <> 0 ->
    warmed_up (snd (emit_word f out_len)) = warmed_up f.
Proof.
  intros f out_len Hw. unfold emit_word.
  destruct (word_len f =? 0); [reflexivity|].
  apply Z.eqb_neq in Hw. rewrite Hw. reflexivity.
Qed.

Lemma feed_loop_warmed :
  forall text f out_len written ss,
    warmed_up f <> 0 ->
    warmed_up (snd (feed_loop f text out_len written ss)) = warmed_up f.
Proof.
  induction text as [|c rest IH]; intros f out_len written ss Hw.
  - reflexivity.
  - cbn [feed_loop].
    destruct (written <? out_len); [|reflexivity].
    destruct (Ascii.eqb c " ").
    + pose proof (emit_word_warmed f (out_len - written) Hw) as He.
      destruct (emit_word f (out_len - written)) as [[n ws] f'].
      cbn [snd] in He.
      match goal with
      | |- context [feed_loop ?g rest out_len _ _] =>
          assert (Hg : warmed_up g = warmed_up f) by exact He
      end.
      destruct (0 <? n); [destruct (written + n <? out_len)|];
        rewrite IH; cbn [warmed_up]; congruence.
    + destruct (word_len f <? OUTPUT_FILTER_MAX_WORD - 1);
        rewrite IH; cbn [warmed_up]; congruence.
Qed.

(** The latch: feeds and flushes, in any number and order, keep a set
    [warmed_up]; a reset clears it. *)
Lemma warmed_up_latched :
  forall (calls : list filter_call) (f : output_filter_t),
    warmed_up f <> 0 ->
    forallb (fun c => negb (is_reset c)) calls = true ->
    warmed_up (fold_left filter_call_run calls f) = warmed_up f.
Proof.
  induction calls as [|c calls IH]; intros f Hw Hc.
  - reflexivity.
  - cbn [forallb] in Hc. apply andb_true_iff in Hc as [Hc1 Hc2].
    cbn [fold_left].
    assert (Hstep : warmed_up (filter_call_run f c) = warmed_up f).
    { destruct c as [text out_len | out_len |]; cbn [filter_call_run].
      - apply feed_loop_warmed. exact Hw.
      - unfold output_filter_flush.
        pose proof (emit_word_warmed f out_len Hw) as He.
        destruct (emit_word f out_len) as [[n ws] f']. exact He.
      - discriminate Hc1. }
    rewrite IH; [exact Hstep | rewrite Hstep; exact Hw | exact Hc2].
Qed.

Lemma emit_word_warmed_copy :
  forall f out_len,
    warmed_up f <> 0 -> 0 <= out_len ->
    emit_word f out_len
    = (Z.min (word_len f) out_len,
       memcpy_stores 0
         (firstn (Z.to_nat (Z.min (word_len f) out_len)) (word_buf f)),
       f).
Proof.
  intros f out_len Hw H0. unfold emit_word.
  destruct (word_len f =? 0) eqn:E0.
  - apply Z.eqb_eq in E0. rewrite E0, Z.min_l by lia. reflexivity.
  - apply Z.eqb_neq in Hw. rewrite Hw. cbn [negb]. unfold copy_word.
    destruct (out_len <? word_len f) eqn:E;
      [apply Z.ltb_lt in E; rewrite Z.min_r by lia
      |apply Z.ltb_ge in E; rewrite Z.min_l by lia]; reflexivity.
Qed.

(** C8, as the claim states it, fails in its last part: a warmed-up
    filter holding the word SOS and given room for two bytes emits SO,
    by [output_filter_flush] and by [output_filter_feed] alike, and
    forgets the word. *)
Lemma warmed_up_word_cut_at_out_len :
  let f := mk_filter ["S"; "O"; "S"]%char 1 2 in
  output_filter_flush f 2
  = (2, [(0, "S"%char); (1, "O"%char)], mk_filter [] 1 2)
  /\ output_filter_feed f [" "%char] 2
     = (2, [(0, "S"%char); (1, "O"%char)], mk_filter [] 1 2).
Proof. split; reflexivity. Qed.

(** The characters of a word pile up in [word_buf] as long as it has
    room. *)
Lemma feed_loop_word :
  forall w f rest out_len written ss,
    written < out_len ->
    Forall (fun c => c <> " "%char) w ->
    word_len f + Z.of_nat (List.length w) <= 63 ->
    feed_loop f (w ++ rest) out_len written ss
    = feed_loop (mk_filter (word_buf f ++ w) (warmed_up f) (min_word_length f))
                rest out_len written ss.
Proof.
  induction w as [|c w IH]; intros f rest out_len written ss Hw Hs Hl.
  - rewrite app_nil_r. destruct f; reflexivity.
  - inversion Hs as [|? ? Hc Hs']; subst.
    cbn [app feed_loop].
    assert (E : (written <? out_len) = true) by (apply Z.ltb_lt; lia).
    rewrite E.
    assert (Ec : Ascii.eqb c " " = false) by (apply Ascii.eqb_neq; exact Hc).
    rewrite Ec.
    cbn [List.length] in Hl.
    assert (El : (word_len f <? OUTPUT_FILTER_MAX_WORD - 1) = true)
      by (apply Z.ltb_lt; unfold OUTPUT_FILTER_MAX_WORD; lia).
    rewrite El. rewrite IH; [|exact Hw|exact Hs'|].
    + cbn [word_buf warmed_up min_word_length].
      rewrite <- app_assoc. reflexivity.
    + unfold word_len in *. cbn [word_buf]. rewrite length_app.
      cbn [List.length]. lia.
Qed.

(** What a warmed-up filter writes when flushed. *)
Lemma output_filter_flush_warmed :
  forall f out_len,
    warmed_up f <> 0 -> 0 <= out_len ->
    output_filter_flush f out_len
    = (Z.min (word_len f) out_len,
       memcpy_stores 0
         (firstn (Z.to_nat (Z.min (word_len f) out_len)) (word_buf f)),
       mk_filter [] (warmed_up f) (min_word_length f)).
Proof.
  intros f out_len Hw H0. unfold output_filter_flush.
  rewrite emit_word_warmed_copy by assumption. reflexivity.
Qed.

(** What a warmed-up filter writes when fed the rest of a word and the
    space that ends it. *)
Lemma output_filter_feed_warmed :
  forall f w out_len,
    warmed_up f <> 0 ->
    Forall (fun c => c <> " "%char) w ->
    0 < word_len f + Z.of_nat (List.length w) <= 63 ->
    0 < out_len ->
    output_filter_feed f (w ++ [" "%char]) out_len
    = let word := (word_buf f ++ w)%list in
      let cleared := mk_filter [] (warmed_up f) (min_word_length f) in
      if Z.of_nat (List.length word) <? out_len
      then (Z.of_nat (List.length word) + 1,
            memcpy_stores 0 (word ++ [" "%char]), cleared)
      else (out_len, memcpy_stores 0 (firstn (Z.to_nat out_len) word),
            cleared).
Proof.
  intros f w out_len Hw Hs Hl Ho. unfold output_filter_feed.
  rewrite feed_loop_word; [|lia|exact Hs|lia].
  cbn [feed_loop].
  assert (E : (0 <? out_len) = true) by (apply Z.ltb_lt; lia).
  rewrite E. cbn [Ascii.eqb Bool.eqb]. rewrite Z.sub_0_r.
  set (g := mk_filter (word_buf f ++ w) (warmed_up f) (min_word_length f)).
  assert (Hg : word_len g = Z.of_nat (List.length (word_buf f ++ w)))
    by reflexivity.
  assert (Hlen : Z.of_nat (List.length (word_buf f ++ w))
                 = word_len f + Z.of_nat (List.length w))
    by (unfold word_len; rewrite length_app; lia).
  rewrite (emit_word_warmed_copy g out_len) by (try exact Hw; lia).
  rewrite Hg. cbv zeta. cbn [app word_buf warmed_up min_word_length g].
  destruct (Z.of_nat (List.length (word_buf f ++ w)) <? out_len) eqn:E1.
  - apply Z.ltb_lt in E1. rewrite Z.min_l by lia.
    assert (E2 : (0 <? Z.of_nat (List.length (word_buf f ++ w))) = true)
      by (apply Z.ltb_lt; lia).
    rewrite E2.
    assert (E3 : (0 + Z.of_nat (List.length (word_buf f ++ w)) <? out_len)
                 = true) by (apply Z.ltb_lt; lia).
    rewrite E3. rewrite Nat2Z.id, firstn_all.
    rewrite shift_memcpy_stores.
    rewrite (memcpy_stores_app (word_buf f ++ w) [" "%char]).
    cbn [memcpy_stores]. rewrite !Z.add_0_l. reflexivity.
  - apply Z.ltb_ge in E1. rewrite Z.min_r by lia.
    assert (E2 : (0 <? out_len) = true) by (apply Z.ltb_lt; lia).
    rewrite E2.
    assert (E3 : (0 + out_len <? out_len) = false) by (apply Z.ltb_ge; lia).
    rewrite E3. rewrite shift_memcpy_stores, Z.add_0_l. reflexivity.
Qed.

(** C8 (amended): once [warmed_up] is set, no sequence of
    [output_filter_feed] and [output_filter_flush] calls, into buffers of
    any size from 0 up, clears it; [output_filter_reset] does.  While it
    is set the buffered word is written unfiltered, cut at [out_len] like
    every output: [output_filter_flush] writes its first
    [min(word_len, out_len)] bytes, the word verbatim whenever it fits;
    [output_filter_feed], given the rest of the word and the space that
    ends it, writes the word and the space verbatim when [out_len] is
    above the word's length, and the first [out_len] bytes of the word
    otherwise.  Either way the word buffer is empty afterwards. *)
Theorem warmed_up_latch :
  forall f : output_filter_t,
    warmed_up f <> 0 ->
    (forall calls,
        Forall filter_call_fits calls ->
        forallb (fun c => negb (is_reset c)) calls = true ->
        warmed_up (fold_left filter_call_run calls f) = warmed_up f)
    /\ warmed_up (output_filter_reset f) = 0
    /\ (forall out_len,
          0 <= out_len ->
          output_filter_flush f out_len
          = (Z.min (word_len f) out_len,
             memcpy_stores 0
               (firstn (Z.to_nat (Z.min (word_len f) out_len)) (word_buf f)),
             mk_filter [] (warmed_up f) (min_word_length f)))
    /\ (forall out_len,
          word_len f <= out_len ->
          output_filter_flush f out_len
          = (word_len f, memcpy_stores 0 (word_buf f),
             mk_filter [] (warmed_up f) (min_word_length f)))
    /\ (forall w out_len,
          Forall (fun c => c <> " "%char) w ->
          0 < word_len f + Z.of_nat (List.length w) <= 63 ->
          0 < out_len ->
          output_filter_feed f (w ++ [" "%char]) out_len
          = let word := (word_buf f ++ w)%list in
            let cleared := mk_filter [] (warmed_up f) (min_word_length f) in
            if Z.of_nat (List.length word) <? out_len
            then (Z.of_nat (List.length word) + 1,
                  memcpy_stores 0 (word ++ [" "%char]), cleared)
            else (out_len, memcpy_stores 0 (firstn (Z.to_nat out_len) word),
                  cleared)).
Proof.
  intros f Hw. split; [|split; [|split; [|split]]].
  - intros calls _ Hc. apply warmed_up_latched; assumption.
  - reflexivity.
  - intros out_len H0. apply output_filter_flush_warmed; assumption.
  - intros out_len Hle.
    assert (H0 : 0 <= out_len) by (unfold word_len in Hle; lia).
    rewrite output_filter_flush_warmed by assumption.
    rewrite Z.min_l by exact Hle. unfold word_len.
    rewrite Nat2Z.id, firstn_all. reflexivity.
  - intros w out_len Hs Hl Ho.
    apply output_filter_feed_warmed; assumption.
Qed.

Lemma warmed_up_latch_witness :
  let f := mk_filter ["S"; "O"; "S"]%char 1 2 in
  warmed_up
    (fold_left filter_call_run
       [Feed ["K"; " "; "C"; "Q"]%char 8; Flush 0; Feed [" "%char] 1] f) = 1
  /\ output_filter_flush f 3
     = (3, [(0, "S"%char); (1, "O"%char); (2, "S"%char)], mk_filter [] 1 2)
  /\ output_filter_feed f ["!"; " "]%char 8
     = (5, [(0, "S"); (1, "O"); (2, "S"); (3, "!"); (4, " ")]%char,
        mk_filter [] 1 2)
  /\ output_filter_feed f ["!"; " "]%char 3
     = (3, [(0, "S"); (1, "O"); (2, "S")]%char, mk_filter [] 1 2).
Proof.
  destruct (warmed_up_latch (mk_filter ["S"; "O"; "S"]%char 1 2))
    as (Hlatch & _ & _ & Hfit & Hfeed).
  - discriminate.
  - split; [|split; [|split]].
    + apply (Hlatch [Feed ["K"; " "; "C"; "Q"]%char 8; Flush 0;
                     Feed [" "%char] 1]); [|reflexivity].
      repeat (first [apply Forall_cons | apply Forall_nil | (cbn; lia)]).
    + exact (Hfit 3 ltac:(cbn; lia)).
    + apply (Hfeed ["!"%char] 8); [|cbn; lia|lia].
      repeat constructor; discriminate.
    + apply (Hfeed ["!"%char] 3); [|cbn; lia|lia].
      repeat constructor; discriminate.
Defined.

(** *** The decoder never writes past [out_len] *)

Lemma pattern_feed_wrote :
  forall dec elem out_len,
    0 <= out_len ->
    wrote out_len (fst (fst (pattern_feed dec elem out_len)))
          (snd (fst (pattern_feed dec elem out_len))).
Proof.
  intros dec elem out_len H0. unfold pattern_feed.
  destruct (_ || _); [apply wrote_nil; exact H0|].
  destruct (_ || _); [|apply wrote_nil; exact H0].
  destruct (0 <? pattern_len dec).
  - pose proof (morse_lookup_merged_wrote (dec_pattern dec) (out_len - 0)
                  ltac:(lia)) as Hm.
    destruct (morse_lookup_merged (dec_pattern dec) (out_len - 0)) as [n ss].
    cbn [fst snd] in Hm.
    pose proof (wrote_app out_len 0 n [] ss (wrote_nil _ H0) Hm) as Ha.
    cbn [app] in Ha.
    destruct ((elem =? ELEM_WORD) && (0 + n <? out_len)) eqn:E.
    + apply andb_true_iff in E as [_ E]. apply Z.ltb_lt in E.
      cbn [fst snd]. apply wrote_snoc; assumption.
    + exact Ha.
  - destruct ((elem =? ELEM_WORD) && (0 <? out_len)) eqn:E.
    + apply andb_true_iff in E as [_ E]. apply Z.ltb_lt in E.
      cbn [fst snd]. apply (wrote_snoc out_len 0 []); [apply wrote_nil|]; lia.
    + apply wrote_nil. exact H0.
Qed.

Lemma pattern_flush_wrote :
  forall dec out_len,
    0 <= out_len ->
    wrote out_len (fst (fst (pattern_flush dec out_len)))
          (snd (fst (pattern_flush dec out_len))).
Proof.
  intros dec out_len H0. unfold pattern_flush.
  destruct (pattern_len dec <=? 0); [apply wrote_nil; exact H0|].
  pose proof (morse_lookup_merged_wrote (dec_pattern dec) out_len H0) as Hm.
  destruct (morse_lookup_merged (dec_pattern dec) out_len) as [n ss].
  exact Hm.
Qed.

Lemma feed_output_wrote :
  forall dec pat_n pat_ss out_len written ss,
    wrote out_len written ss ->
    wrote out_len
      (fst (fst (feed_output dec pat_n pat_ss out_len written ss)))
      (snd (fst (feed_output dec pat_n pat_ss out_len written ss))).
Proof.
  intros dec pat_n pat_ss out_len written ss Hw. unfold feed_output.
  destruct (0 <? pat_n); [|exact Hw].
  assert (H0 : 0 <= out_len - written)
    by (destruct Hw as (b & _ & -> & Hle); lia).
  pose proof (output_filter_feed_wrote (output dec)
                (buffer_read pat_ss pat_n) _ H0) as Hf.
  destruct (output_filter_feed _ _ _) as [[filt_n fss] f].
  cbn [fst snd] in *. apply wrote_app; assumption.
Qed.

Lemma sample_loop_wrote :
  forall on_off dec out_len total_written ss,
    wrote out_len total_written ss ->
    wrote out_len
      (fst (fst (sample_loop dec on_off out_len total_written ss)))
      (snd (fst (sample_loop dec on_off out_len total_written ss))).
Proof.
  induction on_off as [|on rest IH]; intros dec out_len tw ss Hw.
  - exact Hw.
  - cbn [sample_loop]. destruct (tw <? out_len); [|exact Hw].
    destruct (timing_process_sample (timing dec) on) as [elem t].
    destruct (elem =? ELEM_NONE); [apply IH; exact Hw|].
    destruct (pattern_feed (set_timing dec t) elem PAT_OUT_SIZE)
      as [[pat_n pat_ss] dec1].
    pose proof (feed_output_wrote dec1 pat_n pat_ss out_len tw ss Hw) as Hf.
    destruct (feed_output dec1 pat_n pat_ss out_len tw ss) as [[tw' ss'] dec2].
    apply IH. exact Hf.
Qed.

Lemma chunk_loop_wrote :
  forall chunks dec out_len total_written ss,
    wrote out_len total_written ss ->
    wrote out_len
      (fst (fst (chunk_loop dec chunks out_len total_written ss)))
      (snd (fst (chunk_loop dec chunks out_len total_written ss))).
Proof.
  induction chunks as [|chunk rest IH]; intros dec out_len tw ss Hw.
  - exact Hw.
  - cbn [chunk_loop]. destruct (tw <? out_len); [|exact Hw].
    destruct (front_end dec chunk) as [dec1 on_off].
    pose proof (sample_loop_wrote on_off dec1 out_len tw ss Hw) as Hs.
    destruct (sample_loop dec1 on_off out_len tw ss) as [[tw' ss'] dec2].
    apply IH. exact Hs.
Qed.

Lemma cw_decoder_process_wrote :
  forall dec audio out_len,
    0 <= out_len ->
    wrote out_len (fst (fst (cw_decoder_process dec audio out_len)))
          (snd (fst (cw_decoder_process dec audio out_len))).
Proof.
  intros dec audio out_len H0. unfold cw_decoder_process.
  destruct (_ || _); [apply wrote_nil; exact H0|].
  apply chunk_loop_wrote, wrote_nil, H0.
Qed.

Lemma cw_decoder_finalize_wrote :
  forall dec out_len,
    0 <= out_len ->
    wrote out_len (fst (fst (cw_decoder_finalize dec out_len)))
          (snd (fst (cw_decoder_finalize dec out_len))).
Proof.
  intros dec out_len H0. unfold cw_decoder_finalize.
  destruct (timing_finalize (timing dec)) as [elem t].
  assert (H1 : forall d,
             wrote out_len
               (fst (fst (if elem =? ELEM_NONE then (0, [], d) else
                          let '(pat_n, pat_ss, d') :=
                            pattern_feed d elem PAT_OUT_SIZE in
                          feed_output d' pat_n pat_ss out_len 0 [])))
               (snd (fst (if elem =? ELEM_NONE then (0, [], d) else
                          let '(pat_n, pat_ss, d') :=
                            pattern_feed d elem PAT_OUT_SIZE in
                          feed_output d' pat_n pat_ss out_len 0 [])))).
  { intros d. destruct (elem =? ELEM_NONE); [apply wrote_nil; exact H0|].
    destruct (pattern_feed d elem PAT_OUT_SIZE) as [[pat_n pat_ss] d'].
    apply feed_output_wrote, wrote_nil, H0. }
  specialize (H1 (set_timing dec t)).
  destruct (if elem =? ELEM_NONE then _ else _) as [[w1 ss1] dec1].
  cbn [fst snd] in H1.
  destruct (pattern_flush dec1 PAT_OUT_SIZE) as [[pat_n pat_ss] dec2].
  pose proof (feed_output_wrote dec2 pat_n pat_ss out_len w1 ss1 H1) as H2.
  destruct (feed_output dec2 pat_n pat_ss out_len w1 ss1) as [[w2 ss2] dec3].
  cbn [fst snd] in H2.
  assert (H3 : 0 <= out_len - w2)
    by (destruct H2 as (b & _ & -> & Hle); lia).
  unfold output_filter_flush.
  pose proof (emit_word_wrote (output dec3) (out_len - w2) H3) as He.
  destruct (emit_word (output dec3) (out_len - w2)) as [[n fss] f].
  cbn [fst snd] in *. apply wrote_app; assumption.
Qed.

(** C7: for every decoder, every audio input and every [out_len >= 0],
    [cw_decoder_process] and [cw_decoder_finalize] return a count
    [written] with [0 <= written <= out_len], and every store they make
    into [out] is at an index in [0, out_len). *)
Theorem decoder_output_within_out_len :
  forall (dec : cw_decoder_t) (audio : list float) (out_len : Z),
    0 <= out_len ->
    (let '(written, ss, _) := cw_decoder_process dec audio out_len in
     0 <= written <= out_len /\ stores_within out_len ss)
    /\ (let '(written, ss, _) := cw_decoder_finalize dec out_len in
        0 <= written <= out_len /\ stores_within out_len ss).
Proof.
  intros dec audio out_len H0. split.
  - pose proof (cw_decoder_process_wrote dec audio out_len H0) as H.
    destruct (cw_decoder_process dec audio out_len) as [[w ss] d].
    apply wrote_bounds in H. cbn [fst snd] in H. tauto.
  - pose proof (cw_decoder_finalize_wrote dec out_len H0) as H.
    destruct (cw_decoder_finalize dec out_len) as [[w ss] d].
    apply wrote_bounds in H. cbn [fst snd] in H. tauto.
Qed.

End AnyArithmetic.

(** ** Kalman update: accepted measurements *)

Section AcceptedUpdate.
Context {FO : FloatOps}.

(** What an accepted update leaves: the gain, the state and covariance
    loops, then the projection onto the bounds. *)
Lemma kalman_update_accepted :
  forall (k : kalman_t) (i : Z) (D : float),
    fst (kalman_update k i D) = 1 ->
    0 <= i < KALMAN_STATES
    /\ snd (kalman_update k i D)
       = let K := kalman_gain (k_P k) i (innovation_variance k i) in
         apply_bounds
           (set_P (set_x k (updated_x k K (logf D - fget (k_x k) i)%fl))
                  (updated_P k K i)).
Proof.
  intros k i D. unfold kalman_update.
  destruct (i <? 0) eqn:E1; [discriminate|].
  destruct (KALMAN_STATES <=? i) eqn:E2; [discriminate|].
  cbn [orb].
  destruct (D <=? fzero)%fl; [discriminate|].
  destruct (flt _ _); [discriminate|].
  intros _. apply Z.ltb_ge in E1. apply Z.leb_gt in E2.
  split; [lia | reflexivity].
Qed.

End AcceptedUpdate.

Section Clamped.
Context {FO : FloatOps}.
Hypothesis flt_irreflexive : forall x : float, (x <? x)%fl = false.

Lemma clamp_within :
  forall lo hi x : float,
    (hi <? lo)%fl = false -> within lo hi (clamp lo hi x).
Proof.
  intros lo hi x H. unfold within, clamp.
  destruct (x <? lo)%fl eqn:E1.
  - destruct (lo >? hi)%fl eqn:E2; [congruence|].
    split; [apply flt_irreflexive | exact E2].
  - destruct (x >? hi)%fl eqn:E2.
    + split; [exact H | apply flt_irreflexive].
    + split; assumption.
Qed.

Lemma apply_bounds_clamped :
  forall (k : kalman_t),
    List.length (k_x k) = 5%nat ->
    windows_ordered (apply_bounds k) ->
    clamped (apply_bounds k).
Proof.
  intros [x P Q R0 g sr mn mx] Hlen Hw.
  cbn [k_x] in Hlen.
  destruct x as [|x0 [|x1 [|x2 [|x3 [|x4 [|x5 x]]]]]]; try discriminate Hlen.
  unfold windows_ordered, clamped, apply_bounds, log_min, log_max in *.
  cbn [k_x k_max_wpm k_min_wpm k_sample_rate set_x] in *.
  unfold fget, K_DIT, K_DAH, K_ELEM_SPACE, K_CHAR_SPACE, K_WORD_SPACE in *.
  cbn [aget aset nset nth Z.ltb Z.compare Z.to_nat Pos.to_nat
       Pos.iter_op Nat.add] in *.
  set (ld := clamp _ _ x0) in *.
  destruct Hw as (Hd & H1 & H2 & H3).
  split; [apply clamp_within; exact Hd|].
  split; [apply clamp_within; exact H1|].
  split; [apply clamp_within; exact H2|].
  split; [apply clamp_within; exact H1|].
  apply clamp_within; exact H3.
Qed.


End Clamped.

(** *** Binary32 *)

(** In binary32 no value is below itself, a NaN included. *)
Lemma binary32_lt_irreflexive : forall x : spec_float, SFltb x x = false.
Proof.
  intros [s | s | | s m e]; try (destruct s; reflexivity); try reflexivity.
  unfold SFltb, SFcompare.
  destruct s; rewrite Z.compare_refl, Pos.compare_cont_refl; reflexivity.
Qed.

(** So the amended claim holds of the program as it computes, whatever
    the [logf] and [expf] of the C library return. *)
Lemma kalman_update_clamped_binary32 :
  forall (logf expf : spec_float -> spec_float)
         (k : @kalman_t (B32.ops logf expf)) (i : Z) (D : spec_float),
    fst (kalman_update k i D) = 1 ->
    windows_ordered (snd (kalman_update k i D)) ->
    clamped (snd (kalman_update k i D)).
Proof.
  intros logf expf k i D Hacc.
  destruct (kalman_update_accepted k i D Hacc) as [_ ->]. cbv zeta.
  intros Hw.
  apply (@apply_bounds_clamped (B32.ops logf expf) binary32_lt_irreflexive).
  - cbn [set_P set_x k_x]. unfold updated_x. rewrite length_map. reflexivity.
  - exact Hw.
Qed.

(** Symmetry is not kept in binary32: the Joseph loop sums the terms of
    [P_new[i][j]] and of [P_new[j][i]] in different orders.  On
    [Samples.correlated] an accepted measurement of the dit leaves
    [P[1][2]] and [P[2][1]] one unit in the last place apart. *)
Lemma binary32_update_loses_symmetry :
  forall (logf expf : spec_float -> spec_float) (D : spec_float),
    fst (kalman_update (Samples.correlated logf expf) 0 D) = 1 ->
    let P' := k_P (snd (kalman_update (Samples.correlated logf expf) 0 D)) in
    mget P' 1 2 = S754_finite false 16320877 (-34)
    /\ mget P' 2 1 = S754_finite false 16320878 (-34).
Proof.
  intros logf expf D Hacc.
  destruct (@kalman_update_accepted (B32.ops logf expf)
              (Samples.correlated logf expf) 0 D Hacc) as [_ ->].
  cbv zeta. change (k_P (apply_bounds ?k)) with (k_P k).
  cbn [set_P set_x k_P]. split; vm_compute; reflexivity.
Qed.

(** A NaN duration passes both tests of [kalman_update] and the gate,
    every comparison with a NaN being false. *)
Lemma binary32_nan_accepted :
  forall (log_f exp_f : spec_float -> spec_float)
         (k : @kalman_t (B32.ops log_f exp_f)) (i : Z),
    0 <= i < KALMAN_STATES ->
    log_f S754_nan = S754_nan ->
    fst (kalman_update k i S754_nan) = 1.
Proof.
  intros log_f exp_f k i Hi Hnan. unfold kalman_update.
  assert (E1 : (i <? 0) = false) by (apply Z.ltb_ge; lia).
  assert (E2 : (KALMAN_STATES <=? i) = false) by (apply Z.leb_gt; lia).
  rewrite E1, E2. cbn [orb].
  cbn [fle flt fsub fabsf logf B32.ops]. rewrite Hnan.
  cbn [SFleb SFcompare SFsub SFabs].
  destruct (k_innovation_gate k); reflexivity.
Qed.

(** *** On three accepted measurements

    The runs are in binary32 with [Samples.table_logf] for [logf]; every
    filter expects a dit of 2880 samples and is given one of 3000, or a
    NaN. *)




(** *** Over the reals: instances *)

Section ExactKalman.
Import KalmanSpec.
Local Open Scope R_scope.

Ltac exact_arith :=
  cbn [float flit f_of_int f_to_int fadd fsub fmul fdiv fabsf sqrtf logf expf
       flt fle M_PI M_LN2 Exact.ops] in *.

Lemma ltb_true : forall x y, Exact.ltb x y = true <-> x < y.
Proof.
  intros x y. unfold Exact.ltb.
  destruct (Rlt_dec x y); split; intros; try discriminate; auto; contradiction.
Qed.

Lemma ltb_false : forall x y, Exact.ltb x y = false <-> y <= x.
Proof.
  intros x y. unfold Exact.ltb.
  destruct (Rlt_dec x y); split; intros; try discriminate; auto; lra.
Qed.

Lemma leb_true : forall x y, Exact.leb x y = true <-> x <= y.
Proof.
  intros x y. unfold Exact.leb.
  destruct (Rle_dec x y); split; intros; try discriminate; auto; contradiction.
Qed.

(** A mark of 10000 samples is more than twice the 2880 the filter
    expects for a dit: outside the gate. *)
Lemma kalman_update_gate_rejects_witness :
  @kalman_update Exact.ops filter_20wpm 0 10000 = (0%Z, filter_20wpm).
Proof.
  apply (@kalman_update_gate_rejects Exact.ops filter_20wpm 0 10000).
  - reflexivity.
  - unfold KALMAN_STATES. lia.
  - apply ltb_true. unfold fzero. exact_arith. lra.
  - apply ltb_true.
    change (@fget Exact.ops (k_x filter_20wpm) 0)
      with (ln (12 / 10 / (20 / 1) * 48000)).
    exact_arith.
    replace (12 / 10 / (20 / 1) * 48000) with 2880 by lra.
    replace 10000 with (2880 * (10000 / 2880)) by lra.
    rewrite ln_mult by lra.
    replace (ln 2880 + ln (10000 / 2880) - ln 2880)
      with (ln (10000 / 2880)) by lra.
    apply Rlt_le_trans with (ln (10000 / 2880)); [|apply Rle_abs].
    apply ln_increasing; lra.
Defined.

Lemma kalman_update_rejects_bad_input_witness :
  @kalman_update Exact.ops filter_20wpm 5 2880 = (0%Z, filter_20wpm)
  /\ @kalman_update Exact.ops filter_20wpm 0 (-1) = (0%Z, filter_20wpm).
Proof.
  split.
  - apply (@kalman_update_rejects_bad_input Exact.ops filter_20wpm 5 2880).
    left. right. unfold KALMAN_STATES. lia.
  - apply (@kalman_update_rejects_bad_input Exact.ops filter_20wpm 0 (-1)).
    right. apply leb_true. unfold fzero. exact_arith. lra.
Defined.

End ExactKalman.

(** ** Chunk-boundary independence of the output stages *)

Section ChunkIndependence.
Context {FO : FloatOps}.

Local Abbreviation len l := (Z.of_nat (List.length l)) (only parsing).

(** *** With room to spare the bounded functions are the unbounded ones *)

Lemma copy_word_exact :
  forall f out_len,
    word_len f <= out_len ->
    copy_word f out_len = (word_len f, memcpy_stores 0 (word_buf f)).
Proof.
  intros f out_len Hle. unfold copy_word.
  destruct (out_len <? word_len f) eqn:E; [apply Z.ltb_lt in E; lia|].
  unfold word_len. rewrite Nat2Z.id, firstn_all. reflexivity.
Qed.

Lemma emit_word_exact :
  forall f out_len,
    len (fst (emit_word_all f)) <= out_len ->
    emit_word f out_len
    = (len (fst (emit_word_all f)),
       memcpy_stores 0 (fst (emit_word_all f)),
       snd (emit_word_all f)).
Proof.
  intros f out_len. unfold emit_word, emit_word_all.
  destruct (word_len f =? 0); [reflexivity|].
  destruct (negb _).
  { cbn [fst snd]. intros H. rewrite copy_word_exact by exact H. reflexivity. }
  destruct (_ && _); [reflexivity|].
  cbn [fst snd]. intros H. rewrite copy_word_exact by exact H. reflexivity.
Qed.

Lemma feed_loop_exact :
  forall text f out_len written ss,
    0 <= written ->
    written + len (fst (feed_all f text)) < out_len ->
    feed_loop f text out_len written ss
    = (written + len (fst (feed_all f text)),
       ss ++ memcpy_stores written (fst (feed_all f text)),
       snd (feed_all f text)).
Proof.
  induction text as [|c rest IH]; intros f out_len written ss H0 Hroom.
  - cbn. rewrite Z.add_0_r, app_nil_r. reflexivity.
  - cbn [feed_loop feed_all] in *.
    assert (Hlt : (written <? out_len) = true) by (apply Z.ltb_lt; lia).
    rewrite Hlt.
    destruct (Ascii.eqb c " ").
    + pose proof (emit_word_exact f (out_len - written)) as He.
      destruct (emit_word_all f) as [w f1].
      destruct (feed_all (mk_filter [] (warmed_up f1) (min_word_length f1))
                         rest) as [more f2] eqn:Em.
      cbn [fst snd] in *. rewrite length_app, Nat2Z.inj_add in Hroom.
      rewrite He by (destruct w; [cbn; lia|];
                     rewrite length_app in Hroom; lia).
      rewrite shift_memcpy_stores, Z.add_0_r.
      destruct w as [|a w].
      * cbn [List.length Z.of_nat Z.ltb Z.compare memcpy_stores app] in *.
        rewrite app_nil_r.
        rewrite IH by (rewrite ?Em; cbn [fst]; lia).
        rewrite Em. reflexivity.
      * assert (Hpos : (0 <? len (a :: w)) = true)
          by (apply Z.ltb_lt; cbn [List.length]; lia).
        rewrite Hpos.
        rewrite length_app, Nat2Z.inj_add in Hroom.
        change (len [" "%char]) with 1 in Hroom.
        assert (Hsp : (written + len (a :: w) <? out_len) = true)
          by (apply Z.ltb_lt; lia).
        rewrite Hsp.
        rewrite IH by (rewrite ?Em; cbn [fst]; lia).
        rewrite Em. cbn [fst snd].
        rewrite !length_app, !Nat2Z.inj_add.
        change (len [" "%char]) with 1.
        rewrite (memcpy_stores_app ((a :: w) ++ [" "%char]) more).
        rewrite (memcpy_stores_app (a :: w) [" "%char]).
        rewrite length_app, Nat2Z.inj_add. change (len [" "%char]) with 1.
        cbn [memcpy_stores]. rewrite <- !app_assoc.
        rewrite !Z.add_assoc. reflexivity.
    + apply IH; assumption.
Qed.

Lemma output_filter_feed_exact :
  forall f text out_len,
    len (fst (feed_all f text)) < out_len ->
    output_filter_feed f text out_len
    = (len (fst (feed_all f text)),
       memcpy_stores 0 (fst (feed_all f text)),
       snd (feed_all f text)).
Proof.
  intros f text out_len H. unfold output_filter_feed.
  rewrite feed_loop_exact by lia. reflexivity.
Qed.

Lemma feed_output_exact :
  forall dec pat_n pat_ss out_len written ss,
    0 <= written ->
    written + len (fst (feed_output_all dec pat_n pat_ss)) < out_len ->
    feed_output dec pat_n pat_ss out_len written ss
    = (written + len (fst (feed_output_all dec pat_n pat_ss)),
       ss ++ memcpy_stores written (fst (feed_output_all dec pat_n pat_ss)),
       snd (feed_output_all dec pat_n pat_ss)).
Proof.
  intros dec pat_n pat_ss out_len written ss H0 Hroom.
  unfold feed_output, feed_output_all in *.
  destruct (0 <? pat_n).
  - destruct (feed_all (output dec) (buffer_read pat_ss pat_n))
      as [bytes f] eqn:Ef.
    cbn [fst snd] in *.
    rewrite output_filter_feed_exact by (rewrite Ef; cbn [fst]; lia).
    rewrite Ef. cbn [fst snd].
    rewrite shift_memcpy_stores, Z.add_0_r. reflexivity.
  - cbn [fst snd List.length memcpy_stores].
    rewrite Z.add_0_r, app_nil_r. reflexivity.
Qed.

Lemma samples_all_app :
  forall t1 t2 dec,
    samples_all dec (t1 ++ t2)
    = (fst (samples_all dec t1)
        ++ fst (samples_all (snd (samples_all dec t1)) t2),
       snd (samples_all (snd (samples_all dec t1)) t2)).
Proof.
  induction t1 as [|on t1 IH]; intros t2 dec.
  - cbn. destruct (samples_all dec t2). reflexivity.
  - cbn [app samples_all].
    destruct (sample_all dec on) as [o1 d1].
    rewrite IH.
    destruct (samples_all d1 t1) as [o2 d2]. cbn [fst snd].
    destruct (samples_all d2 t2) as [o3 d3]. cbn [fst snd].
    rewrite app_assoc. reflexivity.
Qed.

Lemma sample_loop_exact :
  forall on_off dec out_len total_written ss,
    0 <= total_written ->
    total_written + len (fst (samples_all dec on_off)) < out_len ->
    sample_loop dec on_off out_len total_written ss
    = (total_written + len (fst (samples_all dec on_off)),
       ss ++ memcpy_stores total_written (fst (samples_all dec on_off)),
       snd (samples_all dec on_off)).
Proof.
  induction on_off as [|on rest IH]; intros dec out_len tw ss H0 Hroom.
  - cbn. rewrite Z.add_0_r, app_nil_r. reflexivity.
  - cbn [sample_loop samples_all] in *.
    assert (Hlt : (tw <? out_len) = true) by (apply Z.ltb_lt; lia).
    rewrite Hlt. unfold sample_all in *.
    destruct (timing_process_sample (timing dec) on) as [elem t].
    destruct (elem =? ELEM_NONE).
    + destruct (samples_all (set_timing dec t) rest) as [o2 d2] eqn:E2.
      cbn [fst snd app] in *.
      rewrite IH by (rewrite ?E2; cbn [fst]; lia).
      rewrite E2. reflexivity.
    + destruct (pattern_feed (set_timing dec t) elem PAT_OUT_SIZE)
        as [[pat_n pat_ss] d1].
      pose proof (feed_output_exact d1 pat_n pat_ss out_len tw ss H0) as Hf.
      destruct (feed_output_all d1 pat_n pat_ss) as [o1 d1'].
      destruct (samples_all d1' rest) as [o2 d2] eqn:E2.
      cbn [fst snd] in *. rewrite length_app, Nat2Z.inj_add in Hroom.
      rewrite Hf by lia.
      rewrite IH by (rewrite ?E2; cbn [fst]; lia).
      rewrite E2. cbn [fst snd].
      rewrite length_app, Nat2Z.inj_add, memcpy_stores_app.
      rewrite <- app_assoc, Z.add_assoc. reflexivity.
Qed.

Lemma chunk_loop_exact :
  forall bs dec out_len total_written ss,
    0 <= total_written ->
    total_written + len (fst (blocks_all dec bs)) < out_len ->
    chunk_loop dec bs out_len total_written ss
    = (total_written + len (fst (blocks_all dec bs)),
       ss ++ memcpy_stores total_written (fst (blocks_all dec bs)),
       snd (blocks_all dec bs)).
Proof.
  induction bs as [|b rest IH]; intros dec out_len tw ss H0 Hroom.
  - cbn. rewrite Z.add_0_r, app_nil_r. reflexivity.
  - cbn [chunk_loop blocks_all] in *.
    assert (Hlt : (tw <? out_len) = true) by (apply Z.ltb_lt; lia).
    rewrite Hlt.
    destruct (front_end dec b) as [d1 on_off].
    pose proof (sample_loop_exact on_off d1 out_len tw ss H0) as Hs.
    destruct (samples_all d1 on_off) as [o1 d2].
    destruct (blocks_all d2 rest) as [o2 d3] eqn:E2.
    cbn [fst snd] in *. rewrite length_app, Nat2Z.inj_add in Hroom.
    rewrite Hs by lia.
    rewrite IH by (rewrite ?E2; cbn [fst]; lia).
    rewrite E2. cbn [fst snd].
    rewrite length_app, Nat2Z.inj_add, memcpy_stores_app.
    rewrite <- app_assoc, Z.add_assoc. reflexivity.
Qed.

Lemma cw_decoder_process_exact :
  forall dec audio out_len,
    len (fst (process_all dec audio)) < out_len ->
    cw_decoder_process dec audio out_len
    = (len (fst (process_all dec audio)),
       memcpy_stores 0 (fst (process_all dec audio)),
       snd (process_all dec audio)).
Proof.
  intros dec audio out_len Hroom. unfold cw_decoder_process, process_all in *.
  destruct (len audio <=? 0) eqn:En.
  - apply Z.leb_le in En. destruct audio; [|cbn [List.length] in En; lia].
    reflexivity.
  - destruct (out_len <=? 0) eqn:Eo; [apply Z.leb_le in Eo; lia|].
    cbn [orb]. rewrite chunk_loop_exact by lia. reflexivity.
Qed.

Lemma cw_decoder_finalize_exact :
  forall dec out_len,
    len (fst (finalize_all dec)) < out_len ->
    cw_decoder_finalize dec out_len
    = (len (fst (finalize_all dec)),
       memcpy_stores 0 (fst (finalize_all dec)),
       snd (finalize_all dec)).
Proof.
  intros dec out_len. unfold cw_decoder_finalize, finalize_all.
  destruct (timing_finalize (timing dec)) as [elem t].
  assert (H1 : forall d,
    len (fst (if elem =? ELEM_NONE then ([], d) else
              let '(pat_n, pat_ss, d') := pattern_feed d elem PAT_OUT_SIZE in
              feed_output_all d' pat_n pat_ss)) < out_len ->
    (if elem =? ELEM_NONE then (0, [], d) else
     let '(pat_n, pat_ss, d') := pattern_feed d elem PAT_OUT_SIZE in
     feed_output d' pat_n pat_ss out_len 0 [])
    = (len (fst (if elem =? ELEM_NONE then ([], d) else
              let '(pat_n, pat_ss, d') := pattern_feed d elem PAT_OUT_SIZE in
              feed_output_all d' pat_n pat_ss)),
       memcpy_stores 0
         (fst (if elem =? ELEM_NONE then ([], d) else
              let '(pat_n, pat_ss, d') := pattern_feed d elem PAT_OUT_SIZE in
              feed_output_all d' pat_n pat_ss)),
       snd (if elem =? ELEM_NONE then ([], d) else
              let '(pat_n, pat_ss, d') := pattern_feed d elem PAT_OUT_SIZE in
              feed_output_all d' pat_n pat_ss))).
  { intros d. destruct (elem =? ELEM_NONE); [reflexivity|].
    destruct (pattern_feed d elem PAT_OUT_SIZE) as [[pat_n pat_ss] d'].
    intros Hr. rewrite feed_output_exact by lia. reflexivity. }
  specialize (H1 (set_timing dec t)).
  destruct (if elem =? ELEM_NONE then ([], set_timing dec t) else _)
    as [o1 d1] eqn:E1.
  cbn [fst snd] in H1.
  destruct (pattern_flush d1 PAT_OUT_SIZE) as [[pat_n pat_ss] d2] eqn:Epf.
  pose proof (feed_output_exact d2 pat_n pat_ss out_len (len o1)
                (memcpy_stores 0 o1) ltac:(lia)) as H2.
  destruct (feed_output_all d2 pat_n pat_ss) as [o2 d3].
  pose proof (emit_word_exact (output d3) (out_len - (len o1 + len o2)))
    as H3.
  destruct (emit_word_all (output d3)) as [w f].
  cbn [fst snd] in *. rewrite !length_app, !Nat2Z.inj_add.
  intros Hroom.
  rewrite H1 by lia. rewrite Epf. rewrite H2 by lia.
  unfold output_filter_flush. rewrite H3 by lia.
  rewrite shift_memcpy_stores, !memcpy_stores_app, Z.add_0_r.
  rewrite <- app_assoc, !Z.add_0_l, Z.add_assoc. reflexivity.
Qed.


(** *** How much the output stages can emit *)

Lemma emit_word_all_empty :
  forall f, fst (emit_word_all f) = [] \/ fst (emit_word_all f) = word_buf f.
Proof.
  intros f. unfold emit_word_all.
  destruct (word_len f =? 0); [left; reflexivity|].
  destruct (negb _); [right; reflexivity|].
  destruct (_ && _); [left | right]; reflexivity.
Qed.

Lemma emit_word_all_length :
  forall f, len (fst (emit_word_all f)) <= word_len f.
Proof.
  intros f. destruct (emit_word_all_empty f) as [-> | ->].
  - unfold word_len. cbn. lia.
  - unfold word_len. lia.
Qed.

Lemma feed_all_bound :
  forall text f,
    word_len f <= 63 ->
    len (fst (feed_all f text)) <= 64 * len text
    /\ word_len (snd (feed_all f text)) <= 63.
Proof.
  induction text as [|c rest IH]; intros f Hf.
  - cbn. split; [lia | exact Hf].
  - cbn [feed_all].
    destruct (Ascii.eqb c " ").
    + pose proof (emit_word_all_length f) as Hw.
      destruct (emit_word_all f) as [w f1]. cbn [fst] in Hw.
      specialize (IH (mk_filter [] (warmed_up f1) (min_word_length f1))
                     ltac:(unfold word_len; cbn; lia)).
      destruct (feed_all _ rest) as [more f2]. cbn [fst snd] in *.
      split; [|tauto].
      rewrite length_app, Nat2Z.inj_add. cbn [List.length].
      destruct w as [|a w]; [cbn [List.length]; lia|].
      rewrite length_app, Nat2Z.inj_add. cbn [List.length] in *. lia.
    + match goal with
      | |- context [feed_all ?g rest] =>
          specialize (IH g); assert (Hg : word_len g <= 63)
      end.
      { unfold OUTPUT_FILTER_MAX_WORD.
        destruct (word_len f <? 64 - 1) eqn:E; [|exact Hf].
        apply Z.ltb_lt in E. unfold word_len in *. cbn [word_buf].
        rewrite length_app, Nat2Z.inj_add. cbn [List.length]. lia. }
      specialize (IH Hg). cbn [List.length]. split; [lia | tauto].
Qed.

Lemma morse_lookup_merged_count :
  forall p out_len, 0 <= fst (morse_lookup_merged p out_len) <= 2.
Proof.
  intros p out_len. unfold morse_lookup_merged.
  destruct p; [cbn; lia|].
  destruct (out_len <? 1); [cbn; lia|].
  destruct (negb _); [cbn; lia|].
  destruct (_ <=? 1); [cbn; lia|].
  destruct (split_loop _) as [[bw bl] br].
  destruct (_ && _); cbn; lia.
Qed.

Lemma pattern_feed_count :
  forall dec elem out_len,
    0 <= fst (fst (pattern_feed dec elem out_len)) <= 3
    /\ output (snd (pattern_feed dec elem out_len)) = output dec.
Proof.
  intros dec elem out_len. unfold pattern_feed.
  destruct (_ || _).
  { cbn [fst snd]. split; [lia|]. destruct (_ <? _); reflexivity. }
  destruct (_ || _); [|cbn; split; [lia | reflexivity]].
  destruct (0 <? pattern_len dec).
  - pose proof (morse_lookup_merged_count (dec_pattern dec) (out_len - 0)) as Hm.
    destruct (morse_lookup_merged _ _) as [n ss]. cbn [fst] in Hm.
    destruct (_ && _); cbn [fst snd]; split; (lia || reflexivity).
  - destruct (_ && _); cbn [fst snd]; split; (lia || reflexivity).
Qed.

Lemma pattern_flush_count :
  forall dec out_len,
    0 <= fst (fst (pattern_flush dec out_len)) <= 3
    /\ output (snd (pattern_flush dec out_len)) = output dec.
Proof.
  intros dec out_len. unfold pattern_flush.
  destruct (_ <=? 0); [cbn; split; [lia | reflexivity]|].
  pose proof (morse_lookup_merged_count (dec_pattern dec) out_len) as Hm.
  destruct (morse_lookup_merged _ _) as [n ss]. cbn [fst snd] in *.
  split; [lia | reflexivity].
Qed.

Lemma buffer_read_length :
  forall ss n, 0 <= n -> len (buffer_read ss n) = n.
Proof.
  intros ss n Hn. unfold buffer_read, zrange.
  rewrite !length_map, length_seq. lia.
Qed.

Lemma feed_output_all_bound :
  forall dec pat_n pat_ss,
    word_len (output dec) <= 63 -> pat_n <= 3 ->
    len (fst (feed_output_all dec pat_n pat_ss)) <= 192
    /\ word_len (output (snd (feed_output_all dec pat_n pat_ss))) <= 63.
Proof.
  intros dec pat_n pat_ss Hf Hn. unfold feed_output_all.
  destruct (0 <? pat_n) eqn:E.
  - apply Z.ltb_lt in E.
    pose proof (feed_all_bound (buffer_read pat_ss pat_n) (output dec) Hf)
      as [Hb Hw].
    rewrite buffer_read_length in Hb by lia.
    destruct (feed_all _ _) as [bytes f]. cbn [fst snd output set_output] in *.
    split; [lia | exact Hw].
  - cbn. split; [lia | exact Hf].
Qed.

Lemma sample_all_bound :
  forall dec on,
    word_len (output dec) <= 63 ->
    len (fst (sample_all dec on)) <= 192
    /\ word_len (output (snd (sample_all dec on))) <= 63.
Proof.
  intros dec on Hf. unfold sample_all.
  destruct (timing_process_sample (timing dec) on) as [elem t].
  destruct (elem =? ELEM_NONE); [cbn; split; [lia | exact Hf]|].
  pose proof (pattern_feed_count (set_timing dec t) elem PAT_OUT_SIZE)
    as [Hn Ho].
  destruct (pattern_feed _ _ _) as [[pat_n pat_ss] d1]. cbn [fst snd] in *.
  apply feed_output_all_bound; [rewrite Ho; exact Hf | lia].
Qed.

Lemma samples_all_bound :
  forall on_off dec,
    word_len (output dec) <= 63 ->
    len (fst (samples_all dec on_off)) <= 192 * len on_off
    /\ word_len (output (snd (samples_all dec on_off))) <= 63.
Proof.
  induction on_off as [|on rest IH]; intros dec Hf.
  - cbn. split; [lia | exact Hf].
  - cbn [samples_all].
    pose proof (sample_all_bound dec on Hf) as [Hb Hw].
    destruct (sample_all dec on) as [o1 d1]. cbn [fst snd] in *.
    specialize (IH d1 Hw). destruct (samples_all d1 rest) as [o2 d2].
    cbn [fst snd List.length] in *.
    rewrite length_app, Nat2Z.inj_add. split; [lia | tauto].
Qed.

Lemma finalize_all_bound :
  forall dec,
    word_len (output dec) <= 63 ->
    len (fst (finalize_all dec)) < 448.
Proof.
  intros dec Hf. unfold finalize_all.
  destruct (timing_finalize (timing dec)) as [elem t].
  assert (H1 : forall d,
    word_len (output d) <= 63 ->
    len (fst (if elem =? ELEM_NONE then ([], d) else
              let '(pat_n, pat_ss, d') := pattern_feed d elem PAT_OUT_SIZE in
              feed_output_all d' pat_n pat_ss)) <= 192
    /\ word_len (output (snd
          (if elem =? ELEM_NONE then ([], d) else
           let '(pat_n, pat_ss, d') := pattern_feed d elem PAT_OUT_SIZE in
           feed_output_all d' pat_n pat_ss))) <= 63).
  { intros d Hd. destruct (elem =? ELEM_NONE); [cbn; split; [lia|exact Hd]|].
    pose proof (pattern_feed_count d elem PAT_OUT_SIZE) as [Hn Ho].
    destruct (pattern_feed _ _ _) as [[pat_n pat_ss] d']. cbn [fst snd] in *.
    apply feed_output_all_bound; [rewrite Ho; exact Hd | lia]. }
  specialize (H1 (set_timing dec t) Hf).
  destruct (if elem =? ELEM_NONE then _ else _) as [o1 d1].
  cbn [fst snd] in H1. destruct H1 as [Hb1 Hw1].
  pose proof (pattern_flush_count d1 PAT_OUT_SIZE) as [Hn Ho].
  destruct (pattern_flush d1 PAT_OUT_SIZE) as [[pat_n pat_ss] d2].
  cbn [fst snd] in *.
  pose proof (feed_output_all_bound d2 pat_n pat_ss
                ltac:(rewrite Ho; exact Hw1) ltac:(lia)) as [Hb2 Hw2].
  destruct (feed_output_all d2 pat_n pat_ss) as [o2 d3].
  cbn [fst snd] in *.
  pose proof (emit_word_all_length (output d3)) as Hw.
  destruct (emit_word_all (output d3)) as [w f]. cbn [fst snd] in *.
  rewrite !length_app, !Nat2Z.inj_add. lia.
Qed.


(** *** The front end hands over one decision per sample *)

Lemma nset_length :
  forall A (a : list A) i v, List.length (nset a i v) = List.length a.
Proof.
  induction a as [|h tl IH]; intros i v; [reflexivity|].
  destruct i; cbn; [reflexivity | rewrite IH; reflexivity].
Qed.

Lemma aset_length :
  forall A (a : list A) i v, List.length (aset a i v) = List.length a.
Proof.
  intros A a i v. unfold aset. destruct (i <? 0); [reflexivity|].
  apply nset_length.
Qed.

Lemma section_process_length :
  forall sec data,
    List.length (snd (section_process sec data)) = List.length data.
Proof.
  intros sec data. unfold section_process.
  assert (H : forall l z0 z1 acc,
             List.length (snd (fold_left (biquad_step sec) l (z0, z1, acc)))
             = (List.length acc + List.length l)%nat).
  { induction l as [|x l IH]; intros z0 z1 acc.
    - cbn. lia.
    - cbn [fold_left biquad_step]. rewrite IH, length_app. cbn. lia. }
  specialize (H data (sec_z0 sec) (sec_z1 sec) []).
  destruct (fold_left _ _ _) as [[z0 z1] data']. exact H.
Qed.

Lemma iir_filter_process_length :
  forall f data,
    List.length (snd (iir_filter_process f data)) = List.length data.
Proof.
  induction f as [|sec rest IH]; intros data; [reflexivity|].
  cbn [iir_filter_process].
  pose proof (section_process_length sec data) as H1.
  destruct (section_process sec data) as [sec' data1].
  specialize (IH data1).
  destruct (iir_filter_process rest data1) as [rest' data2].
  cbn [snd] in *. congruence.
Qed.

Lemma multipass_pass_length :
  forall w inv_w mp data pass,
    List.length (snd (multipass_pass w inv_w (mp, data) pass))
    = List.length data.
Proof.
  intros w inv_w mp data pass. unfold multipass_pass.
  set (buf := aget [] (mp_buffers mp) pass).
  set (buf_n := aget 0 (mp_buf_len mp) pass).
  match goal with
  | |- context [fold_left ?f ?l (data, ?s)] =>
      assert (H : forall idx d s0,
                 List.length (fst (fold_left f idx (d, s0))) = List.length d)
  end.
  { induction idx as [|i idx IH]; intros d s0; [reflexivity|].
    cbn [fold_left]. unfold pass_sample at 2.
    rewrite IH. apply aset_length. }
  match goal with
  | |- context [fold_left ?f ?l (data, ?s)] =>
      specialize (H l data s); destruct (fold_left f l (data, s)) as [d' s']
  end.
  destruct (pass_save _ _ _ _ _) as [buf' len']. exact H.
Qed.

Lemma multipass_passes_length :
  forall passes w inv_w mp data,
    List.length (snd (fold_left (multipass_pass w inv_w) passes (mp, data)))
    = List.length data.
Proof.
  induction passes as [|p passes IH]; intros w inv_w mp data; [reflexivity|].
  cbn [fold_left].
  pose proof (multipass_pass_length w inv_w mp data p) as H.
  destruct (multipass_pass w inv_w (mp, data) p) as [mp' data'].
  rewrite IH. exact H.
Qed.

Lemma multipass_process_length :
  forall mp data,
    List.length (snd (multipass_process mp data)) = List.length data.
Proof.
  intros mp data. unfold multipass_process. apply multipass_passes_length.
Qed.

Lemma envelope_chunk_length :
  forall env on_off audio,
    List.length (snd (envelope_chunk (env, on_off) audio))
    = (List.length on_off + List.length audio)%nat.
Proof.
  intros env on_off audio. unfold envelope_chunk.
  assert (Hh : forall on_thr off_thr tmp st acc,
             List.length (snd (fold_left (hysteresis_step on_thr off_thr)
                                         tmp (st, acc)))
             = (List.length acc + List.length tmp)%nat).
  { intros on_thr off_thr. induction tmp as [|v tmp IH]; intros st acc.
    - cbn. lia.
    - cbn [fold_left hysteresis_step]. rewrite IH, length_app. cbn. lia. }
  assert (Hf : List.length
                 (snd (match env_mode env with
                       | ENV_MODE_MULTIPASS =>
                           let '(mpf', tmp') :=
                             multipass_process (env_mpf env) (map fabsf audio)
                           in (env_lpf env, mpf', tmp')
                       | ENV_MODE_IIR =>
                           let '(lpf', tmp') :=
                             iir_filter_process (env_lpf env) (map fabsf audio)
                           in (lpf', env_mpf env, tmp')
                       end)) = List.length audio).
  { destruct (env_mode env).
    - pose proof (iir_filter_process_length (env_lpf env) (map fabsf audio)) as H.
      destruct (iir_filter_process _ _). cbn [snd] in *.
      rewrite H. apply length_map.
    - pose proof (multipass_process_length (env_mpf env) (map fabsf audio)) as H.
      destruct (multipass_process _ _). cbn [snd] in *.
      rewrite H. apply length_map. }
  destruct (match env_mode env with
            | ENV_MODE_IIR => _ | ENV_MODE_MULTIPASS => _ end)
    as [[lpf' mpf'] tmp].
  cbn [snd] in Hf.
  match goal with
  | |- context [fold_left (hysteresis_step ?a ?b) tmp (?st, on_off)] =>
      specialize (Hh a b tmp st on_off);
      destruct (fold_left (hysteresis_step a b) tmp (st, on_off))
        as [state on_off']
  end.
  cbn [snd] in *. lia.
Qed.

Lemma blocks_fuel_length :
  forall A fuel k (l : list A),
    (0 < k)%nat -> (List.length l <= fuel)%nat ->
    List.length (List.concat (blocks_fuel fuel k l)) = List.length l.
Proof.
  induction fuel as [|fuel IH]; intros k l Hk Hl.
  - destruct l; [reflexivity | cbn in Hl; lia].
  - cbn [blocks_fuel]. destruct l as [|a l]; [reflexivity|].
    cbn [List.concat]. rewrite length_app, IH.
    + rewrite <- length_app, firstn_skipn. reflexivity.
    + exact Hk.
    + rewrite length_skipn. cbn [List.length] in *. lia.
Qed.

Lemma envelope_process_length :
  forall env audio,
    List.length (snd (envelope_process env audio)) = List.length audio.
Proof.
  intros env audio. unfold envelope_process.
  rewrite <- (blocks_fuel_length _ (List.length audio) 4096 audio)
    by lia.
  unfold blocks.
  assert (H : forall bs e acc,
             List.length (snd (fold_left envelope_chunk bs (e, acc)))
             = (List.length acc + List.length (List.concat bs))%nat).
  { induction bs as [|b bs IH]; intros e acc.
    - cbn. lia.
    - cbn [fold_left List.concat].
      pose proof (envelope_chunk_length e acc b) as Hc.
      destruct (envelope_chunk (e, acc) b) as [e' acc'].
      rewrite IH, length_app. cbn [snd] in Hc. lia. }
  rewrite H. reflexivity.
Qed.

Lemma front_core_length :
  forall bp use_bp env chunk,
    List.length (snd (front_core bp use_bp env chunk)) = List.length chunk.
Proof.
  intros bp use_bp env chunk. unfold front_core.
  assert (Hw : List.length
                 (snd (if use_bp =? 0 then (bp, chunk)
                       else iir_filter_process bp chunk))
               = List.length chunk).
  { destruct (use_bp =? 0); [reflexivity | apply iir_filter_process_length]. }
  destruct (if use_bp =? 0 then _ else _) as [bp' work].
  pose proof (envelope_process_length env work) as He.
  destruct (envelope_process env work) as [env' on_off].
  cbn [snd] in *. congruence.
Qed.

Lemma core_trace_blocks_length :
  forall bs bp use_bp env,
    List.length (snd (core_trace_blocks bp use_bp env bs))
    = List.length (List.concat bs).
Proof.
  induction bs as [|b bs IH]; intros bp use_bp env; [reflexivity|].
  cbn [core_trace_blocks List.concat].
  pose proof (front_core_length bp use_bp env b) as Hf.
  destruct (front_core bp use_bp env b) as [[bp1 env1] t1].
  specialize (IH bp1 use_bp env1).
  destruct (core_trace_blocks bp1 use_bp env1 bs) as [[bp2 env2] t2].
  cbn [snd] in *. rewrite !length_app. lia.
Qed.


(** *** The output stages and the front end do not touch each other *)

Ltac break_ifs :=
  repeat match goal with
         | |- context [morse_lookup_merged ?p ?n] =>
             destruct (morse_lookup_merged p n)
         | |- context [feed_all ?f ?t] => destruct (feed_all f t)
         | |- context [timing_process_sample ?t ?on] =>
             destruct (timing_process_sample t on)
         | |- context [if ?b then _ else _] =>
             lazymatch b with
             | context [if _ then _ else _] => fail
             | _ => destruct b
             end
         end.

Lemma pattern_feed_set_front :
  forall d bp env elem n,
    pattern_feed (set_front d bp env) elem n
    = (fst (pattern_feed d elem n),
       set_front (snd (pattern_feed d elem n)) bp env).
Proof.
  intros [c b u e t p o] bp env elem n.
  unfold pattern_feed, pattern_len, set_front, set_pattern.
  cbn [cfg bandpass use_bandpass envelope timing dec_pattern output].
  break_ifs; reflexivity.
Qed.

Lemma pattern_flush_set_front :
  forall d bp env n,
    pattern_flush (set_front d bp env) n
    = (fst (pattern_flush d n), set_front (snd (pattern_flush d n)) bp env).
Proof.
  intros [c b u e t p o] bp env n.
  unfold pattern_flush, pattern_len, set_front, set_pattern.
  cbn [cfg bandpass use_bandpass envelope timing dec_pattern output].
  break_ifs; reflexivity.
Qed.

Lemma feed_output_all_set_front :
  forall d bp env pat_n pat_ss,
    feed_output_all (set_front d bp env) pat_n pat_ss
    = (fst (feed_output_all d pat_n pat_ss),
       set_front (snd (feed_output_all d pat_n pat_ss)) bp env).
Proof.
  intros [c b u e t p o] bp env pat_n pat_ss.
  unfold feed_output_all, set_front, set_output.
  cbn [cfg bandpass use_bandpass envelope timing dec_pattern output].
  break_ifs; reflexivity.
Qed.

Lemma sample_all_set_front :
  forall d bp env on,
    sample_all (set_front d bp env) on
    = (fst (sample_all d on), set_front (snd (sample_all d on)) bp env).
Proof.
  intros d bp env on. unfold sample_all.
  change (timing (set_front d bp env)) with (timing d).
  destruct (timing_process_sample (timing d) on) as [elem t].
  change (set_timing (set_front d bp env) t)
    with (set_front (set_timing d t) bp env).
  destruct (elem =? ELEM_NONE); [reflexivity|].
  rewrite pattern_feed_set_front.
  destruct (pattern_feed (set_timing d t) elem PAT_OUT_SIZE)
    as [[pat_n pat_ss] d1].
  cbn [fst snd]. apply feed_output_all_set_front.
Qed.

Lemma samples_all_set_front :
  forall on_off d bp env,
    samples_all (set_front d bp env) on_off
    = (fst (samples_all d on_off),
       set_front (snd (samples_all d on_off)) bp env).
Proof.
  induction on_off as [|on rest IH]; intros d bp env; [reflexivity|].
  cbn [samples_all]. rewrite sample_all_set_front.
  destruct (sample_all d on) as [o1 d1]. cbn [fst snd].
  rewrite IH. destruct (samples_all d1 rest) as [o2 d2]. reflexivity.
Qed.

Lemma finalize_all_set_front :
  forall d bp env,
    fst (finalize_all (set_front d bp env)) = fst (finalize_all d).
Proof.
  intros d bp env. unfold finalize_all.
  change (timing (set_front d bp env)) with (timing d).
  destruct (timing_finalize (timing d)) as [elem t].
  change (set_timing (set_front d bp env) t)
    with (set_front (set_timing d t) bp env).
  assert (H1 : forall d0,
    (if elem =? ELEM_NONE then ([], set_front d0 bp env) else
     let '(pat_n, pat_ss, d') :=
       pattern_feed (set_front d0 bp env) elem PAT_OUT_SIZE in
     feed_output_all d' pat_n pat_ss)
    = (fst (if elem =? ELEM_NONE then ([], d0) else
            let '(pat_n, pat_ss, d') := pattern_feed d0 elem PAT_OUT_SIZE in
            feed_output_all d' pat_n pat_ss),
       set_front
         (snd (if elem =? ELEM_NONE then ([], d0) else
            let '(pat_n, pat_ss, d') := pattern_feed d0 elem PAT_OUT_SIZE in
            feed_output_all d' pat_n pat_ss)) bp env)).
  { intros d0. destruct (elem =? ELEM_NONE); [reflexivity|].
    rewrite pattern_feed_set_front.
    destruct (pattern_feed d0 elem PAT_OUT_SIZE) as [[pat_n pat_ss] d'].
    cbn [fst snd]. apply feed_output_all_set_front. }
  rewrite H1.
  destruct (if elem =? ELEM_NONE then ([], set_timing d t) else _)
    as [o1 d1].
  cbn [fst snd]. rewrite pattern_flush_set_front.
  destruct (pattern_flush d1 PAT_OUT_SIZE) as [[pat_n pat_ss] d2].
  cbn [fst snd]. rewrite feed_output_all_set_front.
  destruct (feed_output_all d2 pat_n pat_ss) as [o2 d3].
  cbn [fst snd]. change (output (set_front d3 bp env)) with (output d3).
  destruct (emit_word_all (output d3)) as [w f]. reflexivity.
Qed.

Lemma sample_all_front :
  forall d on, front_of (snd (sample_all d on)) = front_of d.
Proof.
  intros [c b u e t p o] on.
  unfold sample_all, feed_output_all, pattern_feed, pattern_len, front_of,
    set_timing, set_pattern, set_output.
  cbn [cfg bandpass use_bandpass envelope timing dec_pattern output].
  break_ifs; reflexivity.
Qed.

Lemma samples_all_front :
  forall on_off d, front_of (snd (samples_all d on_off)) = front_of d.
Proof.
  induction on_off as [|on rest IH]; intros d; [reflexivity|].
  cbn [samples_all].
  pose proof (sample_all_front d on) as H1.
  destruct (sample_all d on) as [o1 d1].
  specialize (IH d1). destruct (samples_all d1 rest) as [o2 d2].
  cbn [snd] in *. congruence.
Qed.

(** *** The output of a run is the output stages' answer to the trace *)

Lemma blocks_all_factor :
  forall bs d,
    blocks_all d bs
    = (fst (samples_all d (snd (core_trace_blocks
                                  (bandpass d) (use_bandpass d) (envelope d)
                                  bs))),
       set_front
         (snd (samples_all d (snd (core_trace_blocks
                                     (bandpass d) (use_bandpass d)
                                     (envelope d) bs))))
         (fst (fst (core_trace_blocks (bandpass d) (use_bandpass d)
                                      (envelope d) bs)))
         (snd (fst (core_trace_blocks (bandpass d) (use_bandpass d)
                                      (envelope d) bs)))).
Proof.
  induction bs as [|b bs IH]; intros d.
  - cbn. destruct d; reflexivity.
  - cbn [blocks_all core_trace_blocks]. unfold front_end.
    destruct (front_core (bandpass d) (use_bandpass d) (envelope d) b)
      as [[bp1 env1] t1].
    rewrite samples_all_set_front.
    pose proof (samples_all_front t1 d) as Hfr.
    destruct (samples_all d t1) as [o1 d1] eqn:E1. cbn [fst snd] in *.
    rewrite IH.
    change (bandpass (set_front d1 bp1 env1)) with bp1.
    change (envelope (set_front d1 bp1 env1)) with env1.
    change (use_bandpass (set_front d1 bp1 env1)) with (use_bandpass d1).
    assert (Hu : use_bandpass d1 = use_bandpass d)
      by (unfold front_of in Hfr; congruence).
    rewrite Hu.
    destruct (core_trace_blocks bp1 (use_bandpass d) env1 bs)
      as [[bp2 env2] t2].
    cbn [fst snd]. rewrite samples_all_set_front. cbn [fst snd].
    rewrite samples_all_app, E1. cbn [fst snd].
    reflexivity.
Qed.

Lemma stream_all_factor :
  forall chunks d, stream_all d chunks = trace_output d (front_trace d chunks).
Proof.
  induction chunks as [|c rest IH]; intros d.
  - reflexivity.
  - cbn [stream_all]. unfold process_all. rewrite blocks_all_factor.
    cbn [fst snd]. rewrite IH. unfold front_trace. cbn [core_trace].
    destruct (core_trace_blocks (bandpass d) (use_bandpass d) (envelope d)
                                (blocks 4096 c)) as [[bp1 env1] t1].
    cbn [fst snd].
    pose proof (samples_all_front t1 d) as Hfr.
    change (bandpass (set_front ?x bp1 env1)) with bp1.
    change (envelope (set_front ?x bp1 env1)) with env1.
    change (use_bandpass (set_front ?x bp1 env1)) with (use_bandpass x).
    assert (Hu : use_bandpass (snd (samples_all d t1)) = use_bandpass d)
      by (unfold front_of in Hfr; congruence).
    rewrite Hu. unfold trace_output.
    rewrite samples_all_set_front. cbn [fst snd].
    rewrite finalize_all_set_front.
    rewrite samples_all_app. cbn [fst snd].
    rewrite app_assoc. reflexivity.
Qed.


(** With roomy buffers the streamed output is the unbounded one. *)
Lemma stream_chunks_exact :
  forall chunks d out_len,
    word_len (output d) <= 63 ->
    roomy out_len chunks ->
    stream_chunks d chunks out_len = stream_all d chunks.
Proof.
  induction chunks as [|c rest IH]; intros d out_len Hf [H448 Hroom].
  - cbn [stream_chunks stream_all].
    pose proof (finalize_all_bound d Hf) as Hb.
    rewrite cw_decoder_finalize_exact by lia.
    unfold call_output. apply buffer_read_memcpy.
  - cbn [stream_chunks stream_all].
    inversion Hroom as [|c' rest' Hc Hrest]; subst.
    assert (Hp : len (fst (process_all d c)) <= 192 * len c
                 /\ word_len (output (snd (process_all d c))) <= 63).
    { unfold process_all. rewrite blocks_all_factor. cbn [fst snd].
      change (output (set_front ?x ?bp ?env)) with (output x).
      pose proof (samples_all_bound
                    (snd (core_trace_blocks (bandpass d) (use_bandpass d)
                                            (envelope d) (blocks 4096 c)))
                    d Hf) as [Hb Hw].
      rewrite core_trace_blocks_length in Hb. unfold blocks in Hb.
      rewrite blocks_fuel_length in Hb by lia.
      split; assumption. }
    destruct Hp as [Hb Hw].
    rewrite cw_decoder_process_exact by lia.
    cbn [snd]. rewrite IH by (try exact Hw; split; assumption).
    unfold call_output. rewrite buffer_read_memcpy. reflexivity.
Qed.

Lemma cw_decoder_create_filter :
  forall des c, word_len (output (cw_decoder_create des c)) = 0.
Proof.
  intros des c. unfold cw_decoder_create.
  destruct (if (bandwidth c >? fzero)%fl then _ else _) as [bp use_bp].
  reflexivity.
Qed.

(** C2 (amended): for every audio signal and every two partitions of it
    into chunks on which the front end (bandpass filter and envelope
    detector) yields the same on/off decisions, calling
    [cw_decoder_process] on each chunk in order and then
    [cw_decoder_finalize], on two decoders created from the same
    configuration and given output buffers large enough never to
    truncate, produces identical concatenated output bytes. *)
Theorem chunking_independent_after_envelope :
  forall (des : iir_designer) (c : cw_config_t)
         (chunks1 chunks2 : list (list float)) (out_len : Z),
    let dec := cw_decoder_create des c in
    List.concat chunks1 = List.concat chunks2 ->
    front_trace dec chunks1 = front_trace dec chunks2 ->
    roomy out_len chunks1 ->
    roomy out_len chunks2 ->
    stream_chunks dec chunks1 out_len = stream_chunks dec chunks2 out_len.
Proof.
  intros des c chunks1 chunks2 out_len dec _ Htrace Hr1 Hr2.
  assert (Hf : word_len (output dec) <= 63)
    by (unfold dec; rewrite cw_decoder_create_filter; lia).
  rewrite !stream_chunks_exact by assumption.
  rewrite !stream_all_factor, Htrace. reflexivity.
Qed.

End ChunkIndependence.

(** ** Concrete runs *)

Section Runs.
Import Run.

(** The front end itself depends on the chunking: on the three samples
    1, 0, 8 taken whole the peak tracker sees 2.08 and only the last
    sample is on; with the first sample in a chunk of its own the peak of
    that chunk is 0.8 and the sample is on. *)
Lemma front_trace_depends_on_chunking :
  @front_trace f32 decoder [audio [1; 0; 8]] = [0; 0; 1]
  /\ @front_trace f32 decoder [audio [1]; audio [0; 8]] = [1; 0; 1].
Proof. split; vm_compute; reflexivity. Qed.

(** C2, as the claim states it, fails: the same three samples, the same
    configuration and buffers of 1000 bytes give no output when processed
    as one chunk and the letter I when the first sample is a chunk of its
    own. *)
Lemma chunking_changes_output :
  List.concat [audio [1; 0; 8]] = List.concat [audio [1]; audio [0; 8]]
  /\ @roomy f32 1000 [audio [1; 0; 8]]
  /\ @roomy f32 1000 [audio [1]; audio [0; 8]]
  /\ @stream_chunks f32 decoder [audio [1; 0; 8]] 1000 = []
  /\ @stream_chunks f32 decoder [audio [1]; audio [0; 8]] 1000 = ["I"%char].
Proof.
  split; [reflexivity|]. split; [|split].
  - split; [lia|]. repeat constructor.
  - split; [lia|]. repeat constructor.
  - split; vm_compute; reflexivity.
Qed.

Lemma chunking_independent_after_envelope_witness :
  @stream_chunks f32 decoder
     [audio [8; 8; 0; 0; 0; 8; 8; 0; 0; 0; 0; 0]] 4000
  = @stream_chunks f32 decoder
     [audio [8; 8; 0; 0; 0; 8]; audio [8; 0; 0; 0; 0; 0]] 4000.
Proof.
  apply (@chunking_independent_after_envelope f32 no_designer config
           [audio [8; 8; 0; 0; 0; 8; 8; 0; 0; 0; 0; 0]]
           [audio [8; 8; 0; 0; 0; 8]; audio [8; 0; 0; 0; 0; 0]] 4000).
  - reflexivity.
  - vm_compute. reflexivity.
  - split; [lia|]. repeat constructor.
  - split; [lia|]. repeat constructor.
Defined.

(** The run of the witness is not an empty one. *)
Lemma witness_run_output :
  @stream_chunks f32 decoder
     [audio [8; 8; 0; 0; 0; 8; 8; 0; 0; 0; 0; 0]] 4000 = ["E"%char].
Proof. vm_compute. reflexivity. Qed.

(** C4 on a configuration: 48 kHz, a 20 ms window and three passes ask
    for 353 samples and get a window of 257. *)
Lemma wide_envelope_window :
  mp_window_size (env_mpf wide_envelope) = 257.
Proof. vm_compute. reflexivity. Qed.

Lemma decoder_output_within_out_len_witness :
  (let '(written, ss, _) :=
     @cw_decoder_process f32 decoder (audio [1; 0; 8]) 2 in
   0 <= written <= 2 /\ stores_within 2 ss)
  /\ (let '(written, ss, _) := @cw_decoder_finalize f32 decoder 2 in
      0 <= written <= 2 /\ stores_within 2 ss).
Proof.
  apply (@decoder_output_within_out_len f32 decoder (audio [1; 0; 8]) 2).
  lia.
Defined.

End Runs.

(* ================================================================== *)
(** * Part III: further properties of the code                        *)
(* ================================================================== *)

(** ** morse_table.c: the table and its two scans *)

Lemma weight_scan_find :
  forall tbl c,
    weight_scan tbl c
    = match find (fun e => Ascii.eqb (ch e) c) tbl with
      | Some e => weight e
      | None => 1
      end.
Proof.
  induction tbl as [|e tl IH]; intros c; [reflexivity|].
  cbn [weight_scan find]. destruct (Ascii.eqb (ch e) c); auto.
Qed.

(** Checked on the 54 entries: every entry is the first one with its
    pattern, no pattern is empty, and two entries with the same character
    have the same pattern. *)
Lemma table_entries_distinct :
  forall e, In e MORSE_TABLE ->
    table_entry (pattern e) = Some e
    /\ pattern e <> EmptyString
    /\ forall e', In e' MORSE_TABLE -> ch e' = ch e -> pattern e' = pattern e.
Proof.
  assert (H : forallb (fun e =>
                match table_entry (pattern e) with
                | Some e0 => String.eqb (pattern e0) (pattern e)
                             && Ascii.eqb (ch e0) (ch e)
                             && (weight e0 =? weight e)
                | None => false
                end
                && negb (String.eqb (pattern e) EmptyString)
                && forallb (fun e' => negb (Ascii.eqb (ch e') (ch e))
                                      || String.eqb (pattern e') (pattern e))
                           MORSE_TABLE) MORSE_TABLE = true)
    by (vm_compute; reflexivity).
  rewrite forallb_forall in H. intros e He. specialize (H e He).
  apply andb_true_iff in H as [H H3]. apply andb_true_iff in H as [H1 H2].
  split; [|split].
  - destruct (table_entry (pattern e)) as [e0|]; [|discriminate].
    apply andb_true_iff in H1 as [H1 Hw]. apply andb_true_iff in H1 as [Hp Hc].
    apply String.eqb_eq in Hp. apply Ascii.eqb_eq in Hc. apply Z.eqb_eq in Hw.
    destruct e0, e. cbn in *. subst. reflexivity.
  - intros Hp. rewrite Hp in H2. discriminate.
  - rewrite forallb_forall in H3. intros e' He' Hc. specialize (H3 e' He').
    apply orb_true_iff in H3 as [H3 | H3].
    + rewrite Hc, Ascii.eqb_refl in H3. discriminate.
    + apply String.eqb_eq. exact H3.
Qed.

(** [morse_lookup] inverts the table: every entry is found under its
    pattern, and a character other than ['?'] is the answer for no other
    pattern than its entry's, so that decoding is one-to-one on the
    patterns it knows. *)
Theorem morse_lookup_inverts_table :
  forall e, In e MORSE_TABLE ->
    morse_lookup (pattern e) = ch e
    /\ forall p, morse_lookup p = ch e -> ch e <> "?"%char -> p = pattern e.
Proof.
  intros e He. destruct (table_entries_distinct e He) as (Hfind & Hne & Huniq).
  split.
  - rewrite morse_lookup_entry, Hfind. reflexivity.
  - intros p Hp Hq. rewrite morse_lookup_entry in Hp.
    destruct (table_entry p) as [e'|] eqn:Ep.
    + destruct (table_entry_found p e' Ep) as [Hin Hpat].
      rewrite <- Hpat. apply Huniq; assumption.
    + exfalso. apply Hq. symmetry. exact Hp.
Qed.

Lemma morse_lookup_inverts_table_witness :
  morse_lookup ".-" = "A"%char
  /\ forall p, morse_lookup p = "A"%char -> "A"%char <> "?"%char -> p = ".-"%string.
Proof.
  apply (morse_lookup_inverts_table (mk_entry ".-" "A" 127)).
  unfold MORSE_TABLE. do 3 right. left. reflexivity.
Defined.

(** [morse_char_weight] gives the weight of the entry of a character of
    the table, which is between 2 and 321, and 1 for every other
    character. *)
Theorem morse_char_weight_of_table :
  forall c,
    (exists e, In e MORSE_TABLE /\ ch e = c
               /\ morse_char_weight c = weight e
               /\ 2 <= weight e <= 321)
    \/ ((forall e, In e MORSE_TABLE -> ch e <> c)
        /\ morse_char_weight c = 1).
Proof.
  intros c. unfold morse_char_weight. rewrite weight_scan_find.
  destruct (find (fun e => Ascii.eqb (ch e) c) MORSE_TABLE) as [e|] eqn:E.
  - left. apply find_some in E as [Hin Hc]. apply Ascii.eqb_eq in Hc.
    exists e. split; [exact Hin|]. split; [exact Hc|].
    split; [reflexivity|].
    assert (H : forallb (fun e => (2 <=? weight e) && (weight e <=? 321))
                        MORSE_TABLE = true) by (vm_compute; reflexivity).
    rewrite forallb_forall in H. specialize (H e Hin).
    apply andb_true_iff in H as [H1 H2].
    apply Z.leb_le in H1. apply Z.leb_le in H2. lia.
  - right. split; [|reflexivity].
    intros e Hin Hc.
    pose proof (find_none _ _ E e Hin) as Hn. cbn in Hn.
    rewrite Hc, Ascii.eqb_refl in Hn. discriminate.
Qed.

(** *** What the merged lookup returns and writes *)

Lemma question_mark_table_char : table_char "?".
Proof.
  exists (mk_entry "..--.." "?" 5). split; [|reflexivity].
  unfold MORSE_TABLE. do 38 right. left. reflexivity.
Qed.

Lemma morse_lookup_table_char : forall p, table_char (morse_lookup p).
Proof.
  intros p. rewrite morse_lookup_entry.
  destruct (table_entry p) as [e|] eqn:E.
  - exists e. split; [apply (table_entry_found p e E) | reflexivity].
  - apply question_mark_table_char.
Qed.

Lemma table_weight_range :
  forall e, In e MORSE_TABLE -> 2 <= weight e <= 321.
Proof.
  assert (H : forallb (fun e => (2 <=? weight e) && (weight e <=? 321))
                      MORSE_TABLE = true) by (vm_compute; reflexivity).
  rewrite forallb_forall in H. intros e Hin. specialize (H e Hin).
  apply andb_true_iff in H as [H1 H2].
  apply Z.leb_le in H1. apply Z.leb_le in H2. lia.
Qed.

Lemma morse_char_weight_pos : forall c, 1 <= morse_char_weight c.
Proof.
  intros c. unfold morse_char_weight. rewrite weight_scan_find.
  destruct (find (fun e => Ascii.eqb (ch e) c) MORSE_TABLE) as [e|] eqn:E;
    [|lia].
  apply find_some in E as [Hin _]. pose proof (table_weight_range e Hin). lia.
Qed.

Lemma split_step_ok :
  forall p best pos, best_ok best -> best_ok (split_step p best pos).
Proof.
  intros p best pos Hb. unfold split_step.
  destruct (negb (Ascii.eqb (morse_lookup (substring 0 pos p)) "?")
            && negb (Ascii.eqb
                       (morse_lookup
                          (substring pos (String.length p - pos) p)) "?"));
    [|exact Hb].
  destruct best as [[bw bl] br].
  destruct (bw <? _); [|exact Hb].
  right. cbn [fst snd]. split; [|split].
  - pose proof (morse_char_weight_pos (morse_lookup (substring 0 pos p))).
    pose proof (morse_char_weight_pos
                  (morse_lookup (substring pos (String.length p - pos) p))).
    lia.
  - apply morse_lookup_table_char.
  - apply morse_lookup_table_char.
Qed.

Lemma split_fold_ok :
  forall p ps best, best_ok best -> best_ok (fold_left (split_step p) ps best).
Proof.
  intros p ps. induction ps as [|pos ps IH]; intros best Hb; [exact Hb|].
  cbn [fold_left]. apply IH. apply split_step_ok. exact Hb.
Qed.

Lemma split_loop_ok : forall p, best_ok (split_loop p).
Proof. intros p. apply split_fold_ok. left. reflexivity. Qed.

(** The bytes [morse_lookup_merged] writes. *)
Lemma morse_lookup_merged_bytes :
  forall p out_len,
    exists bytes,
      snd (morse_lookup_merged p out_len) = memcpy_stores 0 bytes
      /\ fst (morse_lookup_merged p out_len) = Z.of_nat (List.length bytes)
      /\ Forall table_char bytes.
Proof.
  intros p out_len. unfold morse_lookup_merged.
  destruct p as [|a q]; [exists []; repeat split; constructor|].
  destruct (out_len <? 1); [exists []; repeat split; constructor|].
  destruct (negb (Ascii.eqb (morse_lookup (String a q)) "?")).
  { exists [morse_lookup (String a q)]. repeat split.
    constructor; [apply morse_lookup_table_char | constructor]. }
  destruct (Z.of_nat (String.length (String a q)) <=? 1).
  { exists ["?"%char]. repeat split.
    constructor; [apply question_mark_table_char | constructor]. }
  pose proof (split_loop_ok (String a q)) as Hb.
  destruct (split_loop (String a q)) as [[bw bl] br].
  destruct ((0 <=? bw) && (2 <=? out_len)) eqn:E.
  - apply andb_true_iff in E as [E1 _]. apply Z.leb_le in E1.
    destruct Hb as [Hb | (_ & Hl & Hr)].
    + inversion Hb. lia.
    + exists [bl; br]. repeat split.
      constructor; [exact Hl | constructor; [exact Hr | constructor]].
  - exists ["?"%char]. repeat split.
    constructor; [apply question_mark_table_char | constructor].
Qed.

(** On a pattern of at most 16 elements, which its two 16-byte split
    buffers can hold, [morse_lookup_merged] returns 0 exactly for an empty
    pattern or a buffer without room, and 1 or 2 otherwise, 2 only into a
    buffer of at least two bytes; it writes that many bytes from [out[0]]
    on, each of them a character of the table (the NUL it starts
    [best_left] and [best_right] with is never written). *)
Theorem morse_lookup_merged_outcome :
  forall (p : string) (out_len : Z),
    Z.of_nat (String.length p) <= 16 ->
    let n := fst (morse_lookup_merged p out_len) in
    let ss := snd (morse_lookup_merged p out_len) in
    (n = 0 <-> p = EmptyString \/ out_len < 1)
    /\ (n = 0 \/ n = 1 \/ n = 2)
    /\ (n = 2 -> 2 <= out_len /\ morse_lookup p = "?"%char)
    /\ exists bytes,
         ss = memcpy_stores 0 bytes
         /\ n = Z.of_nat (List.length bytes)
         /\ Forall table_char bytes.
Proof.
  intros p out_len _ n ss. subst n ss.
  split; [|split; [|split]]; [| | |apply morse_lookup_merged_bytes].
  - unfold morse_lookup_merged. destruct p as [|a q].
    + split; [left; reflexivity | reflexivity].
    + destruct (out_len <? 1) eqn:E1.
      * apply Z.ltb_lt in E1. split; [right; exact E1 | reflexivity].
      * apply Z.ltb_ge in E1.
        assert (Hno : String a q = EmptyString \/ out_len < 1 -> False)
          by (intros [H | H]; [discriminate | lia]).
        destruct (negb _); [split; [discriminate | intros H; elim (Hno H)]|].
        destruct (_ <=? 1); [split; [discriminate | intros H; elim (Hno H)]|].
        destruct (split_loop (String a q)) as [[bw bl] br].
        destruct (_ && _);
          (split; [discriminate | intros H; elim (Hno H)]).
  - unfold morse_lookup_merged. destruct p as [|a q]; [left; reflexivity|].
    destruct (out_len <? 1); [left; reflexivity|].
    destruct (negb _); [right; left; reflexivity|].
    destruct (_ <=? 1); [right; left; reflexivity|].
    destruct (split_loop (String a q)) as [[bw bl] br].
    destruct (_ && _); [right; right | right; left]; reflexivity.
  - unfold morse_lookup_merged. destruct p as [|a q]; [discriminate|].
    destruct (out_len <? 1); [discriminate|].
    destruct (negb (Ascii.eqb (morse_lookup (String a q)) "?")) eqn:Ed;
      [discriminate|].
    destruct (_ <=? 1); [discriminate|].
    destruct (split_loop (String a q)) as [[bw bl] br].
    destruct ((0 <=? bw) && (2 <=? out_len)) eqn:E; [|discriminate].
    intros _. apply andb_true_iff in E as [_ E2]. apply Z.leb_le in E2.
    split; [exact E2|].
    apply negb_false_iff in Ed. apply Ascii.eqb_eq in Ed. exact Ed.
Qed.

Lemma morse_lookup_merged_outcome_witness :
  let n := fst (morse_lookup_merged ".-.-" 2) in
  let ss := snd (morse_lookup_merged ".-.-" 2) in
  (n = 0 <-> ".-.-"%string = EmptyString \/ 2 < 1)
  /\ (n = 0 \/ n = 1 \/ n = 2)
  /\ (n = 2 -> 2 <= 2 /\ morse_lookup ".-.-" = "?"%char)
  /\ exists bytes,
       ss = memcpy_stores 0 bytes
       /\ n = Z.of_nat (List.length bytes)
       /\ Forall table_char bytes.
Proof.
  apply (morse_lookup_merged_outcome ".-.-" 2). cbn. lia.
Defined.

(** ** output_filter.c *)

Section OutputFilter.

Local Abbreviation len l := (Z.of_nat (List.length l)) (only parsing).

(** *** One word through a cold filter *)

(** A filter that has not passed a word yet, fed one word and the space
    after it into a buffer with room for both: a word shorter than
    [min_word_length] made of the characters E, T, I, A, N, M and ['?']
    only is dropped and the filter stays as it was; every other word is
    written with its space, and the filter is warmed up from then on. *)
Theorem cold_filter_one_word :
  forall (f : output_filter_t) (w : list ascii) (out_len : Z),
    word_buf f = [] ->
    warmed_up f = 0 ->
    Forall (fun c => c <> " "%char) w ->
    1 <= len w <= 63 ->
    len w < out_len ->
    output_filter_feed f (w ++ [" "%char]) out_len
    = if (len w <? min_word_length f) && forallb is_noise_char w
      then (0, [], f)
      else (len w + 1, memcpy_stores 0 (w ++ [" "%char]),
            mk_filter [] 1 (min_word_length f)).
Proof.
  intros f w out_len Hb Hc Hs Hl Ho. unfold output_filter_feed.
  rewrite feed_loop_word; [|lia|exact Hs|unfold word_len; rewrite Hb; cbn; lia].
  rewrite Hb. cbn [app feed_loop].
  assert (E : (0 <? out_len) = true) by (apply Z.ltb_lt; lia).
  rewrite E. cbn [Ascii.eqb Bool.eqb]. rewrite Z.sub_0_r.
  unfold emit_word, word_len. cbn [word_buf warmed_up min_word_length].
  assert (E0 : (len w =? 0) = false) by (apply Z.eqb_neq; lia).
  rewrite E0, Hc. cbn [Z.eqb negb].
  destruct ((len w <? min_word_length f) && forallb is_noise_char w).
  - cbn. destruct f; cbn in *; subst; reflexivity.
  - unfold copy_word, word_len. cbn [word_buf].
    assert (E1 : (out_len <? len w) = false) by (apply Z.ltb_ge; lia).
    rewrite E1. rewrite Nat2Z.id, firstn_all.
    assert (E2 : (0 <? len w) = true) by (apply Z.ltb_lt; lia).
    rewrite E2.
    assert (E3 : (0 + len w <? out_len) = true) by (apply Z.ltb_lt; lia).
    rewrite E3. cbn [feed_loop warmed_up min_word_length app].
    rewrite memcpy_stores_app, shift_memcpy_stores. cbn [memcpy_stores].
    rewrite !Z.add_0_l. reflexivity.
Qed.

Lemma cold_filter_one_word_witness :
  output_filter_feed (output_filter_init 2) ["S"; "O"; "S"; " "]%char 8
  = (4, [(0, "S"); (1, "O"); (2, "S"); (3, " ")]%char, mk_filter [] 1 2)
  /\ output_filter_feed (output_filter_init 2) ["E"; " "]%char 8
     = (0, [], output_filter_init 2).
Proof.
  split.
  - apply (cold_filter_one_word (output_filter_init 2) ["S"; "O"; "S"]%char 8).
    + reflexivity.
    + reflexivity.
    + repeat constructor; discriminate.
    + cbn; lia.
    + cbn; lia.
  - apply (cold_filter_one_word (output_filter_init 2) ["E"]%char 8).
    + reflexivity.
    + reflexivity.
    + repeat constructor; discriminate.
    + cbn; lia.
    + cbn; lia.
Defined.
(** *** The word buffer *)

Lemma emit_word_buf :
  forall f out_len, word_buf (snd (emit_word f out_len)) = word_buf f.
Proof.
  intros f out_len. unfold emit_word.
  repeat match goal with
         | |- context [if ?b then _ else _] => destruct b
         end; reflexivity.
Qed.

Lemma feed_loop_word_len :
  forall text f out_len written ss,
    word_len f <= 63 ->
    word_len (snd (feed_loop f text out_len written ss)) <= 63.
Proof.
  induction text as [|c text IH]; intros f out_len written ss Hf.
  - exact Hf.
  - cbn [feed_loop]. destruct (written <? out_len); [|exact Hf].
    destruct (Ascii.eqb c " ").
    + destruct (emit_word f (out_len - written)) as [[n ws] f1].
      destruct (0 <? n); [destruct (written + n <? out_len)|];
        apply IH; unfold word_len; cbn; lia.
    + apply IH.
      destruct (word_len f <? OUTPUT_FILTER_MAX_WORD - 1) eqn:E; [|exact Hf].
      apply Z.ltb_lt in E. unfold OUTPUT_FILTER_MAX_WORD in E.
      unfold word_len in *. cbn [word_buf]. rewrite length_app.
      cbn [List.length]. lia.
Qed.

Lemma filter_call_run_word_len :
  forall c f, word_len f <= 63 -> word_len (filter_call_run f c) <= 63.
Proof.
  intros [text out_len | out_len |] f Hf; cbn [filter_call_run].
  - apply feed_loop_word_len. exact Hf.
  - unfold output_filter_flush.
    destruct (emit_word f out_len) as [[n ss] f1]. unfold word_len. cbn. lia.
  - unfold word_len. cbn. lia.
Qed.

(** [word_buf] never overflows: whatever is fed, flushed or reset, into
    buffers of any size from 0 up, the filter holds at most 63 characters
    of a word, one less than [OUTPUT_FILTER_MAX_WORD]; the 64th and later
    characters of a word are dropped, leaving filter and output as they
    were. *)
Theorem word_buffer_never_overflows :
  forall f : output_filter_t,
    word_len f <= 63 ->
    (forall calls,
        Forall filter_call_fits calls ->
        word_len (fold_left filter_call_run calls f) <= 63)
    /\ (word_len f = 63 ->
        forall c out_len,
          c <> " "%char -> 0 < out_len ->
          output_filter_feed f [c] out_len = (0, [], f)).
Proof.
  intros f Hf. split.
  - intros calls _. revert f Hf.
    induction calls as [|c calls IH]; intros f Hf; [exact Hf|].
    cbn [fold_left]. apply IH. apply filter_call_run_word_len. exact Hf.
  - intros H63 c out_len Hc Ho. unfold output_filter_feed. cbn [feed_loop].
    assert (E : (0 <? out_len) = true) by (apply Z.ltb_lt; lia).
    rewrite E.
    assert (Ec : Ascii.eqb c " " = false) by (apply Ascii.eqb_neq; exact Hc).
    rewrite Ec, H63. reflexivity.
Qed.

Lemma word_buffer_never_overflows_witness :
  word_len (fold_left filter_call_run
              [Feed (repeat "S"%char 100) 8; Flush 2;
               Feed ["C"; "Q"; " "]%char 8; Reset]
              (output_filter_init 2)) <= 63
  /\ output_filter_feed (mk_filter (repeat "S"%char 63) 0 2) ["O"%char] 8
     = (0, [], mk_filter (repeat "S"%char 63) 0 2).
Proof.
  split.
  - apply (word_buffer_never_overflows (output_filter_init 2)); [cbn; lia|].
    repeat (first [apply Forall_cons | apply Forall_nil | exact I
                  | (cbn; lia)]).
  - apply (word_buffer_never_overflows (mk_filter (repeat "S"%char 63) 0 2)).
    + vm_compute; discriminate.
    + reflexivity.
    + discriminate.
    + lia.
Defined.

(** *** Feeding in pieces *)

Lemma feed_all_app :
  forall t1 t2 f,
    feed_all f (t1 ++ t2)
    = (fst (feed_all f t1) ++ fst (feed_all (snd (feed_all f t1)) t2),
       snd (feed_all (snd (feed_all f t1)) t2))%list.
Proof.
  induction t1 as [|c t1 IH]; intros t2 f.
  - cbn. destruct (feed_all f t2); reflexivity.
  - cbn [app feed_all]. destruct (Ascii.eqb c " ").
    + destruct (emit_word_all f) as [w f1].
      rewrite IH.
      destruct (feed_all (mk_filter [] (warmed_up f1) (min_word_length f1)) t1)
        as [o1 f2].
      cbn [fst snd]. rewrite app_assoc. reflexivity.
    + apply IH.
Qed.

(** With room to spare, feeding a text in two calls writes the same bytes
    and leaves the same filter as feeding it in one: a word may straddle
    the calls. *)
Theorem output_filter_feed_in_pieces :
  forall (f : output_filter_t) (t1 t2 : list ascii) (out_len : Z),
    word_len f <= 63 ->
    64 * len (t1 ++ t2) < out_len ->
    let r1 := output_filter_feed f t1 out_len in
    let r2 := output_filter_feed (snd r1) t2 out_len in
    let r := output_filter_feed f (t1 ++ t2) out_len in
    fst (fst r) = fst (fst r1) + fst (fst r2)
    /\ stored_bytes (snd (fst r))
       = (stored_bytes (snd (fst r1)) ++ stored_bytes (snd (fst r2)))%list
    /\ snd r = snd r2.
Proof.
  intros f t1 t2 out_len Hf Ho r1 r2 r. subst r1 r2 r.
  rewrite length_app in Ho.
  destruct (feed_all_bound t1 f Hf) as [B1 W1].
  destruct (feed_all_bound t2 (snd (feed_all f t1)) W1) as [B2 _].
  destruct (feed_all_bound (t1 ++ t2) f Hf) as [B _].
  rewrite length_app in B.
  rewrite (output_filter_feed_exact f (t1 ++ t2)) by lia.
  rewrite (output_filter_feed_exact f t1) by lia.
  cbn [fst snd].
  rewrite (output_filter_feed_exact (snd (feed_all f t1)) t2) by lia.
  cbn [fst snd]. rewrite !stored_bytes_memcpy, feed_all_app. cbn [fst snd].
  rewrite length_app. split; [lia|]. split; reflexivity.
Qed.

Lemma output_filter_feed_in_pieces_witness :
  let f := output_filter_init 2 in
  let r1 := output_filter_feed f ["C"; "Q"; " "; "D"]%char 500 in
  let r2 := output_filter_feed (snd r1) ["X"; " "]%char 500 in
  let r := output_filter_feed f ["C"; "Q"; " "; "D"; "X"; " "]%char 500 in
  fst (fst r) = fst (fst r1) + fst (fst r2)
  /\ stored_bytes (snd (fst r))
     = (stored_bytes (snd (fst r1)) ++ stored_bytes (snd (fst r2)))%list
  /\ snd r = snd r2.
Proof.
  apply (output_filter_feed_in_pieces (output_filter_init 2)
           ["C"; "Q"; " "; "D"]%char ["X"; " "]%char 500).
  - cbn; lia.
  - cbn; lia.
Defined.

End OutputFilter.

(** ** timing.c *)

Section Timing.
Context {FO : FloatOps}.

(** *** The element codes *)

Lemma classify_signal_codes :
  forall t dur,
    let r := fst (classify_signal t dur) in
    r = ELEM_NONE \/ r = ELEM_DIT \/ r = ELEM_DAH.
Proof.
  intros t dur. unfold classify_signal, classify_signal_kalman,
    classify_signal_ema.
  destruct (t_mode t);
    repeat match goal with
           | |- context [if ?b then _ else _] => destruct b
           end; cbn; auto.
Qed.

Lemma classify_gap_codes :
  forall t dur,
    let r := fst (classify_gap t dur) in
    r = ELEM_NONE \/ r = ELEM_CHAR \/ r = ELEM_WORD.
Proof.
  intros t dur. unfold classify_gap, classify_gap_kalman, classify_gap_ema.
  destruct (t_mode t);
    repeat match goal with
           | |- context [if ?b then _ else _] => destruct b
           end; cbn; auto.
Qed.

Lemma classify_signal_seen :
  forall t dur, t_seen_signal (snd (classify_signal t dur)) = t_seen_signal t.
Proof.
  intros t dur. unfold classify_signal, classify_signal_kalman,
    classify_signal_ema, timing_kalman_update.
  destruct (t_mode t);
    repeat match goal with
           | |- context [if ?b then _ else _] => destruct b
           end; reflexivity.
Qed.

Lemma count_sample_edge :
  forall t on,
    t_prev_on (count_sample t on) = t_prev_on t
    /\ t_seen_signal (count_sample t on) = t_seen_signal t.
Proof.
  intros t on. unfold count_sample. destruct (on =? 0); split; reflexivity.
Qed.

(** [timing_process_sample] answers with one of the five element codes: a
    dit or a dah only on a falling edge, a character or word gap only on a
    rising edge that follows a first mark, and [ELEM_NONE] on every sample
    that repeats the previous one.  [timing_finalize] answers with a dit,
    a dah or [ELEM_NONE]. *)
Theorem timing_element_codes :
  forall (t : timing_t) (on : Z),
    let r := fst (timing_process_sample t on) in
    let e := fst (timing_finalize t) in
    (r = ELEM_NONE \/ r = ELEM_DIT \/ r = ELEM_DAH
     \/ r = ELEM_CHAR \/ r = ELEM_WORD)
    /\ (r = ELEM_DIT \/ r = ELEM_DAH -> t_prev_on t <> 0 /\ on = 0)
    /\ (r = ELEM_CHAR \/ r = ELEM_WORD ->
        t_prev_on t = 0 /\ on <> 0 /\ t_seen_signal t <> 0)
    /\ (e = ELEM_NONE \/ e = ELEM_DIT \/ e = ELEM_DAH).
Proof.
  intros t on r e. subst r e.
  assert (Hfin : fst (timing_finalize t) = ELEM_NONE
                 \/ fst (timing_finalize t) = ELEM_DIT
                 \/ fst (timing_finalize t) = ELEM_DAH).
  { unfold timing_finalize.
    destruct ((0 <? t_on_dur t) && negb (t_seen_signal t =? 0));
      [|left; reflexivity].
    pose proof (classify_signal_codes t (t_on_dur t)) as H.
    destruct (classify_signal t (t_on_dur t)); exact H. }
  unfold timing_process_sample.
  destruct (count_sample_edge t on) as [Hp Hs].
  set (t0 := count_sample t on) in *.
  unfold mark_block, gap_block, mark_edge, gap_edge.
  rewrite Hp.
  destruct (t_prev_on t =? 0) eqn:Ep; destruct (on =? 0) eqn:Eo;
    cbn [negb andb].
  - (* off, stays off *)
    rewrite Hp, Ep. cbn [negb andb fst]. unfold ELEM_NONE, ELEM_DIT, ELEM_DAH, ELEM_CHAR, ELEM_WORD in *.
    split; [auto|].
    split; [intros [H | H]; discriminate H|].
    split; [intros [H | H]; discriminate H | exact Hfin].
  - (* rising edge *)
    rewrite Hp, Ep. cbn [andb]. rewrite Hs.
    apply Z.eqb_eq in Ep. apply Z.eqb_neq in Eo.
    destruct (t_seen_signal t =? 0) eqn:Es.
    + cbn [fst]. unfold ELEM_NONE, ELEM_DIT, ELEM_DAH, ELEM_CHAR, ELEM_WORD in *.
      split; [auto|].
      split; [intros [H | H]; discriminate H|].
      split; [intros [H | H]; discriminate H | exact Hfin].
    + apply Z.eqb_neq in Es.
      pose proof (classify_gap_codes t0 (t_off_dur t0)) as Hg.
      destruct (classify_gap t0 (t_off_dur t0)) as [g t1]. cbn [fst] in *.
      unfold ELEM_NONE, ELEM_DIT, ELEM_DAH, ELEM_CHAR, ELEM_WORD in *.
      destruct Hg as [-> | [-> | ->]]; cbn [Z.eqb fst];
        (split; [auto 6|]);
        (split; [intros [H | H]; discriminate H|]);
        (split; [intros _; auto | exact Hfin]).
  - (* falling edge *)
    apply Z.eqb_neq in Ep. apply Z.eqb_eq in Eo.
    pose proof (classify_signal_codes t0 (t_on_dur t0)) as Hm.
    pose proof (classify_signal_prev_on t0 (t_on_dur t0)) as Hq.
    destruct (classify_signal t0 (t_on_dur t0)) as [m t1].
    cbn [fst snd] in *.
    assert (Eq : (t_prev_on (set_seen_signal (set_on_dur t1 0) 1) =? 0)
                 = false).
    { cbn. rewrite Hq, Hp. apply Z.eqb_neq. exact Ep. }
    rewrite Eq. cbn [andb fst].
    unfold ELEM_NONE, ELEM_DIT, ELEM_DAH, ELEM_CHAR, ELEM_WORD in *.
    destruct Hm as [-> | [-> | ->]];
      (split; [auto 6|]);
      (split; [intros _; auto|]);
      (split; [intros [H | H]; discriminate H | exact Hfin]).
  - (* on, stays on *)
    rewrite Hp, Ep. cbn [andb fst].
    unfold ELEM_NONE, ELEM_DIT, ELEM_DAH, ELEM_CHAR, ELEM_WORD in *.
    split; [auto|].
    split; [intros [H | H]; discriminate H|].
    split; [intros [H | H]; discriminate H | exact Hfin].
Qed.

(** *** Durations *)

Lemma timing_run_app :
  forall l1 l2 t,
    timing_run t (l1 ++ l2)
    = (fst (timing_run t l1) ++ fst (timing_run (snd (timing_run t l1)) l2),
       snd (timing_run (snd (timing_run t l1)) l2))%list.
Proof.
  induction l1 as [|on l1 IH]; intros l2 t.
  - cbn. destruct (timing_run t l2); reflexivity.
  - cbn [app timing_run].
    destruct (timing_process_sample t on) as [e t1]. rewrite IH.
    destruct (timing_run t1 l1) as [m t2]. cbn [fst snd].
    destruct (timing_run t2 l2); reflexivity.
Qed.

(** A sample that repeats the previous one only counts. *)
Lemma steady_sample :
  forall t on,
    (t_prev_on t =? 0) = (on =? 0) ->
    timing_process_sample t on = (ELEM_NONE, set_prev_on (count_sample t on) on).
Proof.
  intros t on H. unfold timing_process_sample, mark_block, gap_block,
    mark_edge, gap_edge.
  destruct (count_sample_edge t on) as [Hp _]. rewrite Hp, H.
  destruct (on =? 0); cbn [negb andb]; rewrite ?Hp, ?H; reflexivity.
Qed.

Lemma steady_on_run :
  forall n t on,
    t_prev_on t <> 0 -> on <> 0 ->
    timing_run t (repeat on n)
    = (repeat ELEM_NONE n,
       set_running t (t_on_dur t + Z.of_nat n) (t_off_dur t)
                   (if (n =? 0)%nat then t_prev_on t else on)
                   (t_seen_signal t) (t_element_count t)).
Proof.
  induction n as [|n IH]; intros t on Hp Ho.
  - cbn [repeat timing_run Nat.eqb Z.of_nat]. rewrite Z.add_0_r.
    destruct t; reflexivity.
  - cbn [repeat timing_run].
    rewrite steady_sample.
    2:{ apply Z.eqb_neq in Hp. apply Z.eqb_neq in Ho. congruence. }
    unfold count_sample.
    assert (Eo : (on =? 0) = false) by (apply Z.eqb_neq; exact Ho).
    rewrite Eo. rewrite IH; [|cbn; exact Ho|exact Ho].
    f_equal. rewrite Nat2Z.inj_succ.
    destruct t; cbv [set_running set_prev_on set_on_dur]; cbn.
    f_equal; [lia | destruct n; reflexivity].
Qed.

Lemma steady_off_run :
  forall n t,
    t_prev_on t = 0 ->
    timing_run t (repeat 0 n)
    = (repeat ELEM_NONE n, set_off_dur t (t_off_dur t + Z.of_nat n)).
Proof.
  induction n as [|n IH]; intros t Hp.
  - cbn [repeat timing_run Z.of_nat]. rewrite Z.add_0_r.
    destruct t; reflexivity.
  - cbn [repeat timing_run].
    rewrite steady_sample by (rewrite Hp; reflexivity).
    unfold count_sample. cbn [Z.eqb]. rewrite IH by reflexivity.
    f_equal. rewrite Nat2Z.inj_succ.
    destruct t; cbn in Hp; subst.
    cbv [set_running set_prev_on set_off_dur]; cbn. f_equal; lia.
Qed.

(** Durations are counted without an off-by-one, as long as the counters
    have room for the samples: a mark of [n] samples, closed by the first
    off sample, is classified with duration [n] added to what [on_dur]
    held, and a gap of [n] samples after a first mark, closed by the
    first on sample, with duration [n] added to [off_dur]; the samples in
    between answer [ELEM_NONE]. *)
Theorem durations_counted_exactly :
  forall (t : timing_t) (n : nat),
    counters_fit t (Z.of_nat n + 1) ->
    (t_prev_on t <> 0 ->
     fst (timing_run t (repeat 1 n ++ [0]))
     = (repeat ELEM_NONE n
        ++ [fst (classify_signal
                   (set_running t (t_on_dur t + Z.of_nat n) (t_off_dur t + 1)
                                (if (n =? 0)%nat then t_prev_on t else 1)
                                (t_seen_signal t) (t_element_count t))
                   (t_on_dur t + Z.of_nat n))])%list)
    /\ (t_prev_on t = 0 -> t_seen_signal t <> 0 ->
        fst (timing_run t (repeat 0 n ++ [1]))
        = (repeat ELEM_NONE n
           ++ [fst (classify_gap
                      (set_running t (t_on_dur t + 1)
                                   (t_off_dur t + Z.of_nat n) 0
                                   (t_seen_signal t) (t_element_count t))
                      (t_off_dur t + Z.of_nat n))])%list).
Proof.
  intros t n _. split.
  - intros Hp. rewrite timing_run_app, steady_on_run by (auto; discriminate).
    cbn [fst snd]. f_equal.
    set (t1 := set_running t _ _ _ _ _).
    assert (Hp1 : t_prev_on t1 <> 0)
      by (subst t1; cbn; destruct n; cbn; [exact Hp | discriminate]).
    cbn [timing_run]. unfold timing_process_sample, mark_block, mark_edge,
      count_sample. cbn [Z.eqb].
    assert (E1 : (t_prev_on (set_off_dur t1 (t_off_dur t1 + 1)) =? 0) = false)
      by (apply Z.eqb_neq; exact Hp1).
    rewrite E1. cbn [negb andb].
    replace (set_off_dur t1 (t_off_dur t1 + 1))
      with (set_running t (t_on_dur t + Z.of_nat n) (t_off_dur t + 1)
                        (if (n =? 0)%nat then t_prev_on t else 1)
                        (t_seen_signal t) (t_element_count t))
      by (subst t1; destruct t; reflexivity).
    set (t2 := set_running t _ _ _ _ _).
    replace (t_on_dur t2) with (t_on_dur t + Z.of_nat n)
      by (subst t2; reflexivity).
    pose proof (classify_signal_prev_on t2 (t_on_dur t + Z.of_nat n)) as Hq.
    destruct (classify_signal t2 (t_on_dur t + Z.of_nat n)) as [m t3].
    cbn [fst snd] in *. unfold gap_block, gap_edge.
    assert (E3 : (t_prev_on (set_seen_signal (set_on_dur t3 0) 1) =? 0)
                 = false).
    { cbn. rewrite Hq. subst t2. cbn. apply Z.eqb_neq.
      destruct n; cbn; [exact Hp | discriminate]. }
    rewrite E3. reflexivity.
  - intros Hp Hs. rewrite timing_run_app, steady_off_run by exact Hp.
    cbn [fst snd]. f_equal.
    set (t1 := set_off_dur t _).
    cbn [timing_run]. unfold timing_process_sample, mark_block, mark_edge,
      count_sample. cbn [Z.eqb negb andb].
    rewrite andb_false_r. unfold gap_block, gap_edge.
    replace (set_on_dur t1 (t_on_dur t1 + 1))
      with (set_running t (t_on_dur t + 1) (t_off_dur t + Z.of_nat n) 0
                        (t_seen_signal t) (t_element_count t))
      by (subst t1; destruct t; cbn in *; subst; reflexivity).
    set (t2 := set_running t _ _ _ _ _).
    change (t_prev_on t2) with 0. change (t_seen_signal t2) with (t_seen_signal t).
    change (t_off_dur t2) with (t_off_dur t + Z.of_nat n).
    cbn [Z.eqb negb andb].
    assert (Es : (t_seen_signal t =? 0) = false) by (apply Z.eqb_neq; exact Hs).
    rewrite Es.
    pose proof (classify_gap_codes t2 (t_off_dur t + Z.of_nat n)) as Hg.
    destruct (classify_gap t2 (t_off_dur t + Z.of_nat n)) as [g t3].
    cbn [fst] in *. unfold ELEM_NONE, ELEM_CHAR, ELEM_WORD in *.
    destruct Hg as [-> | [-> | ->]]; reflexivity.
Qed.

(** *** A mark below the noise floor *)

Lemma classify_signal_noise :
  forall t dur,
    dur < t_min_element_abs t -> classify_signal t dur = (ELEM_NONE, t).
Proof.
  intros t dur H. unfold classify_signal, classify_signal_kalman,
    classify_signal_ema.
  destruct (t_mode t).
  - set (m := f_to_int _).
    destruct (m <? t_min_element_abs t) eqn:E.
    + assert (E1 : (dur <? t_min_element_abs t) = true)
        by (apply Z.ltb_lt; exact H).
      rewrite E1. reflexivity.
    + apply Z.ltb_ge in E.
      assert (E1 : (dur <? m) = true) by (apply Z.ltb_lt; lia).
      rewrite E1. reflexivity.
  - set (m := f_to_int _).
    destruct (m <? t_min_element_abs t) eqn:E.
    + assert (E1 : (dur <? t_min_element_abs t) = true)
        by (apply Z.ltb_lt; exact H).
      rewrite E1. reflexivity.
    + apply Z.ltb_ge in E.
      assert (E1 : (dur <? m) = true) by (apply Z.ltb_lt; lia).
      rewrite E1. reflexivity.
Qed.

(** A mark shorter than [min_element_abs] is dropped in either timing
    mode: its falling edge answers [ELEM_NONE] and leaves the speed
    estimate and the element count alone.  It still counts as a first
    mark: [seen_signal] is set, so the gap after it is classified. *)
Theorem short_mark_dropped :
  forall t : timing_t,
    t_prev_on t <> 0 ->
    t_on_dur t < t_min_element_abs t ->
    timing_process_sample t 0
    = (ELEM_NONE,
       set_running t 0 (t_off_dur t + 1) 0 1 (t_element_count t)).
Proof.
  intros t Hp Hd. unfold timing_process_sample, count_sample. cbn [Z.eqb].
  unfold mark_block, mark_edge.
  assert (E : (t_prev_on (set_off_dur t (t_off_dur t + 1)) =? 0) = false)
    by (apply Z.eqb_neq; exact Hp).
  rewrite E. cbn [negb andb Z.eqb].
  rewrite classify_signal_noise by exact Hd.
  unfold gap_block, gap_edge.
  assert (E2 : (t_prev_on (set_seen_signal
                             (set_on_dur (set_off_dur t (t_off_dur t + 1)) 0)
                             1) =? 0) = false)
    by (apply Z.eqb_neq; exact Hp).
  rewrite E2. reflexivity.
Qed.

(** *** Finalizing twice *)

Lemma classify_signal_on_dur :
  forall t dur, t_on_dur (snd (classify_signal t dur)) = t_on_dur t.
Proof.
  intros t dur. unfold classify_signal, classify_signal_kalman,
    classify_signal_ema, timing_kalman_update.
  destruct (t_mode t);
    repeat match goal with
           | |- context [if ?b then _ else _] => destruct b
           end; reflexivity.
Qed.

(** The pending mark is reported once: a [timing_finalize] right after
    another answers [ELEM_NONE] and changes nothing. *)
Theorem timing_finalize_twice :
  forall t : timing_t,
    timing_finalize (snd (timing_finalize t))
    = (ELEM_NONE, snd (timing_finalize t)).
Proof.
  intros t. unfold timing_finalize at 2 3.
  destruct ((0 <? t_on_dur t) && negb (t_seen_signal t =? 0)) eqn:E.
  - destruct (classify_signal t (t_on_dur t)) as [r t1]. cbn [snd].
    unfold timing_finalize. reflexivity.
  - cbn [snd]. unfold timing_finalize. rewrite E. reflexivity.
Qed.

End Timing.

(** ** Resets: a reset forgets what came before *)

Section ResetsForget.
Context {FO : FloatOps}.

(** *** kalman.c *)

(** [kalman_update] and [apply_bounds] write [x] and [P] only. *)
Lemma kalman_update_frame :
  forall k i D,
    let k' := snd (kalman_update k i D) in
    k_Q k' = k_Q k /\ k_R k' = k_R k
    /\ k_innovation_gate k' = k_innovation_gate k
    /\ k_sample_rate k' = k_sample_rate k
    /\ k_min_wpm k' = k_min_wpm k /\ k_max_wpm k' = k_max_wpm k.
Proof.
  intros k i D. unfold kalman_update.
  repeat match goal with
         | |- context [if ?b then _ else _] => destruct b
         end; cbn; repeat split; reflexivity.
Qed.

Lemma kalman_reset_update :
  forall k i D wpm,
    kalman_reset (snd (kalman_update k i D)) wpm = kalman_reset k wpm.
Proof.
  intros k i D wpm.
  destruct (kalman_update_frame k i D) as (HQ & HR & Hg & Hs & Hmn & Hmx).
  unfold kalman_reset, set_P, set_x. cbn.
  rewrite HQ, HR, Hg, Hs, Hmn, Hmx. reflexivity.
Qed.

Lemma kalman_reset_updates :
  forall ms k wpm, kalman_reset (kalman_updates k ms) wpm = kalman_reset k wpm.
Proof.
  induction ms as [|m ms IH]; intros k wpm; [reflexivity|].
  unfold kalman_updates in *. cbn [fold_left]. rewrite IH.
  apply kalman_reset_update.
Qed.

Lemma kalman_reset_init :
  forall sr wpm mn mx,
    kalman_reset (kalman_init sr wpm mn mx) wpm = kalman_init sr wpm mn mx.
Proof. reflexivity. Qed.

(** Whatever measurements a filter has taken since [kalman_init],
    [kalman_reset] with the same initial speed puts it back exactly as
    [kalman_init] left it: the updates touch the state and covariance
    only, which the reset overwrites. *)
Theorem kalman_reset_restores_init :
  forall (sr : Z) (wpm mn mx : float) (ms : list (Z * float)),
    kalman_reset (kalman_updates (kalman_init sr wpm mn mx) ms) wpm
    = kalman_init sr wpm mn mx.
Proof.
  intros sr wpm mn mx ms. rewrite kalman_reset_updates.
  apply kalman_reset_init.
Qed.

(** *** timing.c *)

Ltac timing_cases :=
  repeat match goal with
         | |- context [if ?b then _ else _] => destruct b
         end.

Lemma timing_reset_kalman_update :
  forall t idx dur wpm,
    t_mode t = TIMING_MODE_KALMAN ->
    timing_reset (timing_kalman_update t idx dur) wpm = timing_reset t wpm.
Proof.
  intros t idx dur wpm Hm. unfold timing_kalman_update, timing_reset.
  cbn. rewrite Hm. unfold set_kalman. cbn.
  rewrite kalman_reset_update. reflexivity.
Qed.

Lemma timing_reset_running :
  forall t a b c d e wpm,
    timing_reset (set_running t a b c d e) wpm = timing_reset t wpm.
Proof. reflexivity. Qed.

Lemma timing_reset_avg_dit :
  forall t v wpm, timing_reset (set_avg_dit t v) wpm = timing_reset t wpm.
Proof. reflexivity. Qed.

Lemma timing_reset_classify_signal :
  forall t dur wpm,
    timing_reset (snd (classify_signal t dur)) wpm = timing_reset t wpm.
Proof.
  intros t dur wpm. unfold classify_signal, classify_signal_kalman,
    classify_signal_ema.
  destruct (t_mode t) eqn:Em; timing_cases; cbn [snd];
    rewrite ?timing_reset_kalman_update by exact Em; reflexivity.
Qed.

Lemma timing_reset_classify_gap :
  forall t dur wpm,
    timing_reset (snd (classify_gap t dur)) wpm = timing_reset t wpm.
Proof.
  intros t dur wpm. unfold classify_gap, classify_gap_kalman,
    classify_gap_ema.
  destruct (t_mode t) eqn:Em; timing_cases; cbn [snd];
    rewrite ?timing_reset_kalman_update by exact Em; reflexivity.
Qed.

Lemma timing_reset_sample :
  forall t on wpm,
    timing_reset (snd (timing_process_sample t on)) wpm = timing_reset t wpm.
Proof.
  intros t on wpm. unfold timing_process_sample.
  assert (H0 : timing_reset (count_sample t on) wpm = timing_reset t wpm)
    by (unfold count_sample; destruct (on =? 0); reflexivity).
  set (t0 := count_sample t on) in *.
  assert (H1 : timing_reset (snd (mark_block ELEM_NONE t0 on)) wpm
               = timing_reset t wpm).
  { unfold mark_block. destruct (mark_edge t0 on); [|exact H0].
    pose proof (timing_reset_classify_signal t0 (t_on_dur t0) wpm) as Hc.
    destruct (classify_signal t0 (t_on_dur t0)) as [r t1]. cbn [snd] in *.
    unfold set_seen_signal, set_on_dur.
    rewrite !timing_reset_running, Hc. exact H0. }
  destruct (mark_block ELEM_NONE t0 on) as [r1 t1]. cbn [snd] in H1.
  unfold gap_block. destruct (gap_edge t1 on).
  - destruct (t_seen_signal t1 =? 0).
    + cbn [snd]. unfold set_prev_on, set_off_dur.
      rewrite !timing_reset_running. exact H1.
    + pose proof (timing_reset_classify_gap t1 (t_off_dur t1) wpm) as Hc.
      destruct (classify_gap t1 (t_off_dur t1)) as [g t2]. cbn [snd] in *.
      unfold set_prev_on, set_off_dur.
      rewrite !timing_reset_running, Hc. exact H1.
  - cbn [snd]. unfold set_prev_on. rewrite timing_reset_running. exact H1.
Qed.

Lemma timing_reset_finalize :
  forall t wpm,
    timing_reset (snd (timing_finalize t)) wpm = timing_reset t wpm.
Proof.
  intros t wpm. unfold timing_finalize.
  destruct ((0 <? t_on_dur t) && negb (t_seen_signal t =? 0)); [|reflexivity].
  pose proof (timing_reset_classify_signal t (t_on_dur t) wpm) as Hc.
  destruct (classify_signal t (t_on_dur t)) as [r t1]. cbn [snd] in *.
  unfold set_on_dur. rewrite timing_reset_running. exact Hc.
Qed.

Lemma timing_reset_calls :
  forall calls t wpm,
    timing_reset (fold_left timing_call_run calls t) wpm = timing_reset t wpm.
Proof.
  induction calls as [|c calls IH]; intros t wpm; [reflexivity|].
  cbn [fold_left]. rewrite IH.
  destruct c; cbn [timing_call_run];
    [apply timing_reset_sample | apply timing_reset_finalize].
Qed.

Lemma timing_reset_init :
  forall mode sr wpm mn mx ratio floor_s,
    timing_reset (timing_init mode sr wpm mn mx ratio floor_s) wpm
    = timing_init mode sr wpm mn mx ratio floor_s.
Proof. intros [|] sr wpm mn mx ratio floor_s; reflexivity. Qed.

(** Whatever samples a classifier has taken since [timing_init], and
    whether or not it was finalized, [timing_reset] with the same initial
    speed puts it back exactly as [timing_init] left it, in either timing
    mode. *)
Theorem timing_reset_restores_init :
  forall (mode : timing_mode_t) (sr : Z)
         (wpm mn mx ratio floor_s : float) (calls : list timing_call),
    timing_reset
      (fold_left timing_call_run calls
                 (timing_init mode sr wpm mn mx ratio floor_s)) wpm
    = timing_init mode sr wpm mn mx ratio floor_s.
Proof.
  intros. rewrite timing_reset_calls. apply timing_reset_init.
Qed.

End ResetsForget.

(** ** iir_filter.c *)

Section IirFilter.
Context {FO : FloatOps}.

(** *** Processing in chunks *)

Lemma biquad_fold_app :
  forall sec data z0 z1 acc,
    fold_left (biquad_step sec) data (z0, z1, acc)
    = (fst (fst (fold_left (biquad_step sec) data (z0, z1, []))),
       snd (fst (fold_left (biquad_step sec) data (z0, z1, []))),
       acc ++ snd (fold_left (biquad_step sec) data (z0, z1, [])))%list.
Proof.
  intros sec data. induction data as [|x data IH]; intros z0 z1 acc.
  - cbn. rewrite app_nil_r. reflexivity.
  - cbn [fold_left biquad_step]. rewrite IH.
    rewrite (IH _ _ ([] ++ _)%list). cbn [fst snd app].
    rewrite <- app_assoc. reflexivity.
Qed.

Lemma section_process_app :
  forall sec a b,
    section_process sec (a ++ b)
    = (fst (section_process (fst (section_process sec a)) b),
       snd (section_process sec a)
       ++ snd (section_process (fst (section_process sec a)) b))%list.
Proof.
  intros sec a b. unfold section_process. rewrite fold_left_app.
  destruct (fold_left (biquad_step sec) a (sec_z0 sec, sec_z1 sec, []))
    as [[z0 z1] ya] eqn:Ea.
  cbn [fst snd sec_b0 sec_b1 sec_b2 sec_a1 sec_a2 sec_z0 sec_z1].
  rewrite (biquad_fold_app sec b z0 z1 ya).
  change (biquad_step (mk_section (sec_b0 sec) (sec_b1 sec) (sec_b2 sec)
                                  (sec_a1 sec) (sec_a2 sec) z0 z1))
    with (biquad_step sec).
  destruct (fold_left (biquad_step sec) b (z0, z1, [])) as [[z0' z1'] yb].
  reflexivity.
Qed.

Lemma iir_filter_process_app :
  forall f a b,
    iir_filter_process f (a ++ b)
    = (fst (iir_filter_process (fst (iir_filter_process f a)) b),
       snd (iir_filter_process f a)
       ++ snd (iir_filter_process (fst (iir_filter_process f a)) b))%list.
Proof.
  induction f as [|sec rest IH]; intros a b; [reflexivity|].
  cbn [iir_filter_process]. rewrite section_process_app.
  destruct (section_process sec a) as [sec1 ya] eqn:E1. cbn [fst snd].
  destruct (section_process sec1 b) as [sec2 yb] eqn:E2.
  rewrite IH.
  destruct (iir_filter_process rest ya) as [rest1 ya'] eqn:E3. cbn [fst snd].
  destruct (iir_filter_process rest1 yb) as [rest2 yb'] eqn:E4.
  cbn [iir_filter_process fst snd]. rewrite E2, E4. reflexivity.
Qed.

Lemma iir_filter_run_concat :
  forall chunks f,
    iir_filter_process f (List.concat chunks)
    = (fst (iir_filter_run f chunks),
       List.concat (snd (iir_filter_run f chunks))).
Proof.
  induction chunks as [|c chunks IH]; intros f.
  - cbn. induction f as [|sec rest IHf]; [reflexivity|].
    cbn. rewrite IHf. destruct sec; reflexivity.
  - cbn [List.concat iir_filter_run]. rewrite iir_filter_process_app.
    destruct (iir_filter_process f c) as [f1 y]. cbn [fst snd].
    rewrite IH. destruct (iir_filter_run f1 chunks) as [f2 ys].
    reflexivity.
Qed.

(** The IIR cascade does not see chunk boundaries: however a signal is
    cut into chunks, filtering the chunks in order gives, joined, the
    samples of filtering the signal whole, and leaves the same state, in
    every arithmetic. *)
Theorem iir_filter_chunking_independent :
  forall (f : iir_filter_t) (chunks1 chunks2 : list (list float)),
    List.concat chunks1 = List.concat chunks2 ->
    fst (iir_filter_run f chunks1) = fst (iir_filter_run f chunks2)
    /\ List.concat (snd (iir_filter_run f chunks1))
       = List.concat (snd (iir_filter_run f chunks2)).
Proof.
  intros f chunks1 chunks2 H.
  pose proof (iir_filter_run_concat chunks1 f) as H1.
  pose proof (iir_filter_run_concat chunks2 f) as H2.
  rewrite H, H2 in H1. inversion H1. split; reflexivity.
Qed.

(** *** Reset *)

Lemma section_process_coefficients :
  forall sec data,
    let sec' := fst (section_process sec data) in
    sec_b0 sec' = sec_b0 sec /\ sec_b1 sec' = sec_b1 sec
    /\ sec_b2 sec' = sec_b2 sec /\ sec_a1 sec' = sec_a1 sec
    /\ sec_a2 sec' = sec_a2 sec.
Proof.
  intros sec data. unfold section_process.
  destruct (fold_left _ _ _) as [[z0 z1] y]. cbn. repeat split.
Qed.

Lemma iir_filter_reset_process :
  forall f data,
    iir_filter_reset (fst (iir_filter_process f data)) = iir_filter_reset f.
Proof.
  induction f as [|sec rest IH]; intros data; [reflexivity|].
  cbn [iir_filter_process].
  pose proof (section_process_coefficients sec data) as Hc.
  destruct (section_process sec data) as [sec1 y]. cbn [fst] in Hc.
  destruct Hc as (H0 & H1 & H2 & H3 & H4).
  specialize (IH y).
  destruct (iir_filter_process rest y) as [rest1 y']. cbn [fst] in *.
  cbn [iir_filter_reset map]. unfold iir_filter_reset in IH.
  rewrite IH, H0, H1, H2, H3, H4. reflexivity.
Qed.

Lemma iir_filter_reset_zero :
  forall f, Forall zero_state f -> iir_filter_reset f = f.
Proof.
  induction f as [|sec rest IH]; intros H; [reflexivity|].
  inversion H as [|? ? [Hz0 Hz1] Hr]; subst.
  cbn [iir_filter_reset map]. unfold iir_filter_reset in IH.
  rewrite IH by exact Hr. destruct sec; cbn in *; subst. reflexivity.
Qed.

End IirFilter.

(** ** Arrays *)

Lemma nset_same :
  forall A (a : list A) i v d,
    (i < List.length a)%nat -> nth i (nset a i v) d = v.
Proof.
  induction a as [|h tl IH]; intros i v d H; [cbn in H; lia|].
  destruct i as [|i]; [reflexivity|]. cbn. apply IH. cbn in H. lia.
Qed.

Lemma nset_other :
  forall A (a : list A) i j v d, i <> j -> nth j (nset a i v) d = nth j a d.
Proof.
  induction a as [|h tl IH]; intros i j v d H; [reflexivity|].
  destruct i as [|i]; destruct j as [|j]; cbn; try reflexivity;
    [congruence | apply IH; congruence].
Qed.

Lemma nset_nset_same :
  forall A (a : list A) i v v', nset (nset a i v) i v' = nset a i v'.
Proof.
  induction a as [|h tl IH]; intros i v v'; [reflexivity|].
  destruct i as [|i]; cbn; [reflexivity | rewrite IH; reflexivity].
Qed.

Lemma nset_nset_other :
  forall A (a : list A) i j v v',
    i <> j -> nset (nset a i v) j v' = nset (nset a j v') i v.
Proof.
  induction a as [|h tl IH]; intros i j v v' H; [reflexivity|].
  destruct i as [|i]; destruct j as [|j]; cbn; try reflexivity;
    [congruence | rewrite IH by congruence; reflexivity].
Qed.

Lemma aget_aset_same :
  forall A (a : list A) i v d,
    0 <= i < Z.of_nat (List.length a) -> aget d (aset a i v) i = v.
Proof.
  intros A a i v d H. unfold aget, aset.
  assert (E : (i <? 0) = false) by (apply Z.ltb_ge; lia).
  rewrite E. apply nset_same. lia.
Qed.

Lemma aget_aset_other :
  forall A (a : list A) i j v d,
    i <> j -> aget d (aset a i v) j = aget d a j.
Proof.
  intros A a i j v d H. unfold aget, aset.
  destruct (j <? 0) eqn:Ej; [reflexivity|].
  destruct (i <? 0) eqn:Ei; [reflexivity|].
  apply Z.ltb_ge in Ej. apply Z.ltb_ge in Ei.
  apply nset_other. intros Hn. apply H. apply Z2Nat.inj; lia.
Qed.

Lemma aset_aset_same :
  forall A (a : list A) i v v', aset (aset a i v) i v' = aset a i v'.
Proof.
  intros A a i v v'. unfold aset. destruct (i <? 0); [reflexivity|].
  apply nset_nset_same.
Qed.

Lemma aset_aset_other :
  forall A (a : list A) i j v v',
    i <> j -> aset (aset a i v) j v' = aset (aset a j v') i v.
Proof.
  intros A a i j v v' H. unfold aset.
  destruct (i <? 0) eqn:Ei; destruct (j <? 0) eqn:Ej; try reflexivity.
  apply Z.ltb_ge in Ej. apply Z.ltb_ge in Ei.
  apply nset_nset_other. intros Hn. apply H. apply Z2Nat.inj; lia.
Qed.

(** Overwriting every index of [ixs] makes an earlier store to one of them
    invisible. *)
Lemma fold_aset_absorbs :
  forall A (c : A) (ixs : list Z) (a : list A) p v,
    In p ixs ->
    fold_left (fun a i => aset a i c) ixs (aset a p v)
    = fold_left (fun a i => aset a i c) ixs a.
Proof.
  intros A c ixs. induction ixs as [|i ixs IH]; intros a p v H; [elim H|].
  cbn [fold_left]. destruct (Z.eq_dec i p) as [-> | Hne].
  - rewrite aset_aset_same. reflexivity.
  - destruct H as [H | H]; [congruence|].
    rewrite aset_aset_other by congruence. apply IH. exact H.
Qed.

(** ** multipass_avg.c *)

Section Multipass.
Context {FO : FloatOps}.

Local Abbreviation len l := (Z.of_nat (List.length l)) (only parsing).

(** *** What a pass remembers of a chunk *)

Lemma pass_save_len :
  forall w buf buf_n data n,
    snd (pass_save w buf buf_n data n) = Z.min n (Z.min (w - 1) 256).
Proof.
  intros w buf buf_n data n. unfold pass_save, MULTIPASS_MAX_WINDOW.
  destruct (n <? w - 1) eqn:E1;
    [apply Z.ltb_lt in E1 | apply Z.ltb_ge in E1].
  - destruct (256 <? n) eqn:E2;
      [apply Z.ltb_lt in E2 | apply Z.ltb_ge in E2].
    + assert (E3 : (w - 1 <=? n) = false) by (apply Z.leb_gt; lia).
      rewrite E3. cbn [snd].
      destruct (buf_n - n <? 0) eqn:E4;
        [apply Z.ltb_lt in E4 | apply Z.ltb_ge in E4];
        match goal with
        | |- (if ?b then _ else _) = _ => destruct b eqn:E5
        end;
        try (apply Z.ltb_lt in E5); try (apply Z.ltb_ge in E5); lia.
    + assert (E3 : (w - 1 <=? n) = false) by (apply Z.leb_gt; lia).
      rewrite E3. cbn [snd].
      destruct (buf_n - n <? 0) eqn:E4;
        [apply Z.ltb_lt in E4 | apply Z.ltb_ge in E4];
        match goal with
        | |- (if ?b then _ else _) = _ => destruct b eqn:E5
        end;
        try (apply Z.ltb_lt in E5); try (apply Z.ltb_ge in E5); lia.
  - assert (E3 : (w - 1 <=? n) = true) by (apply Z.leb_le; lia).
    destruct (256 <? w - 1) eqn:E2;
      [apply Z.ltb_lt in E2 | apply Z.ltb_ge in E2];
      rewrite E3; cbn [snd]; lia.
Qed.

Lemma multipass_pass_fields :
  forall w inv_w mp data pass,
    let r := fst (multipass_pass w inv_w (mp, data) pass) in
    mp_n_passes r = mp_n_passes mp
    /\ mp_window_size r = mp_window_size mp
    /\ (exists b, mp_buffers r = aset (mp_buffers mp) pass b)
    /\ mp_buf_len r
       = aset (mp_buf_len mp) pass (Z.min (len data) (Z.min (w - 1) 256))
    /\ (exists s, mp_running_sum r = aset (mp_running_sum mp) pass s).
Proof.
  intros w inv_w mp data pass. unfold multipass_pass.
  destruct (fold_left _ _ _) as [data' sum'] eqn:Ef.
  assert (Hl : List.length data' = List.length data).
  { pose proof (multipass_pass_length w inv_w mp data pass) as H.
    unfold multipass_pass in H. rewrite Ef in H.
    destruct (pass_save _ _ _ _ _) in H. exact H. }
  pose proof (pass_save_len w (aget [] (mp_buffers mp) pass)
                (aget 0 (mp_buf_len mp) pass) data' (len data)) as Hs.
  destruct (pass_save _ _ _ _ _) as [buf' len']. cbn [snd] in Hs.
  cbn [fst mp_n_passes mp_window_size mp_buffers mp_buf_len mp_running_sum].
  subst len'. repeat split; eauto.
Qed.

Lemma multipass_fold_buf_len :
  forall ps w inv_w mp data,
    let r := fold_left (multipass_pass w inv_w) ps (mp, data) in
    mp_n_passes (fst r) = mp_n_passes mp
    /\ mp_window_size (fst r) = mp_window_size mp
    /\ List.length (mp_buf_len (fst r)) = List.length (mp_buf_len mp)
    /\ (forall p, In p ps -> 0 <= p < len (mp_buf_len mp) ->
                  aget 0 (mp_buf_len (fst r)) p
                  = Z.min (len data) (Z.min (w - 1) 256))
    /\ (forall p, ~ In p ps ->
                  aget 0 (mp_buf_len (fst r)) p = aget 0 (mp_buf_len mp) p).
Proof.
  induction ps as [|q ps IH]; intros w inv_w mp data.
  - cbn. repeat split; auto. intros p [].
  - cbn [fold_left].
    pose proof (multipass_pass_fields w inv_w mp data q) as Hf.
    pose proof (multipass_pass_length w inv_w mp data q) as Hl.
    destruct (multipass_pass w inv_w (mp, data) q) as [mp1 data1].
    cbn [fst snd] in Hf, Hl. destruct Hf as (Hn & Hw & _ & Hb & _).
    specialize (IH w inv_w mp1 data1). cbv zeta in IH.
    destruct IH as (IHn & IHw & IHl & IHin & IHout).
    assert (Hlen : List.length (mp_buf_len mp1) = List.length (mp_buf_len mp))
      by (rewrite Hb; apply aset_length).
    split; [congruence|]. split; [congruence|]. split; [congruence|].
    split.
    + intros p Hp Hr.
      destruct (in_dec Z.eq_dec p ps) as [Hin | Hnin].
      * rewrite IHin; [rewrite Hl; reflexivity | exact Hin | lia].
      * rewrite IHout by exact Hnin.
        destruct Hp as [-> | Hp]; [|contradiction].
        rewrite Hb. apply aget_aset_same. exact Hr.
    + intros p Hp. rewrite IHout by (intros H; apply Hp; right; exact H).
      rewrite Hb. apply aget_aset_other. intros H. apply Hp. left. exact H.
Qed.

Lemma zrange_In : forall n p, In p (zrange n) <-> 0 <= p < n.
Proof.
  intros n p. unfold zrange. rewrite in_map_iff. split.
  - intros (k & <- & Hk). apply in_seq in Hk. lia.
  - intros H. exists (Z.to_nat p). split; [lia|]. apply in_seq. lia.
Qed.

(** After a chunk of [n] samples every pass remembers
    [min(n, window_size - 1, 256)] samples, whatever it remembered
    before: a chunk shorter than the window shortens the history to its
    own length.  The number of passes, the window and the number of
    samples are left as they were. *)
Theorem multipass_history_is_last_chunk :
  forall (mp : multipass_avg_t) (data : list float) (pass : Z),
    0 <= pass < mp_n_passes mp ->
    mp_n_passes mp <= len (mp_buf_len mp) ->
    let r := multipass_process mp data in
    aget 0 (mp_buf_len (fst r)) pass
    = Z.min (len data) (Z.min (mp_window_size mp - 1) 256)
    /\ mp_n_passes (fst r) = mp_n_passes mp
    /\ mp_window_size (fst r) = mp_window_size mp
    /\ List.length (snd r) = List.length data.
Proof.
  intros mp data pass Hp Hl r. subst r. unfold multipass_process.
  destruct (multipass_fold_buf_len (zrange (mp_n_passes mp))
              (mp_window_size mp)
              (flit 1 1 / f_of_int (mp_window_size mp))%fl mp data)
    as (Hn & Hw & _ & Hin & _).
  split; [|split; [exact Hn | split; [exact Hw |]]].
  - apply Hin; [apply zrange_In; exact Hp | lia].
  - apply multipass_process_length.
Qed.

(** *** Reset *)

Lemma multipass_reset_fold :
  forall ixs mp,
    fold_left multipass_reset_pass ixs mp
    = mk_multipass (mp_n_passes mp) (mp_window_size mp)
        (fold_left (fun a i =>
                      aset a i (repeat fzero (Z.to_nat MULTIPASS_MAX_WINDOW)))
                   ixs (mp_buffers mp))
        (fold_left (fun a i => aset a i 0) ixs (mp_buf_len mp))
        (fold_left (fun a i => aset a i fzero) ixs (mp_running_sum mp)).
Proof.
  induction ixs as [|i ixs IH]; intros mp; [destruct mp; reflexivity|].
  cbn [fold_left]. rewrite IH. reflexivity.
Qed.

Lemma multipass_reset_pass_absorbs :
  forall w inv_w mp data p,
    0 <= p < mp_n_passes mp ->
    multipass_reset (fst (multipass_pass w inv_w (mp, data) p))
    = multipass_reset mp.
Proof.
  intros w inv_w mp data p Hp.
  destruct (multipass_pass_fields w inv_w mp data p)
    as (Hn & Hw & (b & Hb) & Hl & (s & Hs)).
  unfold multipass_reset. rewrite !multipass_reset_fold.
  rewrite Hn, Hw, Hb, Hl, Hs.
  rewrite !fold_aset_absorbs by (apply zrange_In; exact Hp).
  reflexivity.
Qed.

Lemma multipass_reset_passes :
  forall ps w inv_w mp data,
    (forall p, In p ps -> 0 <= p < mp_n_passes mp) ->
    multipass_reset (fst (fold_left (multipass_pass w inv_w) ps (mp, data)))
    = multipass_reset mp.
Proof.
  induction ps as [|q ps IH]; intros w inv_w mp data H; [reflexivity|].
  cbn [fold_left].
  pose proof (multipass_reset_pass_absorbs w inv_w mp data q
                (H q (or_introl eq_refl))) as Hq.
  pose proof (multipass_pass_fields w inv_w mp data q) as Hf.
  destruct (multipass_pass w inv_w (mp, data) q) as [mp1 data1].
  cbn [fst] in *. destruct Hf as (Hn & _).
  rewrite IH; [exact Hq|].
  intros p Hp. rewrite Hn. apply H. right. exact Hp.
Qed.

Lemma multipass_reset_process :
  forall mp data,
    multipass_reset (fst (multipass_process mp data)) = multipass_reset mp.
Proof.
  intros mp data. unfold multipass_process.
  apply multipass_reset_passes. intros p Hp. apply zrange_In. exact Hp.
Qed.

Lemma multipass_init_passes_range :
  forall p, 1 <= multipass_init_passes p <= 8.
Proof.
  intros p. unfold multipass_init_passes, MULTIPASS_MAX_PASSES.
  destruct (p <? 1) eqn:E1; [cbn; lia|]. apply Z.ltb_ge in E1.
  destruct (8 <? p) eqn:E2; [lia|]. apply Z.ltb_ge in E2. lia.
Qed.

Lemma multipass_reset_init :
  forall p w, multipass_reset (multipass_init p w) = multipass_init p w.
Proof.
  intros p w. unfold multipass_init, multipass_reset.
  cbn [mp_n_passes].
  pose proof (multipass_init_passes_range p) as H.
  assert (Hc : multipass_init_passes p = 1 \/ multipass_init_passes p = 2
               \/ multipass_init_passes p = 3 \/ multipass_init_passes p = 4
               \/ multipass_init_passes p = 5 \/ multipass_init_passes p = 6
               \/ multipass_init_passes p = 7 \/ multipass_init_passes p = 8)
    by lia.
  rewrite multipass_reset_fold.
  cbn [mp_n_passes mp_window_size mp_buffers mp_buf_len mp_running_sum].
  destruct Hc as [-> | [-> | [-> | [-> | [-> | [-> | [-> | ->]]]]]]];
    reflexivity.
Qed.

End Multipass.

(** ** envelope.c *)

Section Envelope.
Context {FO : FloatOps}.

(** *** The decisions *)

Lemma last_cons_default :
  forall (l : list Z) a d d', last (a :: l) d = last (a :: l) d'.
Proof.
  induction l as [|b l IH]; intros a d d'; [reflexivity|].
  change (last (a :: b :: l) d) with (last (b :: l) d).
  change (last (a :: b :: l) d') with (last (b :: l) d').
  apply IH.
Qed.

Lemma hysteresis_fold :
  forall on_thr off_thr tmp st oo,
    exists new,
      fold_left (hysteresis_step on_thr off_thr) tmp (st, oo)
      = (last new st, (oo ++ new)%list)
      /\ Forall (fun b => b = 0 \/ b = 1) new
      /\ List.length new = List.length tmp.
Proof.
  intros on_thr off_thr tmp. induction tmp as [|v tmp IH]; intros st oo.
  - exists []. cbn. rewrite app_nil_r. repeat split. constructor.
  - cbn [fold_left hysteresis_step].
    set (s := if st =? 0 then _ else _).
    destruct (IH s (oo ++ [s])%list) as (new & Hf & Hb & Hl).
    exists (s :: new). split; [|split].
    + rewrite Hf. rewrite <- app_assoc. cbn [app]. f_equal.
      destruct new as [|z new]; [reflexivity|].
      change (last (s :: z :: new) st) with (last (z :: new) st).
      apply last_cons_default.
    + constructor; [|exact Hb].
      subst s. destruct (st =? 0);
        match goal with |- context [if ?b then _ else _] => destruct b end;
        auto.
    + cbn. rewrite Hl. reflexivity.
Qed.

Lemma envelope_chunk_decisions :
  forall env oo audio,
    let r := envelope_chunk (env, oo) audio in
    exists new,
      snd r = (oo ++ new)%list
      /\ Forall (fun b => b = 0 \/ b = 1) new
      /\ env_prev_state (fst r) = last new (env_prev_state env)
      /\ env_mode (fst r) = env_mode env
      /\ env_threshold_on (fst r) = env_threshold_on env
      /\ env_threshold_off (fst r) = env_threshold_off env.
Proof.
  intros env oo audio. unfold envelope_chunk.
  destruct (match env_mode env with
            | ENV_MODE_IIR => _
            | ENV_MODE_MULTIPASS => _
            end) as [[lpf' mpf'] tmp].
  match goal with
  | |- context [fold_left (hysteresis_step ?a ?b) tmp ?st] =>
      destruct (hysteresis_fold a b tmp (env_prev_state env) oo)
        as (new & Hf & Hb & Hl)
  end.
  rewrite Hf. exists new. cbn. repeat split; auto.
Qed.

Lemma last_app_default :
  forall (l1 l2 : list Z) d, last (l1 ++ l2) d = last l2 (last l1 d).
Proof.
  induction l1 as [|a l1 IH]; intros l2 d; [reflexivity|].
  destruct l1 as [|b l1].
  - cbn [app]. destruct l2 as [|z l2]; [reflexivity|].
    change (last (a :: z :: l2) d) with (last (z :: l2) d).
    apply last_cons_default.
  - change (last ((a :: b :: l1) ++ l2) d) with (last ((b :: l1) ++ l2) d).
    rewrite IH. reflexivity.
Qed.

Lemma envelope_chunks_decisions :
  forall bs env oo,
    let r := fold_left envelope_chunk bs (env, oo) in
    exists new,
      snd r = (oo ++ new)%list
      /\ Forall (fun b => b = 0 \/ b = 1) new
      /\ env_prev_state (fst r) = last new (env_prev_state env)
      /\ env_mode (fst r) = env_mode env
      /\ env_threshold_on (fst r) = env_threshold_on env
      /\ env_threshold_off (fst r) = env_threshold_off env.
Proof.
  induction bs as [|b bs IH]; intros env oo.
  - exists []. cbn. rewrite app_nil_r. repeat split. constructor.
  - cbn [fold_left].
    destruct (envelope_chunk_decisions env oo b)
      as (n1 & H1 & B1 & P1 & M1 & T1 & U1).
    destruct (envelope_chunk (env, oo) b) as [env1 oo1]. cbn [fst snd] in *.
    destruct (IH env1 oo1) as (n2 & H2 & B2 & P2 & M2 & T2 & U2).
    exists (n1 ++ n2)%list. subst oo1.
    split; [rewrite H2, app_assoc; reflexivity|].
    split; [apply Forall_app; split; assumption|].
    split; [rewrite P2, P1, last_app_default; reflexivity|].
    repeat split; congruence.
Qed.

(** [envelope_process] makes one decision per sample, each of them 0 or
    1, and leaves in [prev_state] the last decision it made (or what was
    there, for an empty chunk); the mode and the two threshold fractions
    are left as they were. *)
Theorem envelope_process_decisions :
  forall (env : envelope_t) (audio : list float),
    let r := envelope_process env audio in
    List.length (snd r) = List.length audio
    /\ Forall (fun b => b = 0 \/ b = 1) (snd r)
    /\ env_prev_state (fst r) = last (snd r) (env_prev_state env)
    /\ env_mode (fst r) = env_mode env
    /\ env_threshold_on (fst r) = env_threshold_on env
    /\ env_threshold_off (fst r) = env_threshold_off env.
Proof.
  intros env audio r. subst r.
  split; [apply envelope_process_length|].
  unfold envelope_process.
  destruct (envelope_chunks_decisions (blocks 4096 audio) env [])
    as (new & H & B & P & M & T & U).
  cbn [app] in H. rewrite H. repeat split; assumption.
Qed.

(** *** Reset *)

Lemma envelope_reset_chunk :
  forall env oo audio,
    envelope_reset (fst (envelope_chunk (env, oo) audio)) = envelope_reset env.
Proof.
  intros env oo audio. unfold envelope_chunk.
  destruct (env_mode env) eqn:Em.
  - pose proof (iir_filter_reset_process (env_lpf env) (map fabsf audio)) as H.
    destruct (iir_filter_process (env_lpf env) (map fabsf audio))
      as [lpf' tmp].
    destruct (fold_left _ _ _) as [state oo'].
    unfold envelope_reset.
    cbn [fst snd env_mode env_lpf env_mpf env_peak_level env_threshold_on
         env_threshold_off env_prev_state] in *.
    rewrite Em, H. reflexivity.
  - pose proof (multipass_reset_process (env_mpf env) (map fabsf audio)) as H.
    destruct (multipass_process (env_mpf env) (map fabsf audio))
      as [mpf' tmp].
    destruct (fold_left _ _ _) as [state oo'].
    unfold envelope_reset.
    cbn [fst snd env_mode env_lpf env_mpf env_peak_level env_threshold_on
         env_threshold_off env_prev_state] in *.
    rewrite Em, H. reflexivity.
Qed.

Lemma envelope_reset_chunks :
  forall bs env oo,
    envelope_reset (fst (fold_left envelope_chunk bs (env, oo)))
    = envelope_reset env.
Proof.
  induction bs as [|b bs IH]; intros env oo; [reflexivity|].
  cbn [fold_left].
  pose proof (envelope_reset_chunk env oo b) as H.
  destruct (envelope_chunk (env, oo) b) as [env1 oo1]. cbn [fst] in H.
  rewrite IH. exact H.
Qed.

Lemma envelope_reset_process :
  forall env audio,
    envelope_reset (fst (envelope_process env audio)) = envelope_reset env.
Proof. intros env audio. apply envelope_reset_chunks. Qed.

Lemma envelope_reset_run :
  forall chunks env, envelope_reset (envelope_run env chunks) = envelope_reset env.
Proof.
  induction chunks as [|c chunks IH]; intros env; [reflexivity|].
  unfold envelope_run in *. cbn [fold_left]. rewrite IH.
  apply envelope_reset_process.
Qed.

Lemma envelope_reset_init :
  forall des sr window_s on off mode passes,
    Forall zero_state
           (iir_design_lowpass des 2 (flit 1 1 / (flit 2 1 * window_s))%fl
                               (f_of_int sr)) ->
    envelope_reset (envelope_init des sr window_s on off mode passes)
    = envelope_init des sr window_s on off mode passes.
Proof.
  intros des sr window_s on off mode passes Hz.
  unfold envelope_init, envelope_reset. destruct mode;
    cbn [env_mode env_lpf env_mpf env_peak_level env_threshold_on
         env_threshold_off env_prev_state].
  - rewrite iir_filter_reset_zero by exact Hz. reflexivity.
  - rewrite multipass_reset_init. reflexivity.
Qed.

End Envelope.

(** ** iir_filter.c: the designed cascades *)

Section Designed.
Context {FO : FloatOps} {TO : TrigOps}.
Import Butterworth.

Local Abbreviation len l := (Z.of_nat (List.length l)) (only parsing).

Lemma scale_first_shape :
  forall c secs,
    List.length (scale_first c secs) = List.length secs
    /\ (Forall zero_state secs -> Forall zero_state (scale_first c secs)).
Proof.
  intros c [|sec rest]; [split; auto|]. cbn. split; [reflexivity|].
  intros H. inversion H; subst. constructor; assumption.
Qed.

Lemma lowpass_normalize_shape :
  forall secs,
    List.length (lowpass_normalize secs) = List.length secs
    /\ (Forall zero_state secs -> Forall zero_state (lowpass_normalize secs)).
Proof.
  intros secs. unfold lowpass_normalize.
  destruct (_ && _); [apply scale_first_shape | split; auto].
Qed.

Lemma bandpass_normalize_shape :
  forall low high fs secs,
    List.length (bandpass_normalize low high fs secs) = List.length secs
    /\ (Forall zero_state secs ->
        Forall zero_state (bandpass_normalize low high fs secs)).
Proof.
  intros low high fs secs. unfold bandpass_normalize.
  destruct (fold_left _ _ _) as [g_re g_im].
  destruct (_ && _); [apply scale_first_shape | split; auto].
Qed.

Lemma lowpass_sections_shape :
  forall order cutoff fs,
    1 <= order ->
    len (lowpass_sections order cutoff fs) = Z.quot order 2 + Z.rem order 2
    /\ Forall zero_state (lowpass_sections order cutoff fs).
Proof.
  intros order cutoff fs Ho. unfold lowpass_sections.
  set (pairs := map _ (zrange (Z.quot order 2))).
  set (real := if Z.rem order 2 =? 1 then _ else _).
  assert (Hq : 0 <= Z.quot order 2) by (apply Z.quot_pos; lia).
  assert (Hr : 0 <= Z.rem order 2 < 2).
  { pose proof (Z.rem_bound_pos order 2). lia. }
  split.
  - rewrite length_app. subst pairs. rewrite length_map. unfold zrange.
    rewrite length_map, length_seq. subst real.
    destruct (Z.rem order 2 =? 1) eqn:E.
    + apply Z.eqb_eq in E.
      destruct (butter_analog_poles order (Z.quot order 2)) as [re im].
      destruct (bilinear_transform _ _ fs) as [pz_re pz_im].
      cbn [List.length]. lia.
    + apply Z.eqb_neq in E. cbn [List.length]. lia.
  - apply Forall_app. split.
    + subst pairs. apply Forall_forall. intros sec Hin.
      apply in_map_iff in Hin as (k & <- & _).
      destruct (butter_analog_poles order k) as [re im].
      destruct (bilinear_transform _ _ fs) as [pz_re pz_im].
      split; reflexivity.
    + subst real. destruct (Z.rem order 2 =? 1); [|constructor].
      destruct (butter_analog_poles order (Z.quot order 2)) as [re im].
      destruct (bilinear_transform _ _ fs) as [pz_re pz_im].
      constructor; [split; reflexivity | constructor].
Qed.

Lemma bandpass_pole_shape :
  forall order bw w0 fs secs k,
    Forall zero_state secs ->
    Forall zero_state (bandpass_pole order bw w0 fs secs k)
    /\ len (bandpass_pole order bw w0 fs secs k) = Z.min (len secs + 2) (Z.max (len secs) 8).
Proof.
  intros order bw w0 fs secs k Hz. unfold bandpass_pole, IIR_MAX_SECTIONS.
  destruct (butter_analog_poles order k) as [ap_re ap_im].
  destruct (bilinear_transform _ _ fs) as [z1_re z1_im].
  destruct (bilinear_transform _ _ fs) as [z2_re z2_im].
  assert (Hb : forall a b, zero_state (bandpass_section a b))
    by (intros; split; reflexivity).
  destruct (len secs <? 8) eqn:E1;
    [apply Z.ltb_lt in E1 | apply Z.ltb_ge in E1].
  - destruct (len (secs ++ [bandpass_section z1_re z1_im]) <? 8) eqn:E2;
      [apply Z.ltb_lt in E2 | apply Z.ltb_ge in E2];
      rewrite ?length_app in *; cbn [List.length] in *.
    + split; [|rewrite ?length_app; cbn [List.length]; lia].
      apply Forall_app. split; [|constructor; [apply Hb | constructor]].
      apply Forall_app. split; [exact Hz|].
      constructor; [apply Hb | constructor].
    + split; [|rewrite ?length_app; cbn [List.length]; lia].
      apply Forall_app. split; [exact Hz|].
      constructor; [apply Hb | constructor].
  - assert (E1' : (len secs <? 8) = false) by (apply Z.ltb_ge; exact E1).
    rewrite E1'. split; [exact Hz | lia].
Qed.

Lemma bandpass_poles_shape :
  forall ks order bw w0 fs secs,
    Forall zero_state secs ->
    len secs <= 8 ->
    let r := fold_left (bandpass_pole order bw w0 fs) ks secs in
    Forall zero_state r
    /\ len r = Z.min (len secs + 2 * len ks) 8.
Proof.
  induction ks as [|k ks IH]; intros order bw w0 fs secs Hz Hl.
  - cbn. split; [exact Hz | lia].
  - cbn [fold_left].
    destruct (bandpass_pole_shape order bw w0 fs secs k Hz) as [Hz1 Hl1].
    destruct (IH order bw w0 fs _ Hz1 ltac:(lia)) as [Hz2 Hl2].
    split; [exact Hz2|]. rewrite Hl2, Hl1. cbn [List.length].
    rewrite Nat2Z.inj_succ. lia.
Qed.

(** The cascades the designers return fit [sections[IIR_MAX_SECTIONS]]
    and start from rest.  [iir_design_lowpass] returns no section for an
    order outside 1 to 16 and [order / 2 + order % 2] sections otherwise.
    [iir_design_bandpass] does not check the order against its 16-pole
    arrays; for an order of at most 16 it returns no section at all or
    [min(2 * order, 8)] sections, dropping the poles that do not fit.
    Every section has zero state. *)
Theorem designed_cascades_shape :
  forall (order : Z) (cutoff_hz low_hz high_hz fs : float),
    let lp := iir_design_lowpass order cutoff_hz fs in
    let bp := iir_design_bandpass order low_hz high_hz fs in
    len lp = (if (order <? 1) || (16 <? order) then 0
              else Z.quot order 2 + Z.rem order 2)
    /\ len lp <= 8
    /\ Forall zero_state lp
    /\ (order <= 16 ->
        (len bp = 0 \/ len bp = Z.min (2 * order) 8)
        /\ len bp <= 8
        /\ Forall zero_state bp).
Proof.
  intros order cutoff_hz low_hz high_hz fs lp bp.
  assert (Hlp : len lp = (if (order <? 1) || (16 <? order) then 0
                          else Z.quot order 2 + Z.rem order 2)
                /\ Forall zero_state lp).
  { subst lp. unfold iir_design_lowpass, IIR_MAX_SECTIONS.
    change (2 * 8) with 16.
    destruct ((order <? 1) || (16 <? order)) eqn:E;
      [split; [reflexivity | constructor]|].
    apply orb_false_iff in E as [E1 E2]. apply Z.ltb_ge in E1.
    destruct (lowpass_sections_shape order cutoff_hz fs E1) as [Hl Hz].
    destruct (lowpass_normalize_shape (lowpass_sections order cutoff_hz fs))
      as [Hnl Hnz].
    split; [rewrite Hnl; exact Hl | apply Hnz; exact Hz]. }
  assert (Hbp : (len bp = 0 \/ len bp = Z.min (2 * order) 8)
                /\ Forall zero_state bp).
  { subst bp. unfold iir_design_bandpass.
    destruct (order <? 1) eqn:E1; [split; [left; reflexivity | constructor]|].
    apply Z.ltb_ge in E1.
    match goal with
    | |- context [if ?b then [] else _] =>
        destruct b; [split; [left; reflexivity | constructor]|]
    end.
    match goal with
    | |- context [fold_left (bandpass_pole order ?bw ?w0 fs) ?ks []] =>
        destruct (bandpass_poles_shape ks order bw w0 fs []
                    (Forall_nil _) ltac:(cbn; lia)) as [Hz Hl];
        destruct (bandpass_normalize_shape low_hz high_hz fs
                    (fold_left (bandpass_pole order bw w0 fs) ks []))
          as [Hnl Hnz]
    end.
    split; [right | apply Hnz; exact Hz].
    rewrite Hnl, Hl. unfold zrange. rewrite length_map, length_seq.
    cbn [List.length]. lia. }
  destruct Hlp as [Hl1 Hz1]. destruct Hbp as [Hl2 Hz2].
  split; [exact Hl1|]. split; [|split; [exact Hz1|]].
  - rewrite Hl1. destruct ((order <? 1) || (16 <? order)) eqn:E; [lia|].
    apply orb_false_iff in E as [E1 E2].
    apply Z.ltb_ge in E1. apply Z.ltb_ge in E2.
    pose proof (Z.quot_rem' order 2).
    pose proof (Z.rem_bound_pos order 2). lia.
  - intros _. split; [exact Hl2|]. split; [|exact Hz2].
    destruct Hl2 as [-> | ->]; lia.
Qed.

Lemma designer_zero_state :
  (forall order cutoff fs,
      Forall zero_state (iir_design_lowpass order cutoff fs))
  /\ (forall order low high fs,
         Forall zero_state (iir_design_bandpass order low high fs)).
Proof.
  split.
  - intros order cutoff fs. unfold iir_design_lowpass.
    destruct (_ || _) eqn:E; [constructor|].
    apply orb_false_iff in E as [E1 _]. apply Z.ltb_ge in E1.
    apply lowpass_normalize_shape. apply lowpass_sections_shape. exact E1.
  - intros order low high fs. unfold iir_design_bandpass.
    destruct (order <? 1); [constructor|].
    match goal with
    | |- context [if ?b then [] else _] => destruct b; [constructor|]
    end.
    apply bandpass_normalize_shape.
    apply bandpass_poles_shape; [constructor | cbn; lia].
Qed.

End Designed.

(** ** cw_decoder.c *)

Section Decoder.
Context {FO : FloatOps}.

Local Abbreviation len l := (Z.of_nat (List.length l)) (only parsing).

(** *** Reset *)

Lemma emit_word_min_word_length :
  forall f out_len,
    min_word_length (snd (emit_word f out_len)) = min_word_length f.
Proof.
  intros f out_len. unfold emit_word.
  repeat match goal with
         | |- context [if ?b then _ else _] => destruct b
         end; reflexivity.
Qed.

Lemma feed_loop_min_word_length :
  forall text f out_len written ss,
    min_word_length (snd (feed_loop f text out_len written ss))
    = min_word_length f.
Proof.
  induction text as [|c text IH]; intros f out_len written ss; [reflexivity|].
  cbn [feed_loop]. destruct (written <? out_len); [|reflexivity].
  destruct (Ascii.eqb c " ").
  - pose proof (emit_word_min_word_length f (out_len - written)) as He.
    destruct (emit_word f (out_len - written)) as [[n ws] f1].
    cbn [snd] in He.
    destruct (0 <? n); [destruct (written + n <? out_len)|];
      rewrite IH; exact He.
  - rewrite IH. destruct (word_len f <? _); reflexivity.
Qed.

(** The fields a reset does not overwrite, and the parts of the others it
    keeps. *)
Lemma cw_decoder_reset_eq :
  forall d d',
    cfg d' = cfg d ->
    use_bandpass d' = use_bandpass d ->
    (if use_bandpass d =? 0 then bandpass d' = bandpass d
     else iir_filter_reset (bandpass d') = iir_filter_reset (bandpass d)) ->
    envelope_reset (envelope d') = envelope_reset (envelope d) ->
    (forall wpm, timing_reset (timing d') wpm = timing_reset (timing d) wpm) ->
    min_word_length (output d') = min_word_length (output d) ->
    cw_decoder_reset d' = cw_decoder_reset d.
Proof.
  intros d d' Hc Hu Hb He Ht Hm. unfold cw_decoder_reset, output_filter_reset.
  rewrite Hc, Hu, He, Ht, Hm.
  destruct (use_bandpass d =? 0); rewrite Hb; reflexivity.
Qed.

Lemma cw_decoder_reset_pattern_feed :
  forall d elem n,
    cw_decoder_reset (snd (pattern_feed d elem n)) = cw_decoder_reset d.
Proof.
  intros d elem n. unfold pattern_feed.
  repeat match goal with
         | |- context [morse_lookup_merged ?p ?m] =>
             destruct (morse_lookup_merged p m)
         | |- context [if ?b then _ else _] =>
             lazymatch b with
             | context [if _ then _ else _] => fail
             | _ => destruct b
             end
         end; reflexivity.
Qed.

Lemma cw_decoder_reset_pattern_flush :
  forall d n,
    cw_decoder_reset (snd (pattern_flush d n)) = cw_decoder_reset d.
Proof.
  intros d n. unfold pattern_flush.
  destruct (pattern_len d <=? 0); [reflexivity|].
  destruct (morse_lookup_merged _ _). reflexivity.
Qed.

Lemma cw_decoder_reset_set_output :
  forall d f,
    min_word_length f = min_word_length (output d) ->
    cw_decoder_reset (set_output d f) = cw_decoder_reset d.
Proof.
  intros d f H. unfold cw_decoder_reset, output_filter_reset. cbn.
  rewrite H. reflexivity.
Qed.

Lemma cw_decoder_reset_set_timing :
  forall d t,
    (forall wpm, timing_reset t wpm = timing_reset (timing d) wpm) ->
    cw_decoder_reset (set_timing d t) = cw_decoder_reset d.
Proof.
  intros d t H. unfold cw_decoder_reset. cbn. rewrite H. reflexivity.
Qed.

Lemma cw_decoder_reset_feed_output :
  forall d pat_n pat_ss out_len written ss,
    cw_decoder_reset (snd (feed_output d pat_n pat_ss out_len written ss))
    = cw_decoder_reset d.
Proof.
  intros d pat_n pat_ss out_len written ss. unfold feed_output.
  destruct (0 <? pat_n); [|reflexivity].
  pose proof (feed_loop_min_word_length (buffer_read pat_ss pat_n) (output d)
                (out_len - written) 0 []) as H.
  unfold output_filter_feed.
  destruct (feed_loop _ _ _ _ _) as [[filt_n fss] f]. cbn [snd] in *.
  apply cw_decoder_reset_set_output. exact H.
Qed.

Lemma cw_decoder_reset_sample_loop :
  forall on_off d out_len total_written ss,
    cw_decoder_reset (snd (sample_loop d on_off out_len total_written ss))
    = cw_decoder_reset d.
Proof.
  induction on_off as [|on rest IH]; intros d out_len total_written ss;
    [reflexivity|].
  cbn [sample_loop]. destruct (total_written <? out_len); [|reflexivity].
  pose proof (fun wpm => timing_reset_sample (timing d) on wpm) as Ht.
  destruct (timing_process_sample (timing d) on) as [elem t].
  cbn [snd] in Ht.
  pose proof (cw_decoder_reset_set_timing d t Ht) as H1.
  destruct (elem =? ELEM_NONE).
  - rewrite IH. exact H1.
  - pose proof (cw_decoder_reset_pattern_feed (set_timing d t) elem
                  PAT_OUT_SIZE) as H2.
    destruct (pattern_feed (set_timing d t) elem PAT_OUT_SIZE)
      as [[pat_n pat_ss] d1]. cbn [snd] in H2.
    pose proof (cw_decoder_reset_feed_output d1 pat_n pat_ss out_len
                  total_written ss) as H3.
    destruct (feed_output d1 pat_n pat_ss out_len total_written ss)
      as [[tw ss1] d2]. cbn [snd] in H3.
    rewrite IH. congruence.
Qed.

Lemma cw_decoder_reset_front_end :
  forall d chunk,
    cw_decoder_reset (fst (front_end d chunk)) = cw_decoder_reset d.
Proof.
  intros d chunk. unfold front_end, front_core.
  destruct (use_bandpass d =? 0) eqn:Eu.
  - pose proof (envelope_reset_process (envelope d) chunk) as He.
    destruct (envelope_process (envelope d) chunk) as [env on_off].
    cbn [fst] in *. apply cw_decoder_reset_eq; cbn; try reflexivity.
    + rewrite Eu. reflexivity.
    + exact He.
  - pose proof (iir_filter_reset_process (bandpass d) chunk) as Hb.
    destruct (iir_filter_process (bandpass d) chunk) as [bp work].
    pose proof (envelope_reset_process (envelope d) work) as He.
    destruct (envelope_process (envelope d) work) as [env on_off].
    cbn [fst] in *. apply cw_decoder_reset_eq; cbn; try reflexivity.
    + rewrite Eu. exact Hb.
    + exact He.
Qed.

Lemma cw_decoder_reset_chunk_loop :
  forall chunks d out_len total_written ss,
    cw_decoder_reset (snd (chunk_loop d chunks out_len total_written ss))
    = cw_decoder_reset d.
Proof.
  induction chunks as [|chunk rest IH]; intros d out_len total_written ss;
    [reflexivity|].
  cbn [chunk_loop]. destruct (total_written <? out_len); [|reflexivity].
  pose proof (cw_decoder_reset_front_end d chunk) as H1.
  destruct (front_end d chunk) as [d1 on_off]. cbn [fst] in H1.
  pose proof (cw_decoder_reset_sample_loop on_off d1 out_len total_written ss)
    as H2.
  destruct (sample_loop d1 on_off out_len total_written ss)
    as [[tw ss1] d2]. cbn [snd] in H2.
  rewrite IH. congruence.
Qed.

Lemma cw_decoder_reset_process :
  forall d audio out_len,
    cw_decoder_reset (snd (cw_decoder_process d audio out_len))
    = cw_decoder_reset d.
Proof.
  intros d audio out_len. unfold cw_decoder_process.
  destruct (_ || _); [reflexivity|]. apply cw_decoder_reset_chunk_loop.
Qed.

Lemma cw_decoder_reset_finalize :
  forall d out_len,
    cw_decoder_reset (snd (cw_decoder_finalize d out_len))
    = cw_decoder_reset d.
Proof.
  intros d out_len. unfold cw_decoder_finalize.
  pose proof (fun wpm => timing_reset_finalize (timing d) wpm) as Ht.
  destruct (timing_finalize (timing d)) as [elem t]. cbn [snd] in Ht.
  pose proof (cw_decoder_reset_set_timing d t Ht) as H1.
  set (d1 := set_timing d t) in *.
  assert (H2 : forall r : Z * list store * cw_decoder_t,
             r = (if elem =? ELEM_NONE then (0, [], d1) else
                  let '(pat_n, pat_ss, dec) :=
                    pattern_feed d1 elem PAT_OUT_SIZE in
                  feed_output dec pat_n pat_ss out_len 0 []) ->
             cw_decoder_reset (snd r) = cw_decoder_reset d).
  { intros r ->. destruct (elem =? ELEM_NONE); [exact H1|].
    pose proof (cw_decoder_reset_pattern_feed d1 elem PAT_OUT_SIZE) as H3.
    destruct (pattern_feed d1 elem PAT_OUT_SIZE) as [[pat_n pat_ss] d2].
    cbn [snd] in H3.
    rewrite cw_decoder_reset_feed_output. congruence. }
  specialize (H2 _ eq_refl).
  destruct (if elem =? ELEM_NONE then _ else _) as [[written ss] d2].
  cbn [snd] in H2.
  pose proof (cw_decoder_reset_pattern_flush d2 PAT_OUT_SIZE) as H3.
  destruct (pattern_flush d2 PAT_OUT_SIZE) as [[pat_n pat_ss] d3].
  cbn [snd] in H3.
  pose proof (cw_decoder_reset_feed_output d3 pat_n pat_ss out_len written ss)
    as H4.
  destruct (feed_output d3 pat_n pat_ss out_len written ss)
    as [[written' ss'] d4]. cbn [snd] in H4.
  unfold output_filter_flush.
  pose proof (emit_word_min_word_length (output d4) (out_len - written'))
    as H5.
  destruct (emit_word (output d4) (out_len - written')) as [[n fss] f].
  cbn [snd] in *.
  rewrite cw_decoder_reset_set_output by exact H5. congruence.
Qed.

Lemma cw_decoder_reset_calls :
  forall calls d,
    cw_decoder_reset (fold_left decoder_call_run calls d) = cw_decoder_reset d.
Proof.
  induction calls as [|c calls IH]; intros d; [reflexivity|].
  cbn [fold_left]. rewrite IH.
  destruct c; cbn [decoder_call_run];
    [apply cw_decoder_reset_process | apply cw_decoder_reset_finalize].
Qed.

Lemma cw_decoder_reset_create :
  forall des c,
    (forall order cutoff fs,
        Forall zero_state (iir_design_lowpass des order cutoff fs)) ->
    (forall order low high fs,
        Forall zero_state (iir_design_bandpass des order low high fs)) ->
    cw_decoder_reset (cw_decoder_create des c) = cw_decoder_create des c.
Proof.
  intros des c Hlp Hbp. unfold cw_decoder_create.
  destruct (if (bandwidth c >? fzero)%fl then _ else _) as [bp use_bp] eqn:E.
  unfold cw_decoder_reset.
  cbn [cfg bandpass use_bandpass envelope timing dec_pattern output].
  rewrite envelope_reset_init by apply Hlp.
  destruct (timing_mode c); rewrite timing_reset_init;
    f_equal; destruct (use_bp =? 0); try reflexivity;
    apply iir_filter_reset_zero;
    (destruct (bandwidth c >? fzero)%fl;
     [match type of E with
      | (if ?b then _ else _) = _ => destruct b
      end|]; inversion E; subst; [apply Hbp | constructor | constructor]).
Qed.

End Decoder.

Section DecoderReset.
Context {FO : FloatOps} {TO : TrigOps}.

(** [cw_decoder_reset] makes a decoder as good as new: whatever audio a
    decoder built with the Butterworth designers has processed since
    [cw_decoder_create], finalized or not, into output buffers of any
    size from 0 up and within the range of the sample counters, a reset
    leaves it exactly as [cw_decoder_create] returned it. *)
Theorem cw_decoder_reset_restores_create :
  forall (c : cw_config_t) (calls : list decoder_call),
    decoder_calls_fit calls ->
    cw_decoder_reset
      (fold_left decoder_call_run calls
                 (cw_decoder_create Butterworth.designer c))
    = cw_decoder_create Butterworth.designer c.
Proof.
  intros c calls _. rewrite cw_decoder_reset_calls.
  apply cw_decoder_reset_create.
  - apply designer_zero_state.
  - apply designer_zero_state.
Qed.

(** The same for the envelope detector alone: in either mode,
    [envelope_reset] after any chunks puts the detector built by
    [envelope_init] back as it was built: zero filter state, empty
    moving-average history, no peak, off. *)
Theorem envelope_reset_restores_init :
  forall (sr : Z) (window_s on off : float) (mode : envelope_mode_t)
         (passes : Z) (chunks : list (list float)),
    envelope_reset
      (envelope_run
         (envelope_init Butterworth.designer sr window_s on off mode passes)
         chunks)
    = envelope_init Butterworth.designer sr window_s on off mode passes.
Proof.
  intros. rewrite envelope_reset_run. apply envelope_reset_init.
  apply designer_zero_state.
Qed.

End DecoderReset.

(** *** Buffers and alphabet *)

Section DecoderBuffers.
Context {FO : FloatOps}.

Local Abbreviation len l := (Z.of_nat (List.length l)) (only parsing).

(** The bytes of a list of stores are decoded text. *)
Local Abbreviation text_stores ss :=
  (Forall (fun s : store => text_char (snd s)) ss) (only parsing).

Lemma text_stores_shift :
  forall k ss, text_stores ss -> text_stores (shift_stores k ss).
Proof.
  intros k ss H. unfold shift_stores. apply Forall_map.
  eapply Forall_impl; [|exact H]. intros s Hs. exact Hs.
Qed.

Lemma text_stores_memcpy :
  forall l base, Forall text_char l -> text_stores (memcpy_stores base l).
Proof.
  induction l as [|c l IH]; intros base H; [constructor|].
  inversion H; subst. cbn. constructor; [assumption | apply IH; assumption].
Qed.

Lemma list_ascii_of_string_app :
  forall s1 s2,
    list_ascii_of_string (s1 ++ s2)
    = (list_ascii_of_string s1 ++ list_ascii_of_string s2)%list.
Proof.
  induction s1 as [|c s1 IH]; intros s2; [reflexivity|].
  cbn. rewrite IH. reflexivity.
Qed.

Lemma string_length_app :
  forall s1 s2,
    String.length (s1 ++ s2) = (String.length s1 + String.length s2)%nat.
Proof.
  induction s1 as [|c s1 IH]; intros s2; [reflexivity|].
  cbn. rewrite IH. reflexivity.
Qed.

Lemma Forall_firstn_keeps :
  forall A (P : A -> Prop) n (l : list A), Forall P l -> Forall P (firstn n l).
Proof.
  intros A P n. induction n as [|n IH]; intros l H; [constructor|].
  destruct l as [|a l]; [constructor|].
  inversion H; subst. cbn. constructor; [assumption | apply IH; assumption].
Qed.

Lemma copy_word_text :
  forall f out_len,
    Forall table_char (word_buf f) ->
    text_stores (snd (copy_word f out_len)).
Proof.
  intros f out_len H. unfold copy_word. cbn [snd].
  apply text_stores_memcpy.
  eapply Forall_impl; [|apply Forall_firstn_keeps; exact H].
  intros c Hc. right. exact Hc.
Qed.

Lemma emit_word_text :
  forall f out_len,
    Forall table_char (word_buf f) ->
    text_stores (snd (fst (emit_word f out_len))).
Proof.
  intros f out_len H. unfold emit_word.
  repeat match goal with
         | |- context [if ?b then _ else _] => destruct b
         end; cbn [fst snd];
    first [apply copy_word_text; exact H | constructor].
Qed.

Lemma feed_loop_text :
  forall text f out_len written ss,
    Forall text_char text ->
    Forall table_char (word_buf f) ->
    text_stores ss ->
    text_stores (snd (fst (feed_loop f text out_len written ss)))
    /\ Forall table_char (word_buf (snd (feed_loop f text out_len written ss))).
Proof.
  induction text as [|c text IH]; intros f out_len written ss Ht Hf Hs.
  - split; assumption.
  - inversion Ht as [|? ? Hc Ht']; subst.
    cbn [feed_loop]. destruct (written <? out_len); [|split; assumption].
    destruct (Ascii.eqb c " ") eqn:Ec.
    + pose proof (emit_word_text f (out_len - written) Hf) as He.
      destruct (emit_word f (out_len - written)) as [[n ws] f1].
      cbn [fst snd] in He.
      assert (Hs1 : text_stores (ss ++ shift_stores written ws))
        by (apply Forall_app; split;
            [exact Hs | apply text_stores_shift; exact He]).
      destruct (0 <? n); [destruct (written + n <? out_len)|];
        apply IH; try assumption; try constructor.
      apply Forall_app. split; [exact Hs1|].
      constructor; [left; reflexivity | constructor].
    + apply IH; try assumption.
      destruct (word_len f <? _); [|exact Hf].
      cbn [word_buf]. apply Forall_app. split; [exact Hf|].
      constructor; [|constructor].
      destruct Hc as [Hc | Hc]; [|exact Hc].
      subst c. discriminate Ec.
Qed.

Lemma pattern_feed_ok :
  forall d elem,
    buffers_ok d ->
    buffers_ok (snd (pattern_feed d elem PAT_OUT_SIZE))
    /\ Forall text_char
         (buffer_read (snd (fst (pattern_feed d elem PAT_OUT_SIZE)))
                      (fst (fst (pattern_feed d elem PAT_OUT_SIZE)))).
Proof.
  intros d elem (Hl & Hp & Hw & Hc).
  pose proof (pattern_feed_wrote d elem PAT_OUT_SIZE ltac:(unfold PAT_OUT_SIZE; lia))
    as Hwr.
  destruct (wrote_bounds _ _ _ Hwr) as (_ & _ & Hread). rewrite Hread.
  clear Hwr Hread. unfold pattern_feed.
  destruct ((elem =? ELEM_DIT) || (elem =? ELEM_DAH)) eqn:Ee.
  - cbn [fst snd]. split; [|constructor].
    destruct (pattern_len d <? MAX_PATTERN - 1) eqn:E;
      [|repeat split; assumption].
    apply Z.ltb_lt in E. unfold MAX_PATTERN in E.
    unfold buffers_ok, pattern_len in *. cbn [dec_pattern output set_pattern].
    rewrite string_length_app, list_ascii_of_string_app. cbn [String.length].
    split; [lia|]. split; [|split; assumption].
    apply Forall_app. split; [exact Hp|]. constructor; [|constructor].
    apply orb_true_iff in Ee as [Ee | Ee]; apply Z.eqb_eq in Ee; subst elem;
      [left | right]; reflexivity.
  - destruct ((elem =? ELEM_CHAR) || (elem =? ELEM_WORD));
      [|split; [repeat split; assumption | constructor]].
    assert (Hempty : buffers_ok (set_pattern d EmptyString)).
    { unfold buffers_ok, pattern_len. cbn. repeat split; try assumption.
      - lia.
      - constructor. }
    destruct (0 <? pattern_len d).
    + destruct (morse_lookup_merged_bytes (dec_pattern d) (PAT_OUT_SIZE - 0))
        as (bytes & Hss & Hn & Hb).
      destruct (morse_lookup_merged (dec_pattern d) (PAT_OUT_SIZE - 0))
        as [n ss]. cbn [fst snd] in Hss, Hn. subst ss.
      assert (Ht : Forall text_char bytes)
        by (eapply Forall_impl; [|exact Hb]; intros c H; right; exact H).
      destruct ((elem =? ELEM_WORD) && (0 + n <? PAT_OUT_SIZE));
        cbn [fst snd]; (split; [exact Hempty|]).
      * unfold stored_bytes. rewrite map_app. apply Forall_app. split.
        -- fold (stored_bytes (shift_stores 0 (memcpy_stores 0 bytes))).
           rewrite shift_memcpy_stores, stored_bytes_memcpy. exact Ht.
        -- constructor; [left; reflexivity | constructor].
      * rewrite shift_memcpy_stores, stored_bytes_memcpy. exact Ht.
    + destruct ((elem =? ELEM_WORD) && (0 <? PAT_OUT_SIZE));
        cbn [fst snd]; (split; [repeat split; assumption|]).
      * constructor; [left; reflexivity | constructor].
      * constructor.
Qed.

Lemma pattern_flush_ok :
  forall d,
    buffers_ok d ->
    buffers_ok (snd (pattern_flush d PAT_OUT_SIZE))
    /\ Forall text_char
         (buffer_read (snd (fst (pattern_flush d PAT_OUT_SIZE)))
                      (fst (fst (pattern_flush d PAT_OUT_SIZE)))).
Proof.
  intros d (Hl & Hp & Hw & Hc).
  pose proof (pattern_flush_wrote d PAT_OUT_SIZE ltac:(unfold PAT_OUT_SIZE; lia))
    as Hwr.
  destruct (wrote_bounds _ _ _ Hwr) as (_ & _ & Hread). rewrite Hread.
  clear Hwr Hread. unfold pattern_flush.
  destruct (pattern_len d <=? 0);
    [split; [repeat split; assumption | constructor]|].
  destruct (morse_lookup_merged_bytes (dec_pattern d) PAT_OUT_SIZE)
    as (bytes & Hss & Hn & Hb).
  destruct (morse_lookup_merged (dec_pattern d) PAT_OUT_SIZE) as [n ss].
  cbn [fst snd] in *. subst ss. split.
  - unfold buffers_ok, pattern_len. cbn. repeat split; try assumption.
    + lia.
    + constructor.
  - rewrite stored_bytes_memcpy.
    eapply Forall_impl; [|exact Hb]. intros c H. right. exact H.
Qed.

Lemma feed_output_ok :
  forall d pat_n pat_ss out_len written ss,
    buffers_ok d ->
    Forall text_char (buffer_read pat_ss pat_n) ->
    text_stores ss ->
    buffers_ok (snd (feed_output d pat_n pat_ss out_len written ss))
    /\ text_stores (snd (fst (feed_output d pat_n pat_ss out_len written ss))).
Proof.
  intros d pat_n pat_ss out_len written ss Hd Ht Hs. unfold feed_output.
  destruct (0 <? pat_n); [|split; assumption].
  destruct Hd as (Hl & Hp & Hw & Hc).
  unfold output_filter_feed.
  pose proof (feed_loop_text (buffer_read pat_ss pat_n) (output d)
                (out_len - written) 0 [] Ht Hc (Forall_nil _)) as [H1 H2].
  pose proof (feed_loop_word_len (buffer_read pat_ss pat_n) (output d)
                (out_len - written) 0 [] Hw) as H3.
  destruct (feed_loop _ _ _ _ _) as [[filt_n fss] f]. cbn [fst snd] in *.
  split.
  - unfold buffers_ok, pattern_len. cbn. repeat split; assumption.
  - apply Forall_app. split; [exact Hs | apply text_stores_shift; exact H1].
Qed.

Lemma set_timing_ok :
  forall d t, buffers_ok d -> buffers_ok (set_timing d t).
Proof. intros d t H. exact H. Qed.

Lemma sample_loop_ok :
  forall on_off d out_len total_written ss,
    buffers_ok d -> text_stores ss ->
    buffers_ok (snd (sample_loop d on_off out_len total_written ss))
    /\ text_stores (snd (fst (sample_loop d on_off out_len total_written ss))).
Proof.
  induction on_off as [|on rest IH]; intros d out_len total_written ss Hd Hs.
  - split; assumption.
  - cbn [sample_loop]. destruct (total_written <? out_len);
      [|split; assumption].
    destruct (timing_process_sample (timing d) on) as [elem t].
    pose proof (set_timing_ok d t Hd) as Hd1.
    destruct (elem =? ELEM_NONE); [apply IH; assumption|].
    destruct (pattern_feed_ok (set_timing d t) elem Hd1) as [Hd2 Ht].
    destruct (pattern_feed (set_timing d t) elem PAT_OUT_SIZE)
      as [[pat_n pat_ss] d2]. cbn [fst snd] in *.
    destruct (feed_output_ok d2 pat_n pat_ss out_len total_written ss
                Hd2 Ht Hs) as [Hd3 Hs3].
    destruct (feed_output d2 pat_n pat_ss out_len total_written ss)
      as [[tw ss3] d3]. cbn [fst snd] in *.
    apply IH; assumption.
Qed.

Lemma front_end_ok :
  forall d chunk, buffers_ok d -> buffers_ok (fst (front_end d chunk)).
Proof.
  intros d chunk H. unfold front_end.
  destruct (front_core _ _ _ _) as [[bp env] on_off]. exact H.
Qed.

Lemma chunk_loop_ok :
  forall chunks d out_len total_written ss,
    buffers_ok d -> text_stores ss ->
    buffers_ok (snd (chunk_loop d chunks out_len total_written ss))
    /\ text_stores (snd (fst (chunk_loop d chunks out_len total_written ss))).
Proof.
  induction chunks as [|chunk rest IH];
    intros d out_len total_written ss Hd Hs.
  - split; assumption.
  - cbn [chunk_loop]. destruct (total_written <? out_len);
      [|split; assumption].
    pose proof (front_end_ok d chunk Hd) as Hd1.
    destruct (front_end d chunk) as [d1 on_off]. cbn [fst] in Hd1.
    destruct (sample_loop_ok on_off d1 out_len total_written ss Hd1 Hs)
      as [Hd2 Hs2].
    destruct (sample_loop d1 on_off out_len total_written ss)
      as [[tw ss2] d2]. cbn [fst snd] in *.
    apply IH; assumption.
Qed.

Lemma cw_decoder_process_ok :
  forall d audio out_len,
    buffers_ok d ->
    buffers_ok (snd (cw_decoder_process d audio out_len))
    /\ text_stores (snd (fst (cw_decoder_process d audio out_len))).
Proof.
  intros d audio out_len Hd. unfold cw_decoder_process.
  destruct (_ || _); [split; [exact Hd | constructor]|].
  apply chunk_loop_ok; [exact Hd | constructor].
Qed.

Lemma cw_decoder_finalize_ok :
  forall d out_len,
    buffers_ok d ->
    buffers_ok (snd (cw_decoder_finalize d out_len))
    /\ text_stores (snd (fst (cw_decoder_finalize d out_len))).
Proof.
  intros d out_len Hd. unfold cw_decoder_finalize.
  destruct (timing_finalize (timing d)) as [elem t].
  pose proof (set_timing_ok d t Hd) as Hd1.
  set (d1 := set_timing d t) in *.
  assert (H2 : forall r : Z * list store * cw_decoder_t,
             r = (if elem =? ELEM_NONE then (0, [], d1) else
                  let '(pat_n, pat_ss, dec) :=
                    pattern_feed d1 elem PAT_OUT_SIZE in
                  feed_output dec pat_n pat_ss out_len 0 []) ->
             buffers_ok (snd r) /\ text_stores (snd (fst r))).
  { intros r ->. destruct (elem =? ELEM_NONE);
      [split; [exact Hd1 | constructor]|].
    destruct (pattern_feed_ok d1 elem Hd1) as [Hd2 Ht].
    destruct (pattern_feed d1 elem PAT_OUT_SIZE) as [[pat_n pat_ss] d2].
    cbn [fst snd] in *.
    apply feed_output_ok; [assumption | assumption | constructor]. }
  specialize (H2 _ eq_refl).
  destruct (if elem =? ELEM_NONE then _ else _) as [[written ss] d2].
  cbn [fst snd] in H2. destruct H2 as [Hd2 Hs2].
  destruct (pattern_flush_ok d2 Hd2) as [Hd3 Ht3].
  destruct (pattern_flush d2 PAT_OUT_SIZE) as [[pat_n pat_ss] d3].
  cbn [fst snd] in *.
  destruct (feed_output_ok d3 pat_n pat_ss out_len written ss Hd3 Ht3 Hs2)
    as [Hd4 Hs4].
  destruct (feed_output d3 pat_n pat_ss out_len written ss)
    as [[written' ss'] d4]. cbn [fst snd] in *.
  destruct Hd4 as (Hl & Hp & Hw & Hc).
  unfold output_filter_flush.
  pose proof (emit_word_text (output d4) (out_len - written') Hc) as He.
  destruct (emit_word (output d4) (out_len - written')) as [[n fss] f].
  cbn [fst snd] in *. split.
  - unfold buffers_ok, pattern_len, word_len. cbn.
    repeat split; try assumption; [lia | constructor].
  - apply Forall_app. split; [exact Hs4 | apply text_stores_shift; exact He].
Qed.

Lemma cw_decoder_create_ok :
  forall des c, buffers_ok (cw_decoder_create des c).
Proof.
  intros des c. unfold cw_decoder_create.
  destruct (if (bandwidth c >? fzero)%fl then _ else _) as [bp use_bp].
  unfold buffers_ok, pattern_len, word_len. cbn.
  repeat split; try constructor; lia.
Qed.

Lemma decoder_calls_ok :
  forall calls d,
    buffers_ok d -> buffers_ok (fold_left decoder_call_run calls d).
Proof.
  induction calls as [|c calls IH]; intros d Hd; [exact Hd|].
  cbn [fold_left]. apply IH. destruct c; cbn [decoder_call_run].
  - apply cw_decoder_process_ok. exact Hd.
  - apply cw_decoder_finalize_ok. exact Hd.
Qed.

(** The decoder's two text buffers never overflow: whatever audio a
    decoder has processed since [cw_decoder_create], into output buffers
    of any size from 0 up, [pattern] holds at
    most 15 elements, one less than [MAX_PATTERN], all of them dots and
    dashes, and the output filter's [word_buf] at most 63 characters, all
    of them characters of the Morse table.  So [morse_lookup_merged] is
    only ever called on a pattern its 16-byte split buffers can hold. *)
Theorem decoder_buffers_never_overflow :
  forall (des : iir_designer) (c : cw_config_t) (calls : list decoder_call),
    decoder_calls_fit calls ->
    let d := fold_left decoder_call_run calls (cw_decoder_create des c) in
    pattern_len d <= 15
    /\ Forall dot_or_dash (list_ascii_of_string (dec_pattern d))
    /\ word_len (output d) <= 63
    /\ Forall table_char (word_buf (output d)).
Proof.
  intros des c calls _ d. subst d.
  apply decoder_calls_ok. apply cw_decoder_create_ok.
Qed.

(** The decoder writes text only: every byte that [cw_decoder_process] or
    [cw_decoder_finalize] stores into the caller's buffer, at any point
    of a decoder's life, is a space or a character of the Morse table.
    The calls before and the call itself name buffers of a size from 0 up
    and stay within the range of the sample counters. *)
Theorem decoder_output_alphabet :
  forall (des : iir_designer) (c : cw_config_t) (calls : list decoder_call)
         (audio : list float) (out_len : Z),
    decoder_calls_fit (calls ++ [Process audio out_len]) ->
    let d := fold_left decoder_call_run calls (cw_decoder_create des c) in
    Forall text_char
           (stored_bytes (snd (fst (cw_decoder_process d audio out_len))))
    /\ Forall text_char
              (stored_bytes (snd (fst (cw_decoder_finalize d out_len)))).
Proof.
  intros des c calls audio out_len _ d.
  assert (Hd : buffers_ok d)
    by (subst d; apply decoder_calls_ok; apply cw_decoder_create_ok).
  unfold stored_bytes. split; apply Forall_map.
  - apply cw_decoder_process_ok. exact Hd.
  - apply cw_decoder_finalize_ok. exact Hd.
Qed.

(** *** The batch entry point *)




End DecoderBuffers.

(** ** hamlib_missing.c: the FIFO is a queue of at most 1023 bytes *)

Section FifoQueue.
Import Fifo.

Local Abbreviation len l := (Z.of_nat (List.length l)) (only parsing).

Ltac euclid := Z.to_euclidean_division_equations; lia.

Lemma rem_1024 : forall x, 0 <= x -> Z.rem x 1024 = x mod 1024.
Proof. intros x H. apply Z.rem_mod_nonneg; lia. Qed.

Lemma size_range : forall fifo, 0 <= size fifo < 1024.
Proof.
  intros fifo. unfold size, HAMLIB_FIFO_SIZE. apply Z.mod_pos_bound. lia.
Qed.

Lemma contents_length : forall fifo, len (contents fifo) = size fifo.
Proof.
  intros fifo. unfold contents. rewrite length_map, length_seq.
  pose proof (size_range fifo). lia.
Qed.

(** One byte pushed into a FIFO that is not full. *)
Lemma push_one :
  forall fifo c,
    wf fifo -> size fifo < 1023 ->
    let fifo' := mk_fifo (aset (fifo_data fifo) (fifo_head fifo) c)
                         (Z.rem (fifo_head fifo + 1) HAMLIB_FIFO_SIZE)
                         (fifo_tail fifo) (fifo_flush fifo) in
    wf fifo' /\ size fifo' = size fifo + 1
    /\ contents fifo' = (contents fifo ++ [c])%list.
Proof.
  intros fifo c (Hl & Hh & Ht) Hs fifo'. subst fifo'.
  unfold wf, contents, size, HAMLIB_FIFO_SIZE in *.
  cbn [fifo_data fifo_head fifo_tail].
  rewrite rem_1024 by lia.
  assert (Hsz : ((fifo_head fifo + 1) mod 1024 - fifo_tail fifo) mod 1024
                = (fifo_head fifo - fifo_tail fifo) mod 1024 + 1) by euclid.
  split; [|split].
  - rewrite aset_length. split; [exact Hl|]. split; [euclid | lia].
  - exact Hsz.
  - rewrite Hsz.
    set (n := (fifo_head fifo - fifo_tail fifo) mod 1024) in *.
    assert (Hn : 0 <= n < 1023) by (subst n; euclid).
    replace (Z.to_nat (n + 1)) with (Z.to_nat n + 1)%nat by lia.
    rewrite seq_app, map_app. cbn [seq map]. f_equal.
    + apply map_ext_in. intros i Hi. apply in_seq in Hi.
      apply aget_aset_other. subst n. euclid.
    + f_equal. rewrite Nat.add_0_l.
      replace ((fifo_tail fifo + Z.of_nat (Z.to_nat n)) mod 1024)
        with (fifo_head fifo) by (subst n; euclid).
      apply aget_aset_same. lia.
Qed.

Lemma full_iff :
  forall fifo,
    wf fifo ->
    (Z.rem (fifo_head fifo + 1) HAMLIB_FIFO_SIZE =? fifo_tail fifo) = true
    <-> size fifo = 1023.
Proof.
  intros fifo (Hl & Hh & Ht). unfold size, HAMLIB_FIFO_SIZE in *.
  rewrite rem_1024 by lia. rewrite Z.eqb_eq. split; intros H; euclid.
Qed.

Lemma hl_push_contents :
  forall msg fifo,
    wf fifo ->
    Forall (fun c => c <> zero) msg ->
    let r := hl_push fifo msg in
    let room := 1023 - size fifo in
    wf (snd r)
    /\ contents (snd r)
       = (contents fifo ++ firstn (Z.to_nat room) msg)%list
    /\ (fst r = if len msg <=? room then 0 else -1).
Proof.
  induction msg as [|c msg IH]; intros fifo Hwf Hnz r room; subst r room.
  - cbn [hl_push fst snd List.length Z.of_nat]. rewrite firstn_nil, app_nil_r.
    pose proof (size_range fifo).
    assert (E : (0 <=? 1023 - size fifo) = true) by (apply Z.leb_le; lia).
    rewrite E. auto.
  - inversion Hnz as [|? ? Hc Hnz']; subst.
    cbn [hl_push].
    assert (Ec : Ascii.eqb c zero = false) by (apply Ascii.eqb_neq; exact Hc).
    rewrite Ec. pose proof (size_range fifo) as Hr.
    destruct (Z.rem (fifo_head fifo + 1) HAMLIB_FIFO_SIZE =? fifo_tail fifo)
      eqn:E.
    + apply (full_iff fifo Hwf) in E. rewrite E. cbn [fst snd].
      change (Z.to_nat (1023 - 1023)) with 0%nat.
      cbn [firstn]. rewrite app_nil_r.
      split; [exact Hwf|]. split; [reflexivity|].
      cbn [List.length]. rewrite Nat2Z.inj_succ.
      assert (E2 : (Z.succ (len msg) <=? 1023 - 1023) = false)
        by (apply Z.leb_gt; lia).
      rewrite E2. reflexivity.
    + assert (Hs : size fifo < 1023).
      { destruct (Z.eq_dec (size fifo) 1023) as [H1 | H1]; [|lia].
        apply (full_iff fifo Hwf) in H1. congruence. }
      destruct (push_one fifo c Hwf Hs) as (Hwf' & Hsz & Hct).
      cbv zeta in Hwf', Hsz, Hct.
      specialize (IH _ Hwf' Hnz'). cbv zeta in IH.
      destruct IH as (IH1 & IH2 & IH3).
      split; [exact IH1|]. split.
      * rewrite IH2, Hct, Hsz, <- app_assoc. f_equal.
        replace (Z.to_nat (1023 - size fifo))
          with (S (Z.to_nat (1023 - (size fifo + 1)))) by lia.
        reflexivity.
      * rewrite IH3, Hsz. cbn [List.length]. rewrite Nat2Z.inj_succ.
        destruct (len msg <=? 1023 - (size fifo + 1)) eqn:E1;
          destruct (Z.succ (len msg) <=? 1023 - size fifo) eqn:E2;
          try reflexivity;
          try (apply Z.leb_le in E1); try (apply Z.leb_gt in E1);
          try (apply Z.leb_le in E2); try (apply Z.leb_gt in E2); lia.
Qed.

(** [hl_push] appends to the queue: the bytes of a message with room for
    it (the FIFO holds 1023 bytes, one slot staying free) are added
    behind those waiting and the answer is 0.  A message too long is not
    refused whole: its first bytes fill the FIFO, the rest is dropped,
    and the answer is -1. *)
Theorem hl_push_appends :
  forall (fifo : FIFO_RIG) (msg : list ascii),
    wf fifo ->
    Forall (fun c => c <> zero) msg ->
    let r := hl_push fifo msg in
    let room := 1023 - size fifo in
    wf (snd r)
    /\ (len msg <= room ->
        fst r = 0 /\ contents (snd r) = (contents fifo ++ msg)%list)
    /\ (room < len msg ->
        fst r = -1
        /\ contents (snd r)
           = (contents fifo ++ firstn (Z.to_nat room) msg)%list
        /\ size (snd r) = 1023).
Proof.
  intros fifo msg Hwf Hnz r room.
  destruct (hl_push_contents msg fifo Hwf Hnz) as (H1 & H2 & H3).
  fold r in H1, H2, H3. fold room in H2, H3.
  pose proof (size_range fifo) as Hr.
  split; [exact H1|]. split.
  - intros Hle. assert (E : (len msg <=? room) = true) by (apply Z.leb_le; lia).
    rewrite E in H3. split; [exact H3|].
    rewrite H2, firstn_all2 by lia. reflexivity.
  - intros Hlt. assert (E : (len msg <=? room) = false) by (apply Z.leb_gt; lia).
    rewrite E in H3. split; [exact H3|]. split; [exact H2|].
    rewrite <- contents_length, H2, length_app, Nat2Z.inj_add.
    rewrite contents_length, length_firstn. subst room. lia.
Qed.

Lemma initFIFO_wf : wf initFIFO.
Proof.
  unfold wf, initFIFO, HAMLIB_FIFO_SIZE.
  cbn [fifo_data fifo_head fifo_tail]. rewrite repeat_length. lia.
Qed.

Lemma hl_push_appends_witness :
  let r := hl_push initFIFO ["C"; "Q"]%char in
  fst r = 0 /\ contents (snd r) = (contents initFIFO ++ ["C"; "Q"]%char)%list.
Proof.
  apply (hl_push_appends initFIFO ["C"; "Q"]%char).
  - exact initFIFO_wf.
  - repeat constructor; discriminate.
  - vm_compute. discriminate.
Defined.

(** *** Popping *)

Lemma hl_pop_contents :
  forall fifo,
    wf fifo ->
    match contents fifo with
    | [] => hl_pop fifo = (-1, fifo) /\ hl_peek fifo = -1
    | c :: rest =>
        fst (hl_pop fifo) = uchar c
        /\ hl_peek fifo = uchar c
        /\ wf (snd (hl_pop fifo))
        /\ contents (snd (hl_pop fifo)) = rest
    end.
Proof.
  intros fifo (Hl & Hh & Ht).
  pose proof (size_range fifo) as Hr.
  unfold hl_pop, hl_peek.
  destruct (fifo_head fifo =? fifo_tail fifo) eqn:E.
  - apply Z.eqb_eq in E.
    assert (Hs : size fifo = 0) by (unfold size; rewrite E, Z.sub_diag; reflexivity).
    unfold contents. rewrite Hs. cbn. auto.
  - apply Z.eqb_neq in E.
    assert (Hs : 0 < size fifo)
      by (unfold size, HAMLIB_FIFO_SIZE in *; euclid).
    unfold contents at 1.
    replace (Z.to_nat (size fifo)) with (S (Z.to_nat (size fifo - 1))) by lia.
    cbn [seq map Z.of_nat fst snd].
    replace ((fifo_tail fifo + 0) mod HAMLIB_FIFO_SIZE) with (fifo_tail fifo)
      by (unfold HAMLIB_FIFO_SIZE in *; euclid).
    split; [reflexivity|]. split; [reflexivity|]. split.
    + unfold wf, HAMLIB_FIFO_SIZE in *. cbn [fifo_data fifo_head fifo_tail].
      rewrite rem_1024 by lia. split; [exact Hl|]. split; [lia | euclid].
    + unfold contents, size, HAMLIB_FIFO_SIZE in *.
      cbn [fifo_data fifo_head fifo_tail]. rewrite rem_1024 by lia.
      replace ((fifo_head fifo - (fifo_tail fifo + 1) mod 1024) mod 1024)
        with ((fifo_head fifo - fifo_tail fifo) mod 1024 - 1) by euclid.
      rewrite <- seq_shift, map_map. apply map_ext. intros i. f_equal.
      rewrite Nat2Z.inj_succ. euclid.
Qed.

(** [hl_pop] takes the oldest byte: from a FIFO with bytes waiting it
    answers the first of them, as an unsigned char, and leaves the
    others; [hl_peek] answers the same byte and takes nothing.  On an
    empty FIFO both answer -1 and nothing changes. *)
Theorem hl_pop_takes_oldest :
  forall fifo : FIFO_RIG,
    wf fifo ->
    (forall c rest,
        contents fifo = c :: rest ->
        fst (hl_pop fifo) = uchar c
        /\ 0 <= uchar c <= 255
        /\ hl_peek fifo = uchar c
        /\ wf (snd (hl_pop fifo))
        /\ contents (snd (hl_pop fifo)) = rest)
    /\ (contents fifo = [] -> hl_pop fifo = (-1, fifo) /\ hl_peek fifo = -1).
Proof.
  intros fifo Hwf. pose proof (hl_pop_contents fifo Hwf) as H.
  split.
  - intros c rest Hc. rewrite Hc in H. destruct H as (H1 & H2 & H3 & H4).
    assert (Hu : 0 <= uchar c <= 255)
      by (unfold uchar; pose proof (nat_ascii_bounded c); lia).
    split; [exact H1|]. split; [exact Hu|]. split; [exact H2|].
    split; [exact H3 | exact H4].
  - intros Hc. rewrite Hc in H. exact H.
Qed.

Lemma hl_pop_takes_oldest_witness :
  let fifo := snd (hl_push initFIFO ["C"; "Q"]%char) in
  fst (hl_pop fifo) = 67 /\ hl_peek fifo = 67
  /\ contents (snd (hl_pop fifo)) = ["Q"%char].
Proof.
  assert (Hwf : wf (snd (hl_push initFIFO ["C"; "Q"]%char))).
  { unfold wf, HAMLIB_FIFO_SIZE. cbn. rewrite !nset_length, repeat_length.
    lia. }
  destruct (proj1 (hl_pop_takes_oldest _ Hwf) "C"%char ["Q"%char])
    as (H1 & _ & H2 & _ & H3).
  - vm_compute. reflexivity.
  - split; [exact H1|]. split; [exact H2 | exact H3].
Defined.

(** *** Round trip *)

Lemma pops_contents :
  forall n fifo,
    wf fifo -> (n <= List.length (contents fifo))%nat ->
    fst (pops n fifo) = map uchar (firstn n (contents fifo))
    /\ wf (snd (pops n fifo))
    /\ contents (snd (pops n fifo)) = skipn n (contents fifo).
Proof.
  induction n as [|n IH]; intros fifo Hwf Hn.
  - cbn. auto.
  - pose proof (hl_pop_contents fifo Hwf) as H.
    destruct (contents fifo) as [|c rest] eqn:Ec; [cbn in Hn; lia|].
    destruct H as (H1 & _ & H3 & H4).
    cbn [pops]. destruct (hl_pop fifo) as [x fifo1]. cbn [fst snd] in *.
    specialize (IH fifo1 H3). rewrite H4 in IH.
    destruct (IH ltac:(cbn in Hn; lia)) as (I1 & I2 & I3).
    destruct (pops n fifo1) as [more fifo2]. cbn [fst snd] in *.
    subst x more. auto.
Qed.

(** What goes in comes out: after pushing a message of at most 1023
    bytes into an empty FIFO, as many calls of [hl_pop] return its bytes
    in order, and the next one answers -1. *)
Theorem fifo_round_trip :
  forall (fifo : FIFO_RIG) (msg : list ascii),
    wf fifo ->
    contents fifo = [] ->
    Forall (fun c => c <> zero) msg ->
    len msg <= 1023 ->
    let pushed := hl_push fifo msg in
    let popped := pops (List.length msg) (snd pushed) in
    fst pushed = 0
    /\ fst popped = map uchar msg
    /\ fst (hl_pop (snd popped)) = -1.
Proof.
  intros fifo msg Hwf He Hnz Hl pushed popped.
  assert (Hs : size fifo = 0)
    by (rewrite <- contents_length, He; reflexivity).
  destruct (hl_push_contents msg fifo Hwf Hnz) as (H1 & H2 & H3).
  fold pushed in H1, H2, H3. rewrite Hs, He in *.
  change (1023 - 0) with 1023 in *.
  assert (E : (len msg <=? 1023) = true) by (apply Z.leb_le; exact Hl).
  rewrite E in H3. rewrite firstn_all2 in H2 by lia. cbn [app] in H2.
  destruct (pops_contents (List.length msg) (snd pushed) H1
              ltac:(rewrite H2; lia)) as (P1 & P2 & P3).
  fold popped in P1, P2, P3. rewrite H2 in P1, P3.
  rewrite firstn_all in P1. rewrite skipn_all in P3.
  split; [exact H3|]. split; [exact P1|].
  pose proof (hl_pop_contents (snd popped) P2) as Hp.
  rewrite P3 in Hp. destruct Hp as [Hp _]. rewrite Hp. reflexivity.
Qed.

Lemma fifo_round_trip_witness :
  let pushed := hl_push initFIFO ["C"; "Q"]%char in
  let popped := pops 2 (snd pushed) in
  fst pushed = 0 /\ fst popped = [67; 81]
  /\ fst (hl_pop (snd popped)) = -1.
Proof.
  apply (fifo_round_trip initFIFO ["C"; "Q"]%char).
  - exact initFIFO_wf.
  - reflexivity.
  - repeat constructor; discriminate.
  - cbn. lia.
Defined.

End FifoQueue.

(** ** kalman.c: a NaN measurement *)

Lemma SFmul_nan_r : forall p e c, SFmul p e c S754_nan = S754_nan.
Proof. intros p e c. destruct c; reflexivity. Qed.

Lemma SFadd_nan_r : forall p e c, SFadd p e c S754_nan = S754_nan.
Proof. intros p e c. destruct c; reflexivity. Qed.

Lemma clamp_nan :
  forall (log_f exp_f : spec_float -> spec_float) (lo hi : spec_float),
    @clamp (B32.ops log_f exp_f) lo hi S754_nan = S754_nan.
Proof.
  intros. unfold clamp. cbn [flt B32.ops SFltb SFcompare].
  destruct hi; reflexivity.
Qed.

Lemma clamp_nan_slot :
  forall (log_f exp_f : spec_float -> spec_float) (lo hi : spec_float) (i : Z),
    0 <= i < KALMAN_STATES ->
    let N : list (@float (B32.ops log_f exp_f)) :=
      [S754_nan; S754_nan; S754_nan; S754_nan; S754_nan] in
    aset N i (@clamp (B32.ops log_f exp_f) lo hi (fget N i)) = N.
Proof.
  intros log_f exp_f lo hi i Hi N. unfold KALMAN_STATES in Hi.
  assert (E : i = 0 \/ i = 1 \/ i = 2 \/ i = 3 \/ i = 4) by lia.
  destruct E as [-> | [-> | [-> | [-> | ->]]]];
    (change (fget N _) with S754_nan; rewrite clamp_nan; reflexivity).
Qed.

(** In binary32, with a [logf] that maps NaN to NaN, a NaN
    duration is not rejected by [kalman_update]: for every filter and
    every valid state index the update is accepted (return value 1), and
    it leaves all five state estimates NaN. *)
Theorem nan_duration_poisons_state :
  forall (log_f exp_f : spec_float -> spec_float)
         (k : @kalman_t (B32.ops log_f exp_f)) (i : Z),
    0 <= i < KALMAN_STATES ->
    log_f S754_nan = S754_nan ->
    fst (kalman_update k i S754_nan) = 1
    /\ k_x (snd (kalman_update k i S754_nan))
       = [S754_nan; S754_nan; S754_nan; S754_nan; S754_nan].
Proof.
  intros log_f exp_f k i Hi Hnan.
  pose proof (binary32_nan_accepted log_f exp_f k i Hi Hnan) as Hacc.
  split; [exact Hacc|].
  destruct (@kalman_update_accepted (B32.ops log_f exp_f) k i S754_nan Hacc)
    as [_ ->].
  cbv zeta.
  match goal with
  | |- context [updated_x k ?K ?y] =>
      assert (EX : updated_x k K y
                   = [S754_nan; S754_nan; S754_nan; S754_nan; S754_nan])
  end.
  { unfold updated_x, states. cbn [logf fsub fadd fmul B32.ops].
    rewrite Hnan. cbn [SFsub].
    change (zrange KALMAN_STATES) with [0; 1; 2; 3; 4]. cbn [map].
    rewrite !SFmul_nan_r, !SFadd_nan_r. reflexivity. }
  rewrite EX. unfold apply_bounds. cbn [k_x set_x set_P].
  rewrite !clamp_nan_slot
    by (unfold KALMAN_STATES, K_DIT, K_DAH, K_ELEM_SPACE, K_CHAR_SPACE,
               K_WORD_SPACE; lia).
  reflexivity.
Qed.

(** ** Silence decodes to nothing *)

(** *** The argument, over the properties of the arithmetic it needs *)

Section SilenceCore.
Context {FO : FloatOps}.
Variables zero mute : float -> Prop.

Hypothesis zero_fzero : zero fzero.
Hypothesis zero_mute : forall x, zero x -> mute x.
Hypothesis mute_add : forall x y, mute x -> mute y -> mute (x + y)%fl.
Hypothesis mute_sub : forall x y, mute x -> mute y -> mute (x - y)%fl.
Hypothesis mute_mul_l : forall x c, mute x -> mute (x * c)%fl.
Hypothesis mute_mul_r : forall c x, mute x -> mute (c * x)%fl.
Hypothesis mute_abs : forall x, mute x -> mute (fabsf x).
Hypothesis zero_not_below : forall p v, zero p -> mute v -> (v >? p)%fl = false.
Hypothesis zero_decay :
  forall p q, zero p -> zero q ->
              zero (flit 995 1000 * p + flit 5 1000 * q)%fl.
Hypothesis threshold_unreached :
  forall p c v,
    zero p -> mute v ->
    (v >=? (if (p * c <? flit 1 10000000000)%fl
            then flit 1 10000000000 else (p * c)%fl))%fl = false.

Local Abbreviation quiet := (Forall mute).
Local Abbreviation mute_section := (section_is_mute mute).
Local Abbreviation multipass_mute := (multipass_is_mute mute).
Local Abbreviation envelope_mute := (envelope_is_mute zero mute).
Local Abbreviation decoder_mute := (decoder_is_mute zero mute).

Lemma quiet_nth : forall l i, quiet l -> mute (nth i l fzero).
Proof.
  induction l as [|x l IH]; intros i H.
  - destruct i; apply zero_mute, zero_fzero.
  - inversion H; subst. destruct i; [assumption | apply IH; assumption].
Qed.

Lemma quiet_fget : forall l i, quiet l -> mute (fget l i).
Proof.
  intros l i H. unfold fget, aget. destruct (i <? 0);
    [apply zero_mute, zero_fzero | apply quiet_nth; exact H].
Qed.

Lemma Forall_nset :
  forall A (P : A -> Prop) (l : list A) i v,
    Forall P l -> P v -> Forall P (nset l i v).
Proof.
  intros A P. induction l as [|x l IH]; intros i v H Hv; [constructor|].
  inversion H; subst. destruct i; cbn; constructor; auto.
Qed.

Lemma Forall_aset :
  forall A (P : A -> Prop) (l : list A) i v,
    Forall P l -> P v -> Forall P (aset l i v).
Proof.
  intros A P l i v H Hv. unfold aset. destruct (i <? 0);
    [exact H | apply Forall_nset; assumption].
Qed.

Lemma Forall_aget :
  forall A (P : A -> Prop) (l : list A) i d,
    Forall P l -> P d -> P (aget d l i).
Proof.
  intros A P l i d H Hd. unfold aget. destruct (i <? 0); [exact Hd|].
  destruct (nth_in_or_default (Z.to_nat i) l d) as [Hin | ->]; [|exact Hd].
  rewrite Forall_forall in H. apply H. exact Hin.
Qed.

Lemma quiet_repeat : forall n, quiet (repeat fzero n).
Proof.
  intros n. apply Forall_forall. intros x Hx.
  apply repeat_spec in Hx. subst. apply zero_mute, zero_fzero.
Qed.

(** **** The IIR cascade *)

Lemma biquad_fold_mute :
  forall sec data z0 z1 acc,
    quiet data -> mute z0 -> mute z1 -> quiet acc ->
    let r := fold_left (biquad_step sec) data (z0, z1, acc) in
    mute (fst (fst r)) /\ mute (snd (fst r)) /\ quiet (snd r).
Proof.
  intros sec data. induction data as [|x data IH]; intros z0 z1 acc H H0 H1 Ha.
  - cbn. auto.
  - inversion H; subst. cbn [fold_left biquad_step].
    assert (Hy : mute (sec_b0 sec * x + z0)%fl)
      by (apply mute_add; [apply mute_mul_r|]; assumption).
    apply IH; [assumption| | |].
    + apply mute_add; [apply mute_sub; apply mute_mul_r|]; assumption.
    + apply mute_sub; apply mute_mul_r; assumption.
    + apply Forall_app. split; [assumption | constructor; [exact Hy|constructor]].
Qed.

Lemma section_process_mute :
  forall sec data,
    mute_section sec -> quiet data ->
    mute_section (fst (section_process sec data))
    /\ quiet (snd (section_process sec data)).
Proof.
  intros sec data [H0 H1] Hd. unfold section_process.
  pose proof (biquad_fold_mute sec data (sec_z0 sec) (sec_z1 sec) []
                Hd H0 H1 (Forall_nil _)) as H. cbv zeta in H.
  destruct (fold_left (biquad_step sec) data (sec_z0 sec, sec_z1 sec, []))
    as [[z0 z1] data']. cbn [fst snd] in *.
  destruct H as (Hz0 & Hz1 & Hq). split; [split; assumption | exact Hq].
Qed.

Lemma iir_filter_process_mute :
  forall f data,
    Forall mute_section f -> quiet data ->
    Forall mute_section (fst (iir_filter_process f data))
    /\ quiet (snd (iir_filter_process f data)).
Proof.
  induction f as [|sec rest IH]; intros data Hf Hd.
  - split; [constructor | exact Hd].
  - inversion Hf as [|? ? Hs Hr]; subst. cbn [iir_filter_process].
    destruct (section_process_mute sec data Hs Hd) as [H1 H2].
    destruct (section_process sec data) as [sec' data1]. cbn [fst snd] in *.
    destruct (IH data1 Hr H2) as [H3 H4].
    destruct (iir_filter_process rest data1) as [rest' data2].
    cbn [fst snd] in *. split; [constructor; assumption | exact H4].
Qed.

(** **** The moving average *)

Lemma pass_sample_mute :
  forall w inv_w buf buf_n data sum i,
    quiet data -> quiet buf -> mute sum ->
    quiet (fst (pass_sample w inv_w buf buf_n (data, sum) i))
    /\ mute (snd (pass_sample w inv_w buf buf_n (data, sum) i)).
Proof.
  intros w inv_w buf buf_n data sum i Hd Hb Hs. unfold pass_sample.
  assert (H1 : mute (sum + fget data i)%fl)
    by (apply mute_add; [exact Hs | apply quiet_fget; exact Hd]).
  set (sum' := if 0 <=? i - w then _ else _).
  assert (H2 : mute sum').
  { subst sum'. destruct (0 <=? i - w).
    - apply mute_sub; [exact H1 | apply quiet_fget; exact Hd].
    - destruct (_ && _); apply mute_sub; try exact H1;
        apply quiet_fget; assumption. }
  cbn [fst snd]. split; [|exact H2].
  apply Forall_aset; [exact Hd | apply mute_mul_l; exact H2].
Qed.

Lemma pass_fold_mute :
  forall w inv_w buf buf_n idxs data sum,
    quiet data -> quiet buf -> mute sum ->
    let r := fold_left (pass_sample w inv_w buf buf_n) idxs (data, sum) in
    quiet (fst r) /\ mute (snd r).
Proof.
  intros w inv_w buf buf_n idxs.
  induction idxs as [|i idxs IH]; intros data sum Hd Hb Hs.
  - split; assumption.
  - cbn [fold_left].
    destruct (pass_sample_mute w inv_w buf buf_n data sum i Hd Hb Hs)
      as [H1 H2].
    destruct (pass_sample w inv_w buf buf_n (data, sum) i) as [d1 s1].
    apply IH; assumption.
Qed.

Lemma fold_quiet :
  forall (f : list float -> Z -> list float) idxs b,
    (forall b j, quiet b -> quiet (f b j)) ->
    quiet b -> quiet (fold_left f idxs b).
Proof.
  intros f idxs. induction idxs as [|j idxs IH]; intros b Hf Hb; [exact Hb|].
  cbn [fold_left]. apply IH; [exact Hf | apply Hf; exact Hb].
Qed.

Lemma pass_save_mute :
  forall w buf buf_n data n,
    quiet data -> quiet buf ->
    quiet (fst (pass_save w buf buf_n data n)).
Proof.
  intros w buf buf_n data n Hd Hb. unfold pass_save.
  destruct (w - 1 <=? n); cbn [fst].
  - apply fold_quiet; [|exact Hb].
    intros b j H. apply Forall_aset; [exact H | apply quiet_fget; exact Hd].
  - apply fold_quiet.
    + intros b j H. destruct (_ <? MULTIPASS_MAX_WINDOW); [|exact H].
      apply Forall_aset; [exact H | apply quiet_fget; exact Hd].
    + destruct (0 <? _); [|exact Hb].
      apply fold_quiet; [|exact Hb].
      intros b j H. apply Forall_aset; [exact H | apply quiet_fget; exact H].
Qed.

Lemma multipass_pass_mute :
  forall w inv_w mp data pass,
    multipass_mute mp -> quiet data ->
    multipass_mute (fst (multipass_pass w inv_w (mp, data) pass))
    /\ quiet (snd (multipass_pass w inv_w (mp, data) pass)).
Proof.
  intros w inv_w mp data pass [Hb Hs] Hd. unfold multipass_pass.
  set (buf := aget [] (mp_buffers mp) pass).
  set (buf_n := aget 0 (mp_buf_len mp) pass).
  match goal with
  | |- context [fold_left _ _ (data, ?s)] => set (sum := s)
  end.
  assert (Hbuf : quiet buf)
    by (apply Forall_aget; [exact Hb | constructor]).
  assert (Hsum : mute sum).
  { subst sum. destruct (_ && _).
    - apply mute_mul_l. apply quiet_fget. exact Hd.
    - apply quiet_fget. exact Hs. }
  pose proof (pass_fold_mute w inv_w buf buf_n
                (zrange (Z.of_nat (List.length data))) data sum
                Hd Hbuf Hsum) as H. cbv zeta in H.
  destruct (fold_left (pass_sample w inv_w buf buf_n)
              (zrange (Z.of_nat (List.length data))) (data, sum))
    as [data' sum']. cbn [fst snd] in H. destruct H as [H1 H2].
  pose proof (pass_save_mute w buf buf_n data'
                (Z.of_nat (List.length data)) H1 Hbuf) as H3.
  destruct (pass_save w buf buf_n data' (Z.of_nat (List.length data)))
    as [buf' len']. cbn [fst snd] in *. split; [|exact H1].
  split; cbn [mp_buffers mp_running_sum].
  - apply Forall_aset; assumption.
  - apply Forall_aset; assumption.
Qed.

Lemma multipass_process_mute :
  forall mp data,
    multipass_mute mp -> quiet data ->
    multipass_mute (fst (multipass_process mp data))
    /\ quiet (snd (multipass_process mp data)).
Proof.
  intros mp data Hm Hd. unfold multipass_process.
  generalize (flit 1 1 / f_of_int (mp_window_size mp))%fl.
  generalize (mp_window_size mp).
  generalize (zrange (mp_n_passes mp)).
  intros passes w inv_w. revert mp data Hm Hd.
  induction passes as [|p passes IH]; intros mp data Hm Hd.
  - split; assumption.
  - cbn [fold_left].
    destruct (multipass_pass_mute w inv_w mp data p Hm Hd) as [H1 H2].
    destruct (multipass_pass w inv_w (mp, data) p) as [mp1 data1].
    apply IH; assumption.
Qed.
(** **** The envelope detector *)

Lemma chunk_peak_quiet :
  forall tmp, quiet tmp -> chunk_peak_of tmp = fzero.
Proof.
  intros tmp H. unfold chunk_peak_of.
  assert (G : forall peak, zero peak ->
            fold_left (fun peak v : float =>
                         if (v >? peak)%fl then v else peak) tmp peak
            = peak).
  { induction H as [|x tmp Hx Ht IH]; intros peak Hp; [reflexivity|].
    cbn [fold_left]. rewrite (zero_not_below peak x Hp Hx).
    apply IH. exact Hp. }
  apply G. exact zero_fzero.
Qed.

Lemma hysteresis_quiet :
  forall on_thr off_thr tmp oo,
    quiet tmp ->
    (forall v, mute v -> (v >=? on_thr)%fl = false) ->
    fold_left (hysteresis_step on_thr off_thr) tmp (0, oo)
    = (0, (oo ++ repeat 0 (List.length tmp))%list).
Proof.
  intros on_thr off_thr tmp. induction tmp as [|v tmp IH]; intros oo H Hon.
  - cbn. rewrite app_nil_r. reflexivity.
  - inversion H; subst. cbn [fold_left hysteresis_step Z.eqb].
    rewrite Hon by assumption. rewrite IH by assumption.
    rewrite <- app_assoc. reflexivity.
Qed.

Lemma envelope_chunk_mute :
  forall env oo audio,
    envelope_mute env -> quiet audio ->
    envelope_mute (fst (envelope_chunk (env, oo) audio))
    /\ snd (envelope_chunk (env, oo) audio)
       = (oo ++ repeat 0 (List.length audio))%list.
Proof.
  intros env oo audio (Hl & Hm & Hp & Hs) Ha. unfold envelope_chunk.
  assert (Habs : quiet (map fabsf audio)).
  { apply Forall_map. eapply Forall_impl; [|exact Ha].
    intros x Hx. apply mute_abs. exact Hx. }
  assert (Hf : exists lpf' mpf' tmp,
             (match env_mode env with
              | ENV_MODE_MULTIPASS =>
                  let '(mpf', tmp') :=
                    multipass_process (env_mpf env) (map fabsf audio) in
                  (env_lpf env, mpf', tmp')
              | ENV_MODE_IIR =>
                  let '(lpf', tmp') :=
                    iir_filter_process (env_lpf env) (map fabsf audio) in
                  (lpf', env_mpf env, tmp')
              end) = (lpf', mpf', tmp)
             /\ Forall mute_section lpf' /\ multipass_mute mpf'
             /\ quiet tmp /\ List.length tmp = List.length audio).
  { destruct (env_mode env).
    - destruct (iir_filter_process_mute (env_lpf env) _ Hl Habs) as [H1 H2].
      pose proof (iir_filter_process_length (env_lpf env)
                    (map fabsf audio)) as H3.
      destruct (iir_filter_process (env_lpf env) (map fabsf audio))
        as [lpf' tmp']. cbn [fst snd] in *.
      exists lpf', (env_mpf env), tmp'. rewrite length_map in H3.
      exact (conj eq_refl (conj H1 (conj Hm (conj H2 H3)))).
    - destruct (multipass_process_mute (env_mpf env) _ Hm Habs) as [H1 H2].
      pose proof (multipass_process_length (env_mpf env)
                    (map fabsf audio)) as H3.
      destruct (multipass_process (env_mpf env) (map fabsf audio))
        as [mpf' tmp']. cbn [fst snd] in *.
      exists (env_lpf env), mpf', tmp'. rewrite length_map in H3.
      exact (conj eq_refl (conj Hl (conj H1 (conj H2 H3)))). }
  destruct Hf as (lpf' & mpf' & tmp & -> & Hl' & Hm' & Ht & Hlen).
  rewrite (chunk_peak_quiet tmp Ht), Hs.
  rewrite (zero_not_below (env_peak_level env) fzero Hp
             (zero_mute _ zero_fzero)).
  set (peak := (flit 995 1000 * env_peak_level env + flit 5 1000 * fzero)%fl).
  assert (Hpeak : zero peak) by (apply zero_decay; [exact Hp | exact zero_fzero]).
  rewrite hysteresis_quiet;
    [|exact Ht
     |intros v Hv; apply threshold_unreached; [exact Hpeak | exact Hv]].
  cbn [fst snd]. rewrite Hlen. split; [|reflexivity].
  exact (conj Hl' (conj Hm' (conj Hpeak eq_refl))).
Qed.

Lemma envelope_chunks_mute :
  forall bs env oo,
    Forall quiet bs -> envelope_mute env ->
    envelope_mute (fst (fold_left envelope_chunk bs (env, oo)))
    /\ exists n, snd (fold_left envelope_chunk bs (env, oo))
                 = (oo ++ repeat 0 n)%list.
Proof.
  induction bs as [|b bs IH]; intros env oo Hb He.
  - cbn. split; [exact He|]. exists 0%nat. cbn. rewrite app_nil_r.
    reflexivity.
  - inversion Hb as [|? ? Hb1 Hb2]; subst. cbn [fold_left].
    destruct (envelope_chunk_mute env oo b He Hb1) as [H1 H2].
    destruct (envelope_chunk (env, oo) b) as [env1 oo1].
    cbn [fst snd] in *. subst oo1.
    destruct (IH env1 (oo ++ repeat 0 (List.length b))%list Hb2 H1)
      as [H3 [n H4]].
    split; [exact H3|]. exists (List.length b + n)%nat.
    rewrite H4, repeat_app, app_assoc. reflexivity.
Qed.

Lemma Forall_skipn_keeps :
  forall A (P : A -> Prop) n (l : list A), Forall P l -> Forall P (skipn n l).
Proof.
  intros A P n. induction n as [|n IH]; intros l H; [exact H|].
  destruct l as [|a l]; [constructor|].
  inversion H; subst. cbn. apply IH. assumption.
Qed.

Lemma blocks_fuel_quiet :
  forall fuel k (l : list float),
    quiet l -> Forall quiet (blocks_fuel fuel k l).
Proof.
  induction fuel as [|fuel IH]; intros k l H; [constructor|].
  cbn [blocks_fuel]. destruct l as [|x l]; [constructor|].
  constructor.
  - apply Forall_firstn_keeps. exact H.
  - apply IH. apply Forall_skipn_keeps. exact H.
Qed.

Lemma envelope_process_mute :
  forall env audio,
    envelope_mute env -> quiet audio ->
    envelope_mute (fst (envelope_process env audio))
    /\ exists n, snd (envelope_process env audio) = repeat 0 n.
Proof.
  intros env audio He Ha. unfold envelope_process.
  apply (envelope_chunks_mute (blocks 4096 audio) env []);
    [apply blocks_fuel_quiet; exact Ha | exact He].
Qed.

(** **** The decoder *)

Lemma sample_loop_mute :
  forall n (d : cw_decoder_t) out_len tw ss,
    decoder_mute d ->
    exists d',
      sample_loop d (repeat 0 n) out_len tw ss = (tw, ss, d')
      /\ decoder_mute d'.
Proof.
  induction n as [|n IH]; intros d out_len tw ss Hd.
  - exists d. split; [reflexivity | exact Hd].
  - cbn [repeat sample_loop]. destruct (tw <? out_len).
    2:{ exists d. split; [reflexivity | exact Hd]. }
    destruct Hd as (Hb & He & Hp & Ho & Hpat & Hw).
    rewrite steady_sample by (rewrite Hp; reflexivity).
    change (ELEM_NONE =? ELEM_NONE) with true. cbv iota.
    apply IH.
    unfold count_sample. cbn [Z.eqb].
    destruct d as [c bp ubp env t pat o]; destruct t.
    cbn in *. subst.
    exact (conj Hb (conj He (conj eq_refl (conj eq_refl
             (conj eq_refl Hw))))).
Qed.

Lemma front_end_mute :
  forall (d : cw_decoder_t) chunk,
    decoder_mute d -> quiet chunk ->
    decoder_mute (fst (front_end d chunk))
    /\ exists n, snd (front_end d chunk) = repeat 0 n.
Proof.
  intros d chunk (Hb & He & Hp & Ho & Hpat & Hw) Hc.
  unfold front_end, front_core.
  assert (Hbp : exists bp work,
             (if use_bandpass d =? 0 then (bandpass d, chunk)
              else iir_filter_process (bandpass d) chunk) = (bp, work)
             /\ Forall mute_section bp /\ quiet work).
  { destruct (use_bandpass d =? 0).
    - exists (bandpass d), chunk. auto.
    - destruct (iir_filter_process_mute (bandpass d) chunk Hb Hc) as [H1 H2].
      destruct (iir_filter_process (bandpass d) chunk) as [bp work].
      exists bp, work. auto. }
  destruct Hbp as (bp & work & -> & Hbp & Hwork).
  destruct (envelope_process_mute (envelope d) work He Hwork) as [He' Hn].
  destruct (envelope_process (envelope d) work) as [env' oo].
  cbn [fst snd] in *. split; [|exact Hn].
  exact (conj Hbp (conj He' (conj Hp (conj Ho (conj Hpat Hw))))).
Qed.

Lemma chunk_loop_mute :
  forall chunks (d : cw_decoder_t) out_len tw ss,
    Forall quiet chunks -> decoder_mute d ->
    exists d',
      chunk_loop d chunks out_len tw ss = (tw, ss, d')
      /\ decoder_mute d'.
Proof.
  induction chunks as [|chunk chunks IH]; intros d out_len tw ss Hc Hd.
  - exists d. split; [reflexivity | exact Hd].
  - inversion Hc as [|? ? Hc1 Hc2]; subst. cbn [chunk_loop].
    destruct (tw <? out_len).
    2:{ exists d. split; [reflexivity | exact Hd]. }
    destruct (front_end_mute d chunk Hd Hc1) as [Hd1 [n Hn]].
    destruct (front_end d chunk) as [d1 oo]. cbn [fst snd] in *. subst oo.
    destruct (sample_loop_mute n d1 out_len tw ss Hd1) as [d2 [E2 Hd2]].
    rewrite E2. apply IH; assumption.
Qed.

Lemma cw_decoder_process_mute :
  forall (d : cw_decoder_t) audio out_len,
    decoder_mute d -> quiet audio ->
    exists d',
      cw_decoder_process d audio out_len = (0, [], d')
      /\ decoder_mute d'.
Proof.
  intros d audio out_len Hd Ha. unfold cw_decoder_process.
  destruct (_ || _).
  - exists d. split; [reflexivity | exact Hd].
  - apply chunk_loop_mute; [apply blocks_fuel_quiet; exact Ha | exact Hd].
Qed.

Lemma cw_decoder_finalize_mute :
  forall (d : cw_decoder_t) out_len,
    decoder_mute d ->
    exists d', cw_decoder_finalize d out_len = (0, [], d').
Proof.
  intros d out_len (Hb & He & Hp & Ho & Hpat & Hw).
  unfold cw_decoder_finalize, timing_finalize. rewrite Ho.
  cbn [Z.ltb Z.compare andb].
  change (ELEM_NONE =? ELEM_NONE) with true. cbv iota.
  unfold pattern_flush, pattern_len.
  cbn [dec_pattern set_timing]. rewrite Hpat.
  cbn [String.length Z.of_nat Z.leb Z.compare].
  unfold feed_output. cbn [Z.ltb Z.compare].
  unfold output_filter_flush, emit_word, word_len.
  cbn [output set_timing]. rewrite Hw.
  cbn [List.length Z.of_nat Z.eqb shift_stores map app Z.add].
  eexists. reflexivity.
Qed.

Lemma stream_chunks_mute :
  forall chunks (d : cw_decoder_t) out_len,
    Forall quiet chunks -> decoder_mute d ->
    stream_chunks d chunks out_len = [].
Proof.
  induction chunks as [|chunk chunks IH]; intros d out_len Hc Hd.
  - cbn [stream_chunks].
    destruct (cw_decoder_finalize_mute d out_len Hd) as [d' ->].
    reflexivity.
  - inversion Hc as [|? ? Hc1 Hc2]; subst. cbn [stream_chunks]. cbv zeta.
    destruct (cw_decoder_process_mute d chunk out_len Hd Hc1)
      as [d' [-> Hd']].
    cbn [call_output snd app]. rewrite IH by assumption. reflexivity.
Qed.

Lemma zero_state_mute :
  forall f : iir_filter_t, Forall zero_state f -> Forall mute_section f.
Proof.
  intros f H. eapply Forall_impl; [|exact H].
  intros sec [H0 H1]. split; [rewrite H0 | rewrite H1];
    apply zero_mute, zero_fzero.
Qed.

Lemma multipass_init_mute : forall n w, multipass_mute (multipass_init n w).
Proof.
  intros n w. split; cbn [multipass_init mp_buffers mp_running_sum].
  - apply Forall_forall. intros row Hrow.
    apply repeat_spec in Hrow. subst. apply quiet_repeat.
  - apply quiet_repeat.
Qed.

Lemma multipass_zero_mute : multipass_mute multipass_zero.
Proof.
  split; cbn [multipass_zero mp_buffers mp_running_sum].
  - apply Forall_forall. intros row Hrow.
    apply repeat_spec in Hrow. subst. apply quiet_repeat.
  - apply quiet_repeat.
Qed.

Context {TO : TrigOps}.

Lemma cw_decoder_create_mute :
  forall c : cw_config_t,
    decoder_mute (cw_decoder_create Butterworth.designer c).
Proof.
  intros c. destruct (@designer_zero_state FO TO) as [Hlp Hbp].
  unfold cw_decoder_create.
  match goal with
  | |- context [let '(bp, use_bp) := ?e in _] =>
      assert (Hbp' : Forall zero_state (fst e))
  end.
  { destruct (_ >? _)%fl; [|constructor].
    match goal with
    | |- context [if ?b then (_, 1) else _] => destruct b; [|constructor]
    end.
    cbn [fst]. apply Hbp. }
  match goal with
  | |- context [let '(bp, use_bp) := ?e in _] => destruct e as [bp ubp]
  end.
  cbn [fst] in Hbp'.
  unfold decoder_is_mute.
  cbn [bandpass envelope timing dec_pattern output].
  split; [apply zero_state_mute; exact Hbp'|]. split.
  - unfold envelope_init. destruct (envelope_mode c).
    + refine (conj _ (conj multipass_zero_mute (conj zero_fzero eq_refl))).
      cbn [env_lpf]. apply zero_state_mute. apply Hlp.
    + refine (conj _ (conj (multipass_init_mute _ _)
                           (conj zero_fzero eq_refl))).
      constructor.
  - repeat split.
Qed.

Lemma silence_core :
  forall (c : cw_config_t) (chunks : list (list float)) (out_len : Z),
    Forall (Forall zero) chunks ->
    stream_chunks (cw_decoder_create Butterworth.designer c) chunks out_len
    = [].
Proof.
  intros c chunks out_len Hc. apply stream_chunks_mute.
  - eapply Forall_impl; [|exact Hc]. intros chunk H.
    eapply Forall_impl; [|exact H]. exact zero_mute.
  - apply cw_decoder_create_mute.
Qed.

End SilenceCore.
(** *** Binary32 has these properties *)

Section SilenceBinary32.
Import SilenceSpec.
Variables logf expf : spec_float -> spec_float.

Local Abbreviation F := (B32.ops logf expf).

Lemma is_zero_fzero : is_zero (@fzero F).
Proof. exact I. Qed.

Lemma is_zero_mute : forall x, is_zero x -> mute x.
Proof. intros [s | s | | s m e] H; try contradiction; exact I. Qed.

Lemma mute_SFadd :
  forall x y, mute x -> mute y -> mute (SFadd B32.prec B32.emax x y).
Proof.
  intros [sx | sx | | sx mx ex] [sy | sy | | sy my ey] Hx Hy;
    try contradiction; try exact I.
  destruct sx, sy; exact I.
Qed.

Lemma mute_SFsub :
  forall x y, mute x -> mute y -> mute (SFsub B32.prec B32.emax x y).
Proof.
  intros [sx | sx | | sx mx ex] [sy | sy | | sy my ey] Hx Hy;
    try contradiction; try exact I.
  destruct sx, sy; exact I.
Qed.

Lemma mute_SFmul_l :
  forall x c, mute x -> mute (SFmul B32.prec B32.emax x c).
Proof.
  intros [sx | sx | | sx mx ex] [sc | sc | | sc mc ec] Hx;
    try contradiction; exact I.
Qed.

Lemma mute_SFmul_r :
  forall c x, mute x -> mute (SFmul B32.prec B32.emax c x).
Proof.
  intros [sc | sc | | sc mc ec] [sx | sx | | sx mx ex] Hx;
    try contradiction; exact I.
Qed.

Lemma mute_SFabs : forall x, mute x -> mute (SFabs x).
Proof. intros [sx | sx | | sx mx ex] Hx; try contradiction; exact I. Qed.

Lemma is_zero_not_below :
  forall p v, is_zero p -> mute v -> SFltb p v = false.
Proof.
  intros [sp | sp | | sp mp ep] [sv | sv | | sv mv ev] Hp Hv;
    try contradiction; reflexivity.
Qed.

Lemma is_zero_decay :
  forall p q,
    is_zero p -> is_zero q ->
    is_zero (SFadd B32.prec B32.emax
               (SFmul B32.prec B32.emax (B32.lit 995 1000) p)
               (SFmul B32.prec B32.emax (B32.lit 5 1000) q)).
Proof.
  intros [sp | sp | | sp mp ep] [sq | sq | | sq mq eq] Hp Hq;
    try contradiction.
  destruct sp, sq; exact I.
Qed.

Lemma floor_unreached :
  forall p c v,
    is_zero p -> mute v ->
    SFleb (if SFltb (SFmul B32.prec B32.emax p c) (B32.lit 1 10000000000)
           then B32.lit 1 10000000000
           else SFmul B32.prec B32.emax p c) v = false.
Proof.
  intros [sp | sp | | sp mp ep] c v Hp Hv; try contradiction.
  destruct c as [sc | sc | | sc mc ec], v as [sv | sv | | sv mv ev];
    try contradiction; destruct sp; try destruct sc; reflexivity.
Qed.

End SilenceBinary32.

(** Silence decodes to nothing, in the arithmetic of the program and
    whatever the C library's [logf], [expf] and trigonometry return: a
    decoder created with the Butterworth designs, fed any number of
    chunks of all-zero samples through [cw_decoder_process] and then
    finalized, gives no output (every call returns 0), whatever the
    configuration.  The output buffer has a size from 0 up and the
    samples together stay within the range of the sample counters. *)
Theorem silence_decodes_to_nothing :
  forall (logf expf : spec_float -> spec_float)
         (TO : @TrigOps (B32.ops logf expf))
         (c : @cw_config_t (B32.ops logf expf))
         (chunks : list (list spec_float)) (out_len : Z),
    Forall SilenceSpec.silent chunks ->
    0 <= out_len ->
    Z.of_nat (List.length (List.concat chunks)) <= INT_MAX ->
    @stream_chunks (B32.ops logf expf)
      (cw_decoder_create Butterworth.designer c) chunks out_len
    = [].
Proof.
  intros logf expf TO c chunks out_len Hs _ _.
  apply (@silence_core (B32.ops logf expf)
           SilenceSpec.is_zero SilenceSpec.mute).
  - apply is_zero_fzero.
  - apply is_zero_mute.
  - apply mute_SFadd.
  - apply mute_SFsub.
  - apply mute_SFmul_l.
  - apply mute_SFmul_r.
  - apply mute_SFabs.
  - apply is_zero_not_below.
  - apply is_zero_decay.
  - apply floor_unreached.
  - exact Hs.
Qed.

(** ** Instances on concrete inputs *)

Lemma durations_counted_exactly_witness :
  fst (timing_run Samples.in_mark (repeat 1 3 ++ [0]))
  = (repeat ELEM_NONE 3
     ++ [fst (classify_signal
                (set_running Samples.in_mark
                             (t_on_dur Samples.in_mark + Z.of_nat 3)
                             (t_off_dur Samples.in_mark + 1)
                             (if (3 =? 0)%nat
                              then t_prev_on Samples.in_mark else 1)
                             (t_seen_signal Samples.in_mark)
                             (t_element_count Samples.in_mark))
                (t_on_dur Samples.in_mark + Z.of_nat 3))])%list
  /\ fst (timing_run Samples.in_gap (repeat 0 4 ++ [1]))
     = (repeat ELEM_NONE 4
        ++ [fst (classify_gap
                   (set_running Samples.in_gap
                                (t_on_dur Samples.in_gap + 1)
                                (t_off_dur Samples.in_gap + Z.of_nat 4) 0
                                (t_seen_signal Samples.in_gap)
                                (t_element_count Samples.in_gap))
                   (t_off_dur Samples.in_gap + Z.of_nat 4))])%list.
Proof.
  split.
  - apply (proj1 (durations_counted_exactly Samples.in_mark 3
                    ltac:(unfold counters_fit, INT_MAX; cbn; lia))).
    cbn. discriminate.
  - apply (proj2 (durations_counted_exactly Samples.in_gap 4
                    ltac:(unfold counters_fit, INT_MAX; cbn; lia))).
    + reflexivity.
    + cbn. discriminate.
Defined.

Lemma short_mark_dropped_witness :
  timing_process_sample Samples.in_mark 0
  = (ELEM_NONE,
     set_running Samples.in_mark 0 (t_off_dur Samples.in_mark + 1) 0 1
                 (t_element_count Samples.in_mark)).
Proof.
  apply (short_mark_dropped Samples.in_mark).
  - cbn. discriminate.
  - vm_compute. reflexivity.
Defined.

Lemma iir_filter_chunking_independent_witness :
  fst (iir_filter_run Samples.biquad [Run.audio [1; 2]; Run.audio [3]])
  = fst (iir_filter_run Samples.biquad [Run.audio [1]; Run.audio [2; 3]])
  /\ List.concat
       (snd (iir_filter_run Samples.biquad [Run.audio [1; 2]; Run.audio [3]]))
     = List.concat
         (snd (iir_filter_run Samples.biquad
                 [Run.audio [1]; Run.audio [2; 3]])).
Proof.
  apply (iir_filter_chunking_independent Samples.biquad
           [Run.audio [1; 2]; Run.audio [3]]
           [Run.audio [1]; Run.audio [2; 3]]).
  reflexivity.
Defined.

Lemma multipass_history_is_last_chunk_witness :
  let mp := @multipass_init Run.f32 2 5 in
  let r := multipass_process mp (Run.audio [1; 2; 3]) in
  aget 0 (mp_buf_len (fst r)) 1
  = Z.min (Z.of_nat (List.length (Run.audio [1; 2; 3])))
          (Z.min (mp_window_size mp - 1) 256)
  /\ mp_n_passes (fst r) = mp_n_passes mp
  /\ mp_window_size (fst r) = mp_window_size mp
  /\ List.length (snd r) = List.length (Run.audio [1; 2; 3]).
Proof.
  apply (multipass_history_is_last_chunk (@multipass_init Run.f32 2 5)
           (Run.audio [1; 2; 3]) 1).
  - vm_compute. split; [discriminate | reflexivity].
  - vm_compute. discriminate.
Defined.


Lemma session_fits : decoder_calls_fit Samples.session.
Proof.
  split; [repeat constructor; cbn; lia | unfold INT_MAX; cbn; lia].
Qed.

Lemma cw_decoder_reset_restores_create_witness :
  cw_decoder_reset
    (fold_left decoder_call_run Samples.session
       (cw_decoder_create (@Butterworth.designer Run.f32 Samples.no_trig)
                          Run.config))
  = cw_decoder_create (@Butterworth.designer Run.f32 Samples.no_trig)
                      Run.config.
Proof.
  apply (@cw_decoder_reset_restores_create Run.f32 Samples.no_trig
           Run.config Samples.session).
  exact session_fits.
Defined.

Lemma decoder_buffers_never_overflow_witness :
  let d := fold_left decoder_call_run Samples.session Run.decoder in
  pattern_len d <= 15
  /\ Forall dot_or_dash (list_ascii_of_string (dec_pattern d))
  /\ word_len (output d) <= 63
  /\ Forall table_char (word_buf (output d)).
Proof.
  apply (@decoder_buffers_never_overflow Run.f32 Run.no_designer Run.config
           Samples.session).
  exact session_fits.
Defined.

Lemma decoder_output_alphabet_witness :
  let d := fold_left decoder_call_run Samples.session Run.decoder in
  Forall text_char
         (stored_bytes
            (snd (fst (cw_decoder_process d (Run.audio [1; 0; 8]) 2))))
  /\ Forall text_char
            (stored_bytes (snd (fst (cw_decoder_finalize d 2)))).
Proof.
  apply (@decoder_output_alphabet Run.f32 Run.no_designer Run.config
           Samples.session (Run.audio [1; 0; 8]) 2).
  split; [repeat constructor; cbn; lia | unfold INT_MAX; cbn; lia].
Defined.


Lemma silence_decodes_to_nothing_witness :
  @stream_chunks Run.f32
    (cw_decoder_create (@Butterworth.designer Run.f32 Samples.no_trig)
                       Run.config)
    [Run.audio [0; 0]; Run.audio [0]] 16
  = [].
Proof.
  apply (@silence_decodes_to_nothing Run.no_libm Run.no_libm Samples.no_trig
           Run.config [Run.audio [0; 0]; Run.audio [0]] 16).
  - repeat constructor.
  - lia.
  - unfold INT_MAX. cbn. lia.
Defined.

Lemma nan_duration_poisons_state_witness :
  let k := Samples.correlated Run.no_libm Run.no_libm in
  fst (@kalman_update Run.f32 k K_DAH S754_nan) = 1
  /\ k_x (snd (@kalman_update Run.f32 k K_DAH S754_nan))
     = [S754_nan; S754_nan; S754_nan; S754_nan; S754_nan].
Proof.
  apply (@nan_duration_poisons_state Run.no_libm Run.no_libm
           (Samples.correlated Run.no_libm Run.no_libm) K_DAH).
  - unfold KALMAN_STATES, K_DAH. lia.
  - reflexivity.
Defined.
